(** * A shallow embedding of [bwamem.c]

    The development follows the source file function by function.  C [int]
    and [int64_t] values are integers of [Z]; the embedding describes the
    executions in which no signed arithmetic overflows (such an overflow is
    undefined behaviour in C), and writes the wrap-around out where the
    source computes on unsigned words.  Arrays are lists read with [!!] and
    written with [<[i:=x]>]; loop counters and array indices are [nat].
    The two floating-point options [mask_level] and [chain_drop_ratio] are
    kept as the rationals that they stand for.  The source multiplies
    them by an [int] and compares the product with an [int] in floating
    point; these comparisons, with their rounding, are parameters of the
    embedding ([float_cmp]). *)

From Stdlib Require Import ZArith QArith Lia Ascii.
From stdpp Require Import base list numbers sorting strings.

Local Open Scope Z_scope.

(** ** Data model (declared in [bwamem.h], used by [bwamem.c]) *)

(** [mem_opt_t], with the fields that the functions below read; they
    carry the prefix [o_] because the source names ([a], [b], [q], [r],
    [w]) are single letters. *)
Record mem_opt_t := {
  o_a : Z; o_b : Z; o_q : Z; o_r : Z; o_w : Z;
  o_flag : Z;
  o_min_seed_len : Z; o_max_seed_len : Z;
  o_min_intv : Z; o_max_occ : Z; o_max_chain_gap : Z;
  o_mask_level : Q; o_chain_drop_ratio : Q;
  o_n_threads : Z;
  o_mat : list Z
}.

(** The comparisons of [bwamem.c] that are computed in floating point,
    each of an [int] with the product of an [int] and a [float] option:
    [ge_mul fc d n x] is the value of [d >= n * x] and [lt_mul fc d n x]
    is the value of [d < n * x], with the conversions and the rounding
    of the machine.  They are parameters: nothing is assumed of what
    they return. *)
Record float_cmp := {
  ge_mul : Z -> Z -> Q -> bool;
  lt_mul : Z -> Z -> Q -> bool
}.

(** [mem_fill_scmat]: the 5x5 substitution matrix, row by row. *)
Definition mem_fill_scmat (a b : Z) : list Z :=
  concat (map (fun i : Z =>
                 map (fun j : Z => if Z.eqb i j then a else - b) [0; 1; 2; 3] ++ [0])
              [0; 1; 2; 3])
  ++ [0; 0; 0; 0; 0].

(** [mem_opt_init]: the default options. *)
Definition mem_opt_init : mem_opt_t := {|
  o_a := 1; o_b := 4; o_q := 6; o_r := 1; o_w := 100;
  o_flag := 0;
  o_min_seed_len := 19; o_max_seed_len := 32;
  o_min_intv := 10; o_max_occ := 10000; o_max_chain_gap := 10000;
  o_mask_level := (1 # 2)%Q; o_chain_drop_ratio := (1 # 2)%Q;
  o_n_threads := 1;
  o_mat := mem_fill_scmat 1 4
|}.

(** [mem_seed_t]. *)
Record mem_seed_t := { rbeg : Z; qbeg : Z; len : Z }.

(** [mem_chain_t]: [chn_n] seeds are in use, [chn_m] are allocated.  The
    field [chn_n] is kept apart from the length of [chn_seeds] because
    [mem_chain_flt] flips its sign to mark a chain. *)
Record mem_chain_t := {
  chn_n : Z; chn_m : Z; chn_pos : Z; chn_seeds : list mem_seed_t
}.

(** [mem_alnreg_t]. *)
Record mem_alnreg_t := {
  rb : Z; re : Z; qb : Z; qe : Z;
  score : Z; sub : Z; csub : Z; sub_n : Z;
  seedcov : Z; secondary : Z
}.

(** The seed read by an out-of-range index never matters in a defined
    execution; the embedding returns this one. *)
Definition seed0 : mem_seed_t := {| rbeg := 0; qbeg := 0; len := 0 |}.

(** [(int)((double)n / r + 1.)]: the quotient is computed in double
    precision, one is added and the sum is truncated towards zero.  For
    32-bit [n] and [r <> 0] the rounding of the division never crosses an
    integer, so the value is the truncation of the rational [(n + r) / r]. *)
Definition int_of_ratio_plus1 (n r : Z) : Z := Z.quot (n + r) r.

(** [cal_max_gap]. *)
Definition cal_max_gap (opt : mem_opt_t) (qlen : Z) : Z :=
  let l := int_of_ratio_plus1 (qlen * o_a opt - o_q opt) (o_r opt) in
  if l >? 1 then l else 1.

(** ** [bwa_gen_cigar] *)

(** The band width handed to [ksw_global] (the lines under
    [// set the band-width]); [mat0] is [mat[0]]. *)
Definition gen_cigar_band (mat0 q r w_ l_query rlen : Z) : Z :=
  let w := int_of_ratio_plus1 (l_query * mat0 - q) r in
  let w := if w <? 1 then w else 1 in
  let w := if w <? w_ then w else w_ in
  w + Z.abs (rlen - l_query).

(** [tmp = x[i], x[i] = x[j], x[j] = tmp]. *)
Definition swap_at (i j : nat) (x : list Z) : list Z :=
  match x !! i, x !! j with
  | Some xi, Some xj => <[j:=xi]> (<[i:=xj]> x)
  | _, _ => x
  end.

(** [for (i = 0; i < l>>1; ++i) swap x[i] and x[l - 1 - i]]. *)
Definition reverse_in_place (l : Z) (x : list Z) : list Z :=
  foldl (fun x i => swap_at i (Z.to_nat (l - 1) - i)%nat x) x
        (seq 0 (Z.to_nat (Z.shiftr l 1))).

(** What a call leaves behind: the returned pointer ([None] is the null
    pointer), [*n_cigar], [*score] ([None] when the call never writes it)
    and the query buffer. *)
Record gen_cigar_out := {
  gc_cigar : option (list Z);
  gc_n_cigar : Z;
  gc_score : option Z;
  gc_query : list Z
}.

Section GenCigar.
(** The collaborators of [bntseq.h] and [ksw.h]:
    [bns_get_seq l_pac pac beg end] returns the slice and its length,
    [ksw_global qlen query tlen target m mat q r w] returns the score,
    the number of CIGAR operations and the CIGAR. *)
Variable bns_get_seq : Z -> list Z -> Z -> Z -> list Z * Z.
Variable ksw_global :
  Z -> list Z -> Z -> list Z -> Z -> list Z -> Z -> Z -> Z -> Z * Z * list Z.

Definition bwa_gen_cigar (mat : list Z) (q r w_ l_pac : Z) (pac : list Z)
    (l_query : Z) (query : list Z) (rb re : Z) : gen_cigar_out :=
  if (l_query <=? 0) || (rb >=? re) || ((rb <? l_pac) && (re >? l_pac)) then
    {| gc_cigar := None; gc_n_cigar := 0; gc_score := None; gc_query := query |}
  else
    let '(rseq, rlen) := bns_get_seq l_pac pac rb re in
    if negb (re - rb =? rlen) then
      {| gc_cigar := None; gc_n_cigar := 0; gc_score := None; gc_query := query |}
    else
      let query1 := if rb >=? l_pac then reverse_in_place l_query query else query in
      let rseq1 := if rb >=? l_pac then reverse_in_place rlen rseq else rseq in
      let w := gen_cigar_band (nth 0 mat 0) q r w_ l_query rlen in
      let '(sc, n_cigar, cigar) := ksw_global l_query query1 rlen rseq1 5 mat q r w in
      let query2 := if rb >=? l_pac then reverse_in_place l_query query1 else query1 in
      {| gc_cigar := Some cigar; gc_n_cigar := n_cigar; gc_score := Some sc;
         gc_query := query2 |}.
End GenCigar.

(** ** The SMEM iterator *)

(** [bwtintv_t] of [bwt.h]: [x0], [x1], [x2] are [x[0]], [x[1]], [x[2]];
    all four fields are unsigned 64-bit words. *)
Record bwtintv_t := { x0 : Z; x1 : Z; x2 : Z; info : Z }.

(** The fields of [struct __smem_i] that outlive a call of [smem_next]. *)
Record smem_i := { itr_query : list Z; itr_start : Z; itr_len : Z }.

(** Conversions between machine words. *)
Definition to_uint64 (z : Z) : Z := z mod 2 ^ 64.
Definition to_uint32 (z : Z) : Z := z mod 2 ^ 32.
Definition to_int32 (z : Z) : Z := (z + 2 ^ 31) mod 2 ^ 32 - 2 ^ 31.
Definition to_int64 (z : Z) : Z := (z + 2 ^ 63) mod 2 ^ 64 - 2 ^ 63.

(** A query sent to the FM-index: a call of [bwt_smem1] at a cursor or a
    call of [bwt_sa] at a suffix-array position. *)
Inductive fm_query := FmSmem1 (start : Z) | FmSa (k : Z).

Definition smem_set_query (l : Z) (query : list Z) : smem_i :=
  {| itr_query := query; itr_start := 0; itr_len := l |}.

(** [while (start < len && query[start] > 3) ++start]. *)
Fixpoint skip_ambiguous (fuel : nat) (query : list Z) (l start : Z) : Z :=
  match fuel with
  | O => start
  | S fuel' =>
      if (start <? l) && (nth (Z.to_nat start) query 0 >? 3)
      then skip_ambiguous fuel' query l (start + 1)
      else start
  end.

(** [(uint32_t)p->info - (p->info>>32)], stored in an [int]. *)
Definition intv_slen (p : bwtintv_t) : Z :=
  to_int32 (to_uint64 (to_uint32 (info p) - Z.shiftr (info p) 32)).

Section Chaining.
(** The FM-index of [bwt.h]: [bwt_smem1 len query start max_len min_intv]
    returns the next cursor and the matches, [bwt_sa k] a position of the
    packed reference. *)
Variable bwt_smem1 : Z -> list Z -> Z -> Z -> Z -> Z * list bwtintv_t.
Variable bwt_sa : Z -> Z.

(** [smem_next]: the iterator after the call, the returned vector ([None]
    is the null pointer) and the queries sent to the index.  The closing
    loop of the source, which looks for the longest match and drops what
    it finds, leaves no trace. *)
Definition smem_next (itr : smem_i) (max_len min_intv : Z)
    : smem_i * option (list bwtintv_t) * list fm_query :=
  if (itr_start itr >=? itr_len itr) || (itr_start itr <? 0) then (itr, None, [])
  else
    let start := skip_ambiguous (Z.to_nat (itr_len itr - itr_start itr))
                                (itr_query itr) (itr_len itr) (itr_start itr) in
    if start =? itr_len itr then
      ({| itr_query := itr_query itr; itr_start := start; itr_len := itr_len itr |},
       None, [])
    else
      let '(start', matches) :=
        bwt_smem1 (itr_len itr) (itr_query itr) start max_len min_intv in
      ({| itr_query := itr_query itr; itr_start := start'; itr_len := itr_len itr |},
       Some matches, [FmSmem1 start]).

(** [test_and_merge]: the chain after the call and the returned flag.
    [chn_seeds] lists the seeds in use, so the write to
    [c->seeds[c->n++]] lands right behind the first [c->n] of them. *)
Definition test_and_merge (opt : mem_opt_t) (c : mem_chain_t) (p : mem_seed_t)
    : mem_chain_t * bool :=
  let last := nth (Z.to_nat (chn_n c - 1)) (chn_seeds c) seed0 in
  let first := nth 0 (chn_seeds c) seed0 in
  let qend := qbeg last + len last in
  let rend := rbeg last + len last in
  if (qbeg p >=? qbeg first) && (qbeg p + len p <=? qend)
     && (rbeg p >=? rbeg first) && (rbeg p + len p <=? rend)
  then (c, true)
  else
    let x := qbeg p - qbeg last in
    let y := rbeg p - rbeg last in
    if (y >=? 0) && (x - y <=? o_w opt) && (y - x <=? o_w opt)
       && (x - len last <? o_max_chain_gap opt)
       && (y - len last <? o_max_chain_gap opt)
    then
      ({| chn_n := chn_n c + 1;
          chn_m := if chn_n c =? chn_m c then Z.shiftl (chn_m c) 1 else chn_m c;
          chn_pos := chn_pos c;
          chn_seeds := take (Z.to_nat (chn_n c)) (chn_seeds c) ++ [p] |}, true)
    else (c, false).

(** Modelled from the spec: [kbtree.h] is not part of the source.  The
    tree is "an ordered tree keyed by chain anchor position", here the
    list of its chains in key order.  [kb_rank key tree] counts the
    chains whose [pos] is at most [key]; the predecessor query returns
    "the chain with the largest [pos <= seed.rbeg]", a new chain goes
    behind the chains whose key is not larger, and the traversal lists
    the chains in order. *)
Fixpoint kb_rank (key : Z) (tree : list mem_chain_t) : nat :=
  match tree with
  | [] => O
  | c :: tree' => if chn_pos c <=? key then S (kb_rank key tree') else O
  end.

Definition kb_size (tree : list mem_chain_t) : Z := Z.of_nat (length tree).

Definition kb_intervalp (tree : list mem_chain_t) (key : mem_chain_t) : option nat :=
  match kb_rank (chn_pos key) tree with
  | O => None
  | S i => Some i
  end.

Definition kb_putp (tree : list mem_chain_t) (c : mem_chain_t) : list mem_chain_t :=
  let k := kb_rank (chn_pos c) tree in take k tree ++ c :: drop k tree.

(** The body of the innermost loop of [mem_insert_seed], from the seed
    [s] on: merge it into the closest chain or add it as a new chain. *)
Definition mem_insert_one (opt : mem_opt_t) (tree : list mem_chain_t)
    (s : mem_seed_t) : list mem_chain_t :=
  let tmp := {| chn_n := 1; chn_m := 4; chn_pos := rbeg s; chn_seeds := [s] |} in
  if negb (kb_size tree =? 0) then
    match kb_intervalp tree tmp with
    | Some i =>
        match tree !! i with
        | Some lower =>
            let '(lower', merged) := test_and_merge opt lower s in
            if merged then <[i:=lower']> tree else kb_putp tree tmp
        | None => kb_putp tree tmp
        end
    | None => kb_putp tree tmp
    end
  else kb_putp tree tmp.

(** The seed built for the [k]-th occurrence of the interval [p]. *)
Definition intv_seed (p : bwtintv_t) (k : Z) : mem_seed_t :=
  {| rbeg := to_int64 (bwt_sa (to_uint64 (x0 p + k)));
     qbeg := to_int32 (Z.shiftr (info p) 32);
     len := intv_slen p |}.

(** [slen < opt->min_seed_len || p->x[2] > opt->max_occ]; the comparison
    with [x[2]] is unsigned. *)
Definition intv_ignored (opt : mem_opt_t) (p : bwtintv_t) : bool :=
  (intv_slen p <? o_min_seed_len opt) || (x2 p >? to_uint64 (o_max_occ opt)).

(** The body of the loop over the matches of one batch. *)
Definition mem_insert_intv (opt : mem_opt_t)
    (st : list mem_chain_t * list fm_query) (p : bwtintv_t)
    : list mem_chain_t * list fm_query :=
  if intv_ignored opt p then st
  else
    foldl (fun st k =>
             (mem_insert_one opt (fst st) (intv_seed p k),
              snd st ++ [FmSa (to_uint64 (x0 p + k))]))
          st (seqZ 0 (x2 p)).

(** [mem_insert_seed]: each unit of fuel pays for one call of
    [smem_next]; [None] when the fuel runs out before the iterator
    returns the null pointer. *)
Fixpoint mem_insert_seed (fuel : nat) (opt : mem_opt_t)
    (st : list mem_chain_t * list fm_query) (itr : smem_i)
    : option (list mem_chain_t * list fm_query) :=
  match fuel with
  | O => None
  | S fuel' =>
      match smem_next itr (o_max_seed_len opt) (o_min_intv opt) with
      | (itr', None, qs) => Some (fst st, snd st ++ qs)
      | (itr', Some a, qs) =>
          mem_insert_seed fuel' opt
            (foldl (mem_insert_intv opt) (fst st, snd st ++ qs) a) itr'
      end
  end.

(** [mem_chain]: the chain vector and the queries sent to the index. *)
Definition mem_chain (fuel : nat) (opt : mem_opt_t) (l : Z) (query : list Z)
    : option (list mem_chain_t * list fm_query) :=
  if l <? o_min_seed_len opt then Some ([], [])
  else mem_insert_seed fuel opt ([], []) (smem_set_query l query).

(** The seeds in the order in which [mem_insert_seed] builds them. *)
Definition intv_seeds (opt : mem_opt_t) (p : bwtintv_t) : list mem_seed_t :=
  if intv_ignored opt p then [] else map (intv_seed p) (seqZ 0 (x2 p)).

Fixpoint seed_stream (fuel : nat) (opt : mem_opt_t) (itr : smem_i)
    : list mem_seed_t :=
  match fuel with
  | O => []
  | S fuel' =>
      match smem_next itr (o_max_seed_len opt) (o_min_intv opt) with
      | (itr', None, _) => []
      | (itr', Some a, _) =>
          concat (map (intv_seeds opt) a) ++ seed_stream fuel' opt itr'
      end
  end.
End Chaining.

(** ** Filtering chains *)

(** [flt_aux_t]: [f_p] and [f_p2] point into the array [chains] and are
    kept as indices into it; [None] is the null pointer. *)
Record flt_aux_t := {
  f_beg : Z; f_end : Z; f_w : Z; f_p : nat; f_p2 : option nat
}.

Definition chain0 : mem_chain_t :=
  {| chn_n := 0; chn_m := 0; chn_pos := 0; chn_seeds := [] |}.

(** One turn of a coverage loop of [mem_chain_flt]: [key] is the start
    that the two tests read ([qbeg] in the first loop, [rbeg] in the
    second); the last line of the body reads [qbeg] in both loops. *)
Definition flt_cover_step (key : mem_seed_t -> Z) (st : Z * Z) (s : mem_seed_t)
    : Z * Z :=
  let '(w, e) := st in
  (if key s >=? e then w + len s
   else if key s + len s >? e then w + (key s + len s - e)
   else w,
   if e >? qbeg s + len s then e else qbeg s + len s).

(** [for (j = 0, end = 0; j < c->n; ++j) ...], entered with [w = w0]. *)
Definition flt_cover (key : mem_seed_t -> Z) (w0 : Z) (c : mem_chain_t) : Z :=
  fst (foldl (flt_cover_step key) (w0, 0)
             (take (Z.to_nat (chn_n c)) (chn_seeds c))).

(** The weight stored in [a[i].w]. *)
Definition flt_weight (c : mem_chain_t) : Z :=
  let w := flt_cover qbeg 0 c in
  let tmp := w in
  let w := flt_cover rbeg w c in
  if w <? tmp then w else tmp.

(** The entry [a[i]] built for [chains[i]]. *)
Definition flt_aux_init (i : nat) (c : mem_chain_t) : flt_aux_t :=
  let first := nth 0 (chn_seeds c) seed0 in
  let last := nth (Z.to_nat (chn_n c - 1)) (chn_seeds c) seed0 in
  {| f_beg := qbeg first; f_end := qbeg last + len last;
     f_w := flt_weight c; f_p := i; f_p2 := None |}.

(** [flt_lt], the order handed to [KSORT_INIT]. *)
Definition flt_lt (x y : flt_aux_t) : bool := f_w x >? f_w y.

(** The tests of the inner loop on [a[j]] and [a[i]]; those that the
    source computes in floating point go through [fc]. *)
Definition flt_overlap (aj ai : flt_aux_t) : bool :=
  let b_max := if f_beg aj >? f_beg ai then f_beg aj else f_beg ai in
  let e_min := if f_end aj <? f_end ai then f_end aj else f_end ai in
  e_min >? b_max.

Definition flt_significant
    (fc : float_cmp) (opt : mem_opt_t) (aj ai : flt_aux_t) : bool :=
  let b_max := if f_beg aj >? f_beg ai then f_beg aj else f_beg ai in
  let e_min := if f_end aj <? f_end ai then f_end aj else f_end ai in
  let min_l := if f_end ai - f_beg ai <? f_end aj - f_beg aj
               then f_end ai - f_beg ai else f_end aj - f_beg aj in
  ge_mul fc (e_min - b_max) min_l (o_mask_level opt).

Definition flt_drop (fc : float_cmp) (opt : mem_opt_t) (aj ai : flt_aux_t) : bool :=
  lt_mul fc (f_w ai) (f_w aj) (o_chain_drop_ratio opt)
  && (f_w aj - f_w ai >=? Z.shiftl (o_min_seed_len opt) 1).

Definition flt_set_p2 (aj : flt_aux_t) (p : nat) : flt_aux_t :=
  {| f_beg := f_beg aj; f_end := f_end aj; f_w := f_w aj; f_p := f_p aj;
     f_p2 := match f_p2 aj with None => Some p | Some k => Some k end |}.

(** [for (j = ...; j < n; ++j)] with its [break]: the array and the value
    of [j] when the loop is left; [fuel] is [n - j], the number of turns
    that are left. *)
Fixpoint flt_scan
    (fc : float_cmp) (opt : mem_opt_t) (i : nat) (fuel j : nat) (a : list flt_aux_t)
    : list flt_aux_t * nat :=
  match fuel with
  | O => (a, j)
  | S fuel' =>
      match a !! j, a !! i with
      | Some aj, Some ai =>
          if flt_overlap aj ai then
            if flt_significant fc opt aj ai then
              let a' := <[j:=flt_set_p2 aj (f_p ai)]> a in
              if flt_drop fc opt aj ai then (a', j)
              else flt_scan fc opt i fuel' (S j) a'
            else flt_scan fc opt i fuel' (S j) a
          else flt_scan fc opt i fuel' (S j) a
      | _, _ => (a, j)
      end
  end.

(** The body of [for (i = 1, n = 1; i < n_chn; ++i)]. *)
Definition flt_step
    (fc : float_cmp) (opt : mem_opt_t) (st : list flt_aux_t * nat) (i : nat)
    : list flt_aux_t * nat :=
  let '(a, n) := st in
  let '(a', j) := flt_scan fc opt i n 0 a in
  if Nat.eqb j n then
    (match a' !! i with Some ai => <[n:=ai]> a' | None => a' end, S n)
  else (a', n).

Definition flt_select
    (fc : float_cmp) (opt : mem_opt_t) (a : list flt_aux_t) : list flt_aux_t * nat :=
  foldl (flt_step fc opt) (a, 1%nat) (seq 1 (length a - 1)).

(** [if (c->n > 0) c->n = -c->n] on [c = &chains[k]]. *)
Definition flt_flip (k : nat) (chains : list mem_chain_t) : list mem_chain_t :=
  match chains !! k with
  | Some c =>
      if chn_n c >? 0 then
        <[k:={| chn_n := - chn_n c; chn_m := chn_m c; chn_pos := chn_pos c;
                chn_seeds := chn_seeds c |}]> chains
      else chains
  | None => chains
  end.

(** [for (i = 0; i < n; ++i)]: mark chains to be kept. *)
Definition flt_mark (a : list flt_aux_t) (n : nat) (chains : list mem_chain_t)
    : list mem_chain_t :=
  foldl (fun chains i =>
           match a !! i with
           | Some e =>
               let chains := flt_flip (f_p e) chains in
               match f_p2 e with
               | Some k => flt_flip k chains
               | None => chains
               end
           | None => chains
           end) chains (seq 0 n).

(** [for (i = 0; i < n_chn; ++i)]: free discarded chains.  The second
    component collects the indices of the chains whose seed buffer is
    handed to [free]; a freed buffer holds no seeds any more. *)
Definition flt_free (chains : list mem_chain_t) : list mem_chain_t * list nat :=
  foldl (fun st i =>
           match fst st !! i with
           | Some c =>
               if chn_n c >=? 0 then
                 (<[i:={| chn_n := 0; chn_m := 0; chn_pos := chn_pos c;
                          chn_seeds := [] |}]> (fst st), snd st ++ [i])
               else
                 (<[i:={| chn_n := - chn_n c; chn_m := chn_m c; chn_pos := chn_pos c;
                          chn_seeds := chn_seeds c |}]> (fst st), snd st)
           | None => st
           end) (chains, []) (seq 0 (length chains)).

(** [for (i = i0, m = m0; i < n; ++i) if (keep a[i]) { if (m != i)
    a[m++] = a[i]; else ++m; }], the loop that squeezes an array in place;
    [mem_chain_flt] and [mem_sort_and_dedup] both end with it. *)
Definition squeeze_step {A} (keep : A -> bool) (st : list A * nat) (i : nat)
    : list A * nat :=
  match fst st !! i with
  | Some x =>
      if keep x then
        (if negb (Nat.eqb (snd st) i) then <[snd st:=x]> (fst st) else fst st,
         S (snd st))
      else st
  | None => st
  end.

Definition squeeze {A} (keep : A -> bool) (i0 : nat) (a : list A) : list A * nat :=
  foldl (squeeze_step keep) (a, i0) (seq i0 (length a - i0)).

(** What [mem_chain_flt] leaves behind: the returned count, the array
    [chains] and the indices (into the reordered array) of the freed seed
    buffers. *)
Record flt_out := {
  flt_n : nat; flt_chains : list mem_chain_t; flt_freed : list nat
}.

Section ChainFilter.
(** [ks_introsort(mem_flt, ...)]: [ksort.h] is not part of the source;
    the sort is a parameter. *)
Variable ks_introsort_mem_flt : list flt_aux_t -> list flt_aux_t.

(** The aux array after the sort and the re-pointing of [a[i].p]. *)
Definition flt_sorted_aux (chains : list mem_chain_t) : list flt_aux_t :=
  imap (fun i e => {| f_beg := f_beg e; f_end := f_end e; f_w := f_w e;
                      f_p := i; f_p2 := f_p2 e |})
       (ks_introsort_mem_flt (imap flt_aux_init chains)).

(** The array [chains] after [memcpy(chains, swap, ...)]. *)
Definition flt_reorder (chains : list mem_chain_t) : list mem_chain_t :=
  map (fun e => nth (f_p e) chains chain0)
      (ks_introsort_mem_flt (imap flt_aux_init chains)).

(** [mem_chain_flt]; [n_chn] is the length of [chains]. *)
Definition mem_chain_flt
    (fc : float_cmp) (opt : mem_opt_t) (chains : list mem_chain_t) : flt_out :=
  if (length chains <=? 1)%nat then
    {| flt_n := length chains; flt_chains := chains; flt_freed := [] |}
  else
    let '(a, n) := flt_select fc opt (flt_sorted_aux chains) in
    let chains := flt_mark a n (flt_reorder chains) in
    let '(chains, freed) := flt_free chains in
    let '(chains, n) := squeeze (fun c => chn_n c >? 0) 0 chains in
    {| flt_n := n; flt_chains := chains; flt_freed := freed |}.
End ChainFilter.

(** ** De-overlap single-end hits *)

(** [alnreg_slt], the order handed to [KSORT_INIT]. *)
Definition alnreg_slt (x y : mem_alnreg_t) : bool :=
  (score x >? score y)
  || ((score x =? score y)
      && ((rb x <? rb y) || ((rb x =? rb y) && (qb x <? qb y)))).

Definition set_qe (x : mem_alnreg_t) (v : Z) : mem_alnreg_t :=
  {| rb := rb x; re := re x; qb := qb x; qe := v; score := score x; sub := sub x;
     csub := csub x; sub_n := sub_n x; seedcov := seedcov x;
     secondary := secondary x |}.

Definition set_sub (x : mem_alnreg_t) (v : Z) : mem_alnreg_t :=
  {| rb := rb x; re := re x; qb := qb x; qe := qe x; score := score x; sub := v;
     csub := csub x; sub_n := sub_n x; seedcov := seedcov x;
     secondary := secondary x |}.

Definition set_sub_n (x : mem_alnreg_t) (v : Z) : mem_alnreg_t :=
  {| rb := rb x; re := re x; qb := qb x; qe := qe x; score := score x; sub := sub x;
     csub := csub x; sub_n := v; seedcov := seedcov x;
     secondary := secondary x |}.

Definition set_secondary (x : mem_alnreg_t) (v : Z) : mem_alnreg_t :=
  {| rb := rb x; re := re x; qb := qb x; qe := qe x; score := score x; sub := sub x;
     csub := csub x; sub_n := sub_n x; seedcov := seedcov x;
     secondary := v |}.

(** The test of the loop that marks identical hits. *)
Definition same_hit (x y : mem_alnreg_t) : bool :=
  (score x =? score y) && (rb x =? rb y) && (qb x =? qb y).

(** The body of [for (i = 1; i < n; ++i)]: mark identical hits. *)
Definition dedup_mark_step (a : list mem_alnreg_t) (i : nat) : list mem_alnreg_t :=
  match a !! i, a !! (i - 1)%nat with
  | Some x, Some y => if same_hit x y then <[i:=set_qe x (qb x)]> a else a
  | _, _ => a
  end.

Definition dedup_mark (a : list mem_alnreg_t) : list mem_alnreg_t :=
  foldl dedup_mark_step a (seq 1 (length a - 1)).

Section SortDedup.
(** [ks_introsort(mem_ars, ...)]: a parameter, as [ksort.h] is not part
    of the source. *)
Variable ks_introsort_mem_ars : list mem_alnreg_t -> list mem_alnreg_t.

(** [mem_sort_and_dedup]: the returned count [m] and the array; [n] is
    the length of [a]. *)
Definition mem_sort_and_dedup (a : list mem_alnreg_t) : nat * list mem_alnreg_t :=
  if (length a <=? 1)%nat then (length a, a)
  else
    let a := ks_introsort_mem_ars a in
    let a := dedup_mark a in
    let '(a, m) := squeeze (fun x => qe x >? qb x) 1 a in
    (m, a).
End SortDedup.

(** The two tests of the inner loop of [mem_mark_primary_se]; the second
    one, computed in floating point, goes through [fc]. *)
Definition primary_overlap (aj ai : mem_alnreg_t) : bool :=
  let b_max := if qb aj >? qb ai then qb aj else qb ai in
  let e_min := if qe aj <? qe ai then qe aj else qe ai in
  e_min >? b_max.

Definition primary_significant
    (fc : float_cmp) (opt : mem_opt_t) (aj ai : mem_alnreg_t) : bool :=
  let b_max := if qb aj >? qb ai then qb aj else qb ai in
  let e_min := if qe aj <? qe ai then qe aj else qe ai in
  let min_l := if qe ai - qb ai <? qe aj - qb aj
               then qe ai - qb ai else qe aj - qb aj in
  ge_mul fc (e_min - b_max) min_l (o_mask_level opt).

(** [for (k = ...; k < z.n; ++k)] with its [break]: the array and the
    value of [k] when the loop is left; [fuel] is [z.n - k]. *)
Fixpoint primary_scan
    (fc : float_cmp) (opt : mem_opt_t) (tmp : Z) (i : nat) (z : list nat)
    (fuel k : nat) (a : list mem_alnreg_t) : list mem_alnreg_t * nat :=
  match fuel with
  | O => (a, k)
  | S fuel' =>
      match z !! k with
      | Some j =>
          match a !! j, a !! i with
          | Some aj, Some ai =>
              if primary_overlap aj ai then
                if primary_significant fc opt aj ai then
                  let aj1 := if sub aj =? 0 then set_sub aj (score ai) else aj in
                  let aj2 := if score aj1 - score ai <=? tmp
                             then set_sub_n aj1 (sub_n aj1 + 1) else aj1 in
                  (<[j:=aj2]> a, k)
                else primary_scan fc opt tmp i z fuel' (S k) a
              else primary_scan fc opt tmp i z fuel' (S k) a
          | _, _ => (a, k)
          end
      | None => (a, k)
      end
  end.

(** The body of [for (i = 1; i < n; ++i)]; the state is the array and the
    vector [z]. *)
Definition primary_step (fc : float_cmp) (opt : mem_opt_t) (tmp : Z)
    (st : list mem_alnreg_t * list nat) (i : nat) : list mem_alnreg_t * list nat :=
  let '(a, z) := st in
  let '(a', k) := primary_scan fc opt tmp i z (length z) 0 a in
  if Nat.eqb k (length z) then (a', z ++ [i])
  else
    match a' !! i, z !! k with
    | Some ai, Some j => (<[i:=set_secondary ai (Z.of_nat j)]> a', z)
    | _, _ => (a', z)
    end.

(** [mem_mark_primary_se]; [n] is the length of [a]. *)
Definition mem_mark_primary_se
    (fc : float_cmp) (opt : mem_opt_t) (a : list mem_alnreg_t)
    : list mem_alnreg_t :=
  if Nat.eqb (length a) 0 then a
  else
    let a := map (fun x => set_secondary (set_sub x 0) (-1)) a in
    let tmp := if o_a opt + o_b opt >? o_q opt + o_r opt
               then o_a opt + o_b opt else o_q opt + o_r opt in
    fst (foldl (primary_step fc opt tmp) (a, [0%nat]) (seq 1 (length a - 1))).

(** ** Construct the alignment from a chain *)

(** One turn of the loop under [// get the max possible span]; the state
    is [rmax[0]] and [rmax[1]].  The loop also keeps the longest seed in
    [max] and [max_i], which nothing reads. *)
Definition chain2aln_span_step (opt : mem_opt_t) (l_query : Z) (st : Z * Z)
    (t : mem_seed_t) : Z * Z :=
  let b := rbeg t - (qbeg t + cal_max_gap opt (qbeg t)) in
  let e := rbeg t + len t
           + ((l_query - qbeg t - len t)
              + cal_max_gap opt (l_query - qbeg t - len t)) in
  (if fst st <? b then fst st else b, if snd st >? e then snd st else e).

Definition chain2aln_span (opt : mem_opt_t) (l_pac l_query : Z) (c : mem_chain_t)
    : Z * Z :=
  foldl (chain2aln_span_step opt l_query) (Z.shiftl l_pac 1, 0)
        (take (Z.to_nat (chn_n c)) (chn_seeds c)).

(** [memset(a, 0, sizeof(mem_alnreg_t))]. *)
Definition alnreg0 : mem_alnreg_t :=
  {| rb := 0; re := 0; qb := 0; qe := 0; score := 0; sub := 0; csub := 0;
     sub_n := 0; seedcov := 0; secondary := 0 |}.

Definition set_seedcov (x : mem_alnreg_t) (v : Z) : mem_alnreg_t :=
  {| rb := rb x; re := re x; qb := qb x; qe := qe x; score := score x; sub := sub x;
     csub := csub x; sub_n := sub_n x; seedcov := v;
     secondary := secondary x |}.

(** [for (i = 0; i < n; ++i) x[i] = y[n - 1 - i]]. *)
Definition reversed_prefix (n : Z) (y : list Z) : list Z :=
  map (fun i => nth (Z.to_nat (n - 1 - i)) y 0) (seqZ 0 n).

(** The test of the loop under [// compute seedcov]. *)
Definition seed_contained (a : mem_alnreg_t) (t : mem_seed_t) : bool :=
  (qbeg t >=? qb a) && (qbeg t + len t <=? qe a)
  && (rbeg t >=? rb a) && (rbeg t + len t <=? re a).

Definition chain2aln_seedcov (c : mem_chain_t) (a : mem_alnreg_t) : Z :=
  foldl (fun cov t => if seed_contained a t then cov + len t else cov) 0
        (take (Z.to_nat (chn_n c)) (chn_seeds c)).

(** [for (i = k + 1; i < c->n; ++i)] with its two [break]s: the value of
    [i] when the loop is left; [fuel] is [c->n - i]. *)
Fixpoint chain2aln_next (c : mem_chain_t) (a : mem_alnreg_t) (fuel i : nat) : nat :=
  match fuel with
  | O => i
  | S fuel' =>
      match chn_seeds c !! i, chn_seeds c !! (i - 1)%nat with
      | Some t, Some p =>
          if (rbeg p + len p >=? rbeg t + 7) || (qbeg p + len p >=? qbeg t + 7)
          then i
          else if (rbeg t + len t >? re a) || (qbeg t + len t >? qe a) then i
          else chain2aln_next c a fuel' (S i)
      | _, _ => i
      end
  end.

Section Chain2Aln.
(** The collaborators of [bntseq.h] and [ksw.h]:
    [bns_get_seq l_pac pac beg end] returns the slice and its length,
    [ksw_extend qlen query tlen target m mat gapo gape w h0] returns the
    score, [*qle] and [*tle]. *)
Variable bns_get_seq : Z -> list Z -> Z -> Z -> list Z * Z.
Variable ksw_extend :
  Z -> list Z -> Z -> list Z -> Z -> list Z -> Z -> Z -> Z -> Z -> Z * Z * Z.

(** The body of the loop over the seeds up to [// compute seedcov]: the
    region that the extension of the seed [s] to both sides gives. *)
Definition chain2aln_extend (opt : mem_opt_t) (l_query : Z) (query : list Z)
    (rmax0 rmax1 : Z) (rseq : list Z) (s : mem_seed_t) : mem_alnreg_t :=
  let left :=
    if negb (qbeg s =? 0) then
      let qs := reversed_prefix (qbeg s) query in
      let tmp := rbeg s - rmax0 in
      let rs := reversed_prefix tmp rseq in
      let r := ksw_extend (qbeg s) qs tmp rs 5 (o_mat opt) (o_q opt) (o_r opt)
                          (o_w opt) (len s * o_a opt) in
      (fst (fst r), qbeg s - snd (fst r), rbeg s - snd r)
    else (len s * o_a opt, 0, rbeg s) in
  let right :=
    if negb (qbeg s + len s =? l_query) then
      let qe := qbeg s + len s in
      let re := rbeg s + len s - rmax0 in
      let r := ksw_extend (l_query - qe) (drop (Z.to_nat qe) query)
                          (rmax1 - rmax0 - re) (drop (Z.to_nat re) rseq)
                          5 (o_mat opt) (o_q opt) (o_r opt) (o_w opt)
                          (fst (fst left)) in
      (fst (fst r), qe + snd (fst r), rmax0 + re + snd r)
    else (fst (fst left), l_query, rbeg s + len s) in
  {| rb := snd left; re := snd right; qb := snd (fst left); qe := snd (fst right);
     score := fst (fst right); sub := 0; csub := 0; sub_n := 0; seedcov := 0;
     secondary := 0 |}.

(** [for (k = 0; k < c->n;)]: the vector [av] and the value of [k] when
    the loop is left; every turn raises [k], so that [c->n] turns are
    enough. *)
Fixpoint chain2aln_regions (opt : mem_opt_t) (l_query : Z) (query : list Z)
    (rmax0 rmax1 : Z) (rseq : list Z) (c : mem_chain_t) (fuel k : nat)
    (av : list mem_alnreg_t) : list mem_alnreg_t * nat :=
  match fuel with
  | O => (av, k)
  | S fuel' =>
      if (k <? Z.to_nat (chn_n c))%nat then
        match chn_seeds c !! k with
        | Some s =>
            let a := chain2aln_extend opt l_query query rmax0 rmax1 rseq s in
            let a := set_seedcov a (chain2aln_seedcov c a) in
            chain2aln_regions opt l_query query rmax0 rmax1 rseq c fuel'
              (chain2aln_next c a (Z.to_nat (chn_n c) - S k) (S k)) (av ++ [a])
        | None => (av, k)
        end
      else (av, k)
  end.

(** [mem_chain2aln]: the vector [*av] that the call leaves.  The
    [printf] under [mem_verbose >= 4] does not touch it and is left
    out. *)
Definition mem_chain2aln (opt : mem_opt_t) (l_pac : Z) (pac : list Z)
    (l_query : Z) (query : list Z) (c : mem_chain_t) : list mem_alnreg_t :=
  let rmax := chain2aln_span opt l_pac l_query c in
  let '(rseq, rlen) := bns_get_seq l_pac pac (fst rmax) (snd rmax) in
  if negb (rlen =? snd rmax - fst rmax) then []
  else
    fst (chain2aln_regions opt l_query query (fst rmax) (snd rmax) rseq c
                           (Z.to_nat (chn_n c)) 0 []).
End Chain2Aln.

(** ** Approximate mapping quality *)

Section Mapq.
(** The double-precision expressions of [mem_approx_mapq_se], each with
    its conversion to [int], are parameters:
    [mapq_margin sub score seedcov] is
    [(int)(MEM_MAPQ_COEF * (1. - (double)sub / score) * log(seedcov) + .499)],
    [identity_low opt l score] is the test [identity < 0.95],
    [mapq_identity opt l score mapq] is
    [(int)(mapq * identity * identity + .499)] and
    [mapq_ties sub_n] is [(int)(4.343 * log(sub_n) + .499)].
    Nothing is assumed of the integers that they yield. *)
Variable mapq_margin : Z -> Z -> Z -> Z.
Variable identity_low : mem_opt_t -> Z -> Z -> bool.
Variable mapq_identity : mem_opt_t -> Z -> Z -> Z -> Z.
Variable mapq_ties : Z -> Z.

(** The suboptimal score that the source compares with [a->score]. *)
Definition mapq_sub (opt : mem_opt_t) (a : mem_alnreg_t) : Z :=
  let s := if negb (sub a =? 0) then sub a else o_min_seed_len opt * o_a opt in
  if csub a >? s then csub a else s.

Definition mem_approx_mapq_se (opt : mem_opt_t) (a : mem_alnreg_t) : Z :=
  let s := mapq_sub opt a in
  if s >=? score a then 0
  else
    let l := if qe a - qb a >? re a - rb a then qe a - qb a else re a - rb a in
    let mapq := if negb (score a =? 0) then mapq_margin s (score a) (seedcov a)
                else 0 in
    let mapq := if identity_low opt l (score a)
                then mapq_identity opt l (score a) mapq else mapq in
    let mapq := if negb (sub_n a =? 0) then mapq - mapq_ties (sub_n a) else mapq in
    let mapq := if mapq >? 60 then 60 else mapq in
    let mapq := if mapq <? 0 then 0 else mapq in
    mapq.
End Mapq.

(** ** Basic hit->SAM conversion *)

(** [bwahit_t] and [bseq1_t] of [bwamem.h], with the fields that
    [bwamem.c] reads or writes; [s_qual] is [None] for a null pointer.
    After [find_alnreg] the bases in [s_seq] are the codes 0 to 4. *)
Record bwahit_t := {
  h_rb : Z; h_re : Z; h_qb : Z; h_qe : Z;
  h_flag : Z; h_qual : Z; h_score : Z; h_sub : Z
}.

Record bseq1_t := {
  s_l_seq : Z; s_name : list ascii; s_seq : list Z; s_qual : option (list ascii)
}.

(** [kstring.h] is not part of the source.  What [bwa_hit2sam] does to
    the string [str] is kept as the list of its calls to [kstring.h] and
    of its own writes to the buffer, in order: [Store c] is
    [str->s[str->l++] = c], [Terminate] is [str->s[str->l] = 0] and
    [Ks_resize n] is [ks_resize(str, str->l + n)]. *)
Inductive kstring_op :=
| Kputs (s : list ascii)
| Kputsn (s : list ascii) (l : Z)
| Kputc (c : ascii)
| Kputw (c : Z)
| Kputuw (c : Z)
| Ks_resize (n : Z)
| Store (c : ascii)
| Terminate.

Definition TAB : ascii := "009"%char.
Definition NL : ascii := "010"%char.

(** The characters of a C string literal; the byte behind it is 0. *)
Definition lit (s : string) : list ascii := String.list_ascii_of_string s.

(** [lit[i]]. *)
Definition lit_at (s : string) (i : Z) : ascii := nth (Z.to_nat i) (lit s) zero.

(** ["\t*\t0\t0\t*"] and ["\t*\t0\t0\t"]. *)
Definition sam_no_coordinate : list ascii :=
  [TAB; "*"; TAB; "0"; TAB; "0"; TAB; "*"]%char.

Definition sam_no_mate : list ascii :=
  [TAB; "*"; TAB; "0"; TAB; "0"; TAB]%char.

(** [p->flag |= v]. *)
Definition or_flag (p : bwahit_t) (v : Z) : bwahit_t :=
  {| h_rb := h_rb p; h_re := h_re p; h_qb := h_qb p; h_qe := h_qe p;
     h_flag := Z.lor (h_flag p) v; h_qual := h_qual p; h_score := h_score p;
     h_sub := h_sub p |}.

Definition set_qual (p : bwahit_t) (v : Z) : bwahit_t :=
  {| h_rb := h_rb p; h_re := h_re p; h_qb := h_qb p; h_qe := h_qe p;
     h_flag := h_flag p; h_qual := v; h_score := h_score p; h_sub := h_sub p |}.

(** [memset(&ptmp, 0, sizeof(bwahit_t)); ptmp.rb = ptmp.re = -1]. *)
Definition hit_unmapped : bwahit_t :=
  {| h_rb := -1; h_re := -1; h_qb := 0; h_qe := 0; h_flag := 0; h_qual := 0;
     h_score := 0; h_sub := 0 |}.

(** The macro [is_mapped]. *)
Definition is_mapped (l_pac : Z) (x : bwahit_t) : bool :=
  (h_rb x >=? 0) && (h_rb x <? h_re x) && (h_re x <=? Z.shiftl l_pac 1).

Definition mate_test (m : option bwahit_t) (f : bwahit_t -> bool) : bool :=
  match m with Some m' => f m' | None => false end.

(** The lines of [bwa_hit2sam] before the first [kputs]: the hit [ptmp]
    and [copy_mate]. *)
Definition hit2sam_hit (l_pac l_seq : Z) (p_ m : option bwahit_t)
    : bwahit_t * bool :=
  let p := match p_ with None => hit_unmapped | Some p => p end in
  let p := or_flag p (if mate_test m (fun _ => true) then 1 else 0) in
  let p := or_flag p (if negb (is_mapped l_pac p) then 4 else 0) in
  let p := or_flag p (if mate_test m (fun m' => negb (is_mapped l_pac m'))
                      then 8 else 0) in
  let copy_mate :=
    mate_test m (fun m' => negb (is_mapped l_pac p) && is_mapped l_pac m') in
  let p := match m with
           | Some m' =>
               if copy_mate then
                 {| h_rb := h_rb m'; h_re := h_re m'; h_qb := 0; h_qe := l_seq;
                    h_flag := h_flag p; h_qual := h_qual p; h_score := h_score p;
                    h_sub := h_sub p |}
               else p
           | None => p
           end in
  let p := or_flag p (if h_rb p >=? l_pac then 16 else 0) in
  let p := or_flag p (if mate_test m (fun m' => h_rb m' >=? l_pac) then 32 else 0) in
  (p, copy_mate).

(** The CIGAR column. *)
Definition hit2sam_clip (is_hard clip : Z) : list kstring_op :=
  if negb (clip =? 0)
  then [Kputw clip; Kputc (lit_at "SH" (if negb (is_hard =? 0) then 1 else 0))]
  else [].

Definition hit2sam_cigar (is_rev is_hard l_seq : Z) (p : bwahit_t)
    (n_cigar : Z) (cigar : list Z) : list kstring_op :=
  if negb (n_cigar =? 0) then
    let clip5 := if negb (is_rev =? 0) then l_seq - h_qe p else h_qb p in
    let clip3 := if negb (is_rev =? 0) then h_qb p else l_seq - h_qe p in
    hit2sam_clip is_hard clip5
    ++ concat (map (fun c => [Kputw (Z.shiftr c 4);
                              Kputc (lit_at "MIDSH" (Z.land c 15))])
                   (take (Z.to_nat n_cigar) cigar))
    ++ hit2sam_clip is_hard clip3
  else [Kputc "*"%char].

(** The columns SEQ and QUAL on the forward strand,
    [for (i = qb; i < qe; ++i)], and on the reverse strand,
    [for (i = qe-1; i >= qb; --i)]. *)
Definition hit2sam_seq_forward (qb qe : Z) (seq : list Z) (qual : option (list ascii))
    : list kstring_op :=
  [Ks_resize (qe - qb + 1)]
  ++ map (fun i => Store (lit_at "ACGTN" (nth (Z.to_nat i) seq 0))) (seqZ qb (qe - qb))
  ++ [Kputc TAB]
  ++ match qual with
     | Some ql =>
         [Ks_resize (qe - qb + 1)]
         ++ map (fun i => Store (nth (Z.to_nat i) ql zero)) (seqZ qb (qe - qb))
         ++ [Terminate]
     | None => [Kputc "*"%char]
     end.

Definition hit2sam_seq_reverse (qb qe : Z) (seq : list Z) (qual : option (list ascii))
    : list kstring_op :=
  [Ks_resize (qe - qb + 1)]
  ++ map (fun i => Store (lit_at "TGCAN" (nth (Z.to_nat i) seq 0)))
         (reverse (seqZ qb (qe - qb)))
  ++ [Kputc TAB]
  ++ match qual with
     | Some ql =>
         [Ks_resize (qe - qb + 1)]
         ++ map (fun i => Store (nth (Z.to_nat i) ql zero)) (reverse (seqZ qb (qe - qb)))
         ++ [Terminate]
     | None => [Kputc "*"%char]
     end.

Definition hit2sam_seq (p : bwahit_t) (is_hard l_seq : Z) (seq : list Z)
    (qual : option (list ascii)) : list kstring_op :=
  let clipped := (Z.land (h_flag p) 4 =? 0) && negb (is_hard =? 0) in
  let qb := if clipped then h_qb p else 0 in
  let qe := if clipped then h_qe p else l_seq in
  if Z.land (h_flag p) 16 =? 0 then hit2sam_seq_forward qb qe seq qual
  else hit2sam_seq_reverse qb qe seq qual.

(** The tags and the end of the line. *)
Definition hit2sam_tags (p : bwahit_t) : list kstring_op :=
  (if h_score p >=? 0 then [Kputsn (TAB :: lit "AS:i:") 6; Kputw (h_score p)] else [])
  ++ (if h_sub p >=? 0 then [Kputsn (TAB :: lit "XS:i:") 6; Kputw (h_sub p)] else [])
  ++ [Kputc NL].

Section Hit2Sam.
(** The collaborators of [bntseq.h] and [ksw.h]: [bns_get_seq] and
    [ksw_global] as for [bwa_gen_cigar]; [bns_depos pos] returns the
    position on the forward strand and [*is_rev]; [bns_cnt_ambi pos len]
    returns the number of ambiguous bases and [*rid];
    [ann_name rid] and [ann_offset rid] are [bns->anns[rid].name] and
    [bns->anns[rid].offset]. *)
Variable bns_get_seq : Z -> list Z -> Z -> Z -> list Z * Z.
Variable ksw_global :
  Z -> list Z -> Z -> list Z -> Z -> list Z -> Z -> Z -> Z -> Z * Z * list Z.
Variable bns_depos : Z -> Z * Z.
Variable bns_cnt_ambi : Z -> Z -> Z * Z.
Variable ann_name : Z -> list ascii.
Variable ann_offset : Z -> Z.

(** What the branch [if (is_mapped(p))] leaves: the hit, [n_cigar], the
    CIGAR and the bases of the read after the call of [bwa_gen_cigar]. *)
Definition hit2sam_align (mat : list Z) (q r w l_pac : Z) (pac : list Z)
    (seq : list Z) (p : bwahit_t) (copy_mate : bool)
    : bwahit_t * Z * list Z * list Z :=
  if negb copy_mate then
    let out := bwa_gen_cigar bns_get_seq ksw_global mat q r w l_pac pac
                             (h_qe p - h_qb p) (drop (Z.to_nat (h_qb p)) seq)
                             (h_rb p) (h_re p) in
    (or_flag p (if gc_n_cigar out =? 0 then 4 else 0), gc_n_cigar out,
     default [] (gc_cigar out), take (Z.to_nat (h_qb p)) seq ++ gc_query out)
  else (p, 0, [], seq).

(** The columns FLAG to CIGAR of a hit with a coordinate, and [rid]. *)
Definition hit2sam_coordinate (l_pac is_hard l_seq : Z) (p : bwahit_t)
    (n_cigar : Z) (cigar : list Z) : list kstring_op * Z :=
  let dp := bns_depos (if h_rb p <? l_pac then h_rb p else h_re p - 1) in
  let pos := fst dp in
  let is_rev := snd dp in
  let rid := snd (bns_cnt_ambi pos (h_re p - h_rb p)) in
  ([Kputw (h_flag p); Kputc TAB; Kputs (ann_name rid); Kputc TAB;
    Kputuw (pos - ann_offset rid + 1); Kputc TAB; Kputw (h_qual p); Kputc TAB]
   ++ hit2sam_cigar is_rev is_hard l_seq p n_cigar cigar, rid).

(** The columns RNEXT, PNEXT and TLEN. *)
Definition hit2sam_mate (l_pac : Z) (p : bwahit_t) (rid : Z) (m : option bwahit_t)
    : list kstring_op :=
  match m with
  | Some m' =>
      if is_mapped l_pac m' then
        let pos := fst (bns_depos (if h_rb m' <? l_pac then h_rb m'
                                   else h_re m' - 1)) in
        let mid := snd (bns_cnt_ambi pos (h_re m' - h_rb m')) in
        [Kputc TAB]
        ++ (if mid =? rid then [Kputc "="%char] else [Kputs (ann_name mid)])
        ++ [Kputc TAB; Kputuw (pos - ann_offset mid + 1); Kputc TAB]
        ++ (if mid =? rid then
              let p0 := if h_rb p <? l_pac then h_rb p
                        else Z.shiftl l_pac 1 - 1 - h_rb p in
              let p1 := if h_rb m' <? l_pac then h_rb m'
                        else Z.shiftl l_pac 1 - 1 - h_rb m' in
              [Kputw (p0 - p1)]
            else [Kputw 0])
        ++ [Kputc TAB]
      else [Kputsn sam_no_mate 7]
  | None => [Kputsn sam_no_mate 7]
  end.

(** [bwa_hit2sam]: what is appended to [str], and the bases of the read
    when it returns. *)
Definition bwa_hit2sam (mat : list Z) (q r w l_pac : Z) (pac : list Z)
    (s : bseq1_t) (p_ : option bwahit_t) (is_hard : Z) (m : option bwahit_t)
    : list kstring_op * list Z :=
  let hc := hit2sam_hit l_pac (s_l_seq s) p_ m in
  if is_mapped l_pac (fst hc) then
    let al := hit2sam_align mat q r w l_pac pac (s_seq s) (fst hc) (snd hc) in
    let p := fst (fst (fst al)) in
    let seq := snd al in
    let co := hit2sam_coordinate l_pac is_hard (s_l_seq s) p
                                 (snd (fst (fst al))) (snd (fst al)) in
    ([Kputs (s_name s); Kputc TAB] ++ fst co
     ++ hit2sam_mate l_pac p (snd co) m
     ++ hit2sam_seq p is_hard (s_l_seq s) seq (s_qual s)
     ++ hit2sam_tags p, seq)
  else
    let p := fst hc in
    ([Kputs (s_name s); Kputc TAB]
     ++ [Kputw (h_flag p); Kputs sam_no_coordinate]
     ++ hit2sam_mate l_pac p (-1) m
     ++ hit2sam_seq p is_hard (s_l_seq s) (s_seq s) (s_qual s)
     ++ hit2sam_tags p, s_seq s).
End Hit2Sam.

(** ** Integrated interface *)

(** [mem_alnreg2hit]. *)
Definition mem_alnreg2hit (a : mem_alnreg_t) : bwahit_t :=
  {| h_rb := rb a; h_re := re a; h_qb := qb a; h_qe := qe a;
     h_flag := if secondary a >=? 0 then 256 else 0;
     h_qual := 0;
     h_score := score a;
     h_sub := if sub a >? csub a then sub a else csub a |}.

Section SamSe.
Variable bns_get_seq : Z -> list Z -> Z -> Z -> list Z * Z.
Variable ksw_global :
  Z -> list Z -> Z -> list Z -> Z -> list Z -> Z -> Z -> Z -> Z * Z * list Z.
Variable bns_depos : Z -> Z * Z.
Variable bns_cnt_ambi : Z -> Z -> Z * Z.
Variable ann_name : Z -> list ascii.
Variable ann_offset : Z -> Z.
Variable mapq_margin : Z -> Z -> Z -> Z.
Variable identity_low : mem_opt_t -> Z -> Z -> bool.
Variable mapq_identity : mem_opt_t -> Z -> Z -> Z -> Z.
Variable mapq_ties : Z -> Z.
(** [MEM_F_HARDCLIP] is declared in [bwamem.h]. *)
Variable MEM_F_HARDCLIP : Z.

Definition with_seq (s : bseq1_t) (seq : list Z) : bseq1_t :=
  {| s_l_seq := s_l_seq s; s_name := s_name s; s_seq := seq; s_qual := s_qual s |}.

(** One turn of the loop of [mem_sam_se]; the state is what has been
    appended to [str] and the bases of the read. *)
Definition sam_se_step (opt : mem_opt_t) (l_pac : Z) (pac : list Z) (s : bseq1_t)
    (extra_flag : Z) (m : option bwahit_t)
    (st : list kstring_op * list Z) (ak : mem_alnreg_t) : list kstring_op * list Z :=
  if secondary ak >=? 0 then st
  else
    let h := mem_alnreg2hit ak in
    let h := or_flag h extra_flag in
    let h := set_qual h (mem_approx_mapq_se mapq_margin identity_low mapq_identity
                                            mapq_ties opt ak) in
    let r := bwa_hit2sam bns_get_seq ksw_global bns_depos bns_cnt_ambi ann_name
                         ann_offset (o_mat opt) (o_q opt) (o_r opt) (o_w opt)
                         l_pac pac (with_seq s (snd st)) (Some h)
                         (Z.land (o_flag opt) MEM_F_HARDCLIP) m in
    (fst st ++ fst r, snd r).

(** [mem_sam_se]: what [str] has been given when its buffer becomes
    [s->sam], and the bases of the read.  Nothing has been appended
    exactly when [s->sam] is left a null pointer. *)
Definition mem_sam_se (opt : mem_opt_t) (l_pac : Z) (pac : list Z) (s : bseq1_t)
    (a : list mem_alnreg_t) (extra_flag : Z) (m : option bwahit_t)
    : list kstring_op * list Z :=
  if (0 <? length a)%nat then
    foldl (sam_se_step opt l_pac pac s extra_flag m) ([], s_seq s) a
  else
    bwa_hit2sam bns_get_seq ksw_global bns_depos bns_cnt_ambi ann_name ann_offset
                (o_mat opt) (o_q opt) (o_r opt) (o_w opt) l_pac pac s None
                (Z.land (o_flag opt) MEM_F_HARDCLIP) m.

(** One turn of the single-end loop of [worker2]. *)
Definition worker2_se_read (fc : float_cmp) (opt : mem_opt_t) (l_pac : Z) (pac : list Z)
    (s : bseq1_t) (regs : list mem_alnreg_t) : list kstring_op * list Z :=
  mem_sam_se opt l_pac pac s (mem_mark_primary_se fc opt regs) 0 None.
End SamSe.

Section FindAlnreg.
(** The collaborators: the FM-index, the two sorts of [ksort.h], the
    reference and the extension kernel; [nst_nt4_table] is declared in
    [bntseq.h]. *)
Variable bwt_smem1 : Z -> list Z -> Z -> Z -> Z -> Z * list bwtintv_t.
Variable bwt_sa : Z -> Z.
Variable ks_introsort_mem_flt : list flt_aux_t -> list flt_aux_t.
Variable ks_introsort_mem_ars : list mem_alnreg_t -> list mem_alnreg_t.
Variable bns_get_seq : Z -> list Z -> Z -> Z -> list Z * Z.
Variable ksw_extend :
  Z -> list Z -> Z -> list Z -> Z -> list Z -> Z -> Z -> Z -> Z -> Z * Z * Z.
Variable nst_nt4_table : Z -> Z.

(** [for (i = 0; i < s->l_seq; ++i) s->seq[i] = nst_nt4_table[(int)s->seq[i]]]. *)
Definition nt4_encode (l_seq : Z) (seq : list Z) : list Z :=
  map nst_nt4_table (take (Z.to_nat l_seq) seq) ++ drop (Z.to_nat l_seq) seq.

(** [find_alnreg]: the regions that are returned and the bases of the
    read; [None] when the fuel does not take [mem_chain] to its end.
    [mem_print_chain], called under [mem_verbose >= 4], only prints and
    is left out. *)
Definition find_alnreg (fuel : nat)
    (fc : float_cmp) (opt : mem_opt_t) (l_pac : Z) (pac : list Z)
    (s : bseq1_t) : option (list mem_alnreg_t * list Z) :=
  let seq := nt4_encode (s_l_seq s) (s_seq s) in
  match mem_chain bwt_smem1 bwt_sa fuel opt (s_l_seq s) seq with
  | None => None
  | Some (chn, _) =>
      let out := mem_chain_flt ks_introsort_mem_flt fc opt chn in
      let chn := take (flt_n out) (flt_chains out) in
      let regs := concat (map (mem_chain2aln bns_get_seq ksw_extend opt l_pac pac
                                             (s_l_seq s) seq) chn) in
      let r := mem_sort_and_dedup ks_introsort_mem_ars regs in
      Some (take (fst r) (snd r), seq)
  end.
End FindAlnreg.

(** ** The batch driver *)

(** [for (i = i0; i < n; i += step)]: the values of [i] at which the body
    runs, at most [fuel] of them. *)
Fixpoint strided (fuel : nat) (i n step : Z) : list Z :=
  match fuel with
  | O => []
  | S fuel' => if i <? n then i :: strided fuel' (i + step) n step else []
  end.

(** The fields of [worker_t] that steer the two loops. *)
Record worker_t := { w_start : Z; w_step : Z; w_n : Z }.

(** [worker1]: the indices [i] of the reads handed to [find_alnreg].  With
    [0 <= start] and [1 <= step] the loop is left within [n] turns. *)
Definition worker1 (w : worker_t) : list Z :=
  strided (Z.to_nat (w_n w)) (w_start w) (w_n w) (w_step w).

(** [worker2]: the indices of the reads handed to [mem_sam_se], or, when
    [opt->flag & MEM_F_PE] is set, of the reads of the pairs handed to
    [mem_sam_pe].  [MEM_F_PE] is declared in [bwamem.h] and is a
    parameter. *)
Definition worker2 (MEM_F_PE : Z) (opt : mem_opt_t) (w : worker_t) : list Z :=
  if Z.land (o_flag opt) MEM_F_PE =? 0 then
    strided (Z.to_nat (w_n w)) 0 (w_n w) (w_step w)
  else
    concat (map (fun i => [Z.shiftl i 1; Z.lor (Z.shiftl i 1) 1])
                (strided (Z.to_nat (w_n w)) 0 (Z.shiftr (w_n w) 1) (w_step w))).

(** The workers set up by [mem_process_seqs] for a batch of [n] reads. *)
Definition mem_process_seqs_workers (opt : mem_opt_t) (n : Z) : list worker_t :=
  map (fun i => {| w_start := i; w_step := o_n_threads opt; w_n := n |})
      (seqZ 0 (o_n_threads opt)).

(** ** The properties as the specification words them *)

(** The number of positions covered by the union of the intervals
    [[b, b + l)] of a list of (start, length) pairs. *)
Definition covered (ivs : list (Z * Z)) (x : Z) : bool :=
  existsb (fun iv => (fst iv <=? x) && (x <? fst iv + snd iv)) ivs.

Definition union_size (ivs : list (Z * Z)) : Z :=
  let lo := foldr Z.min 0 (map fst ivs) in
  let hi := foldr Z.max 0 (map (fun iv => fst iv + snd iv) ivs) in
  Z.of_nat (length (List.filter (covered ivs) (seqZ lo (hi - lo)))).

(** "[w_q] = total query positions covered by the union of its seeds",
    "[w_r] = same but projected on the reference axis",
    "[weight = min(w_q, w_r)]". *)
Definition weight_spec (c : mem_chain_t) : Z :=
  Z.min (union_size (map (fun s => (qbeg s, len s)) (chn_seeds c)))
        (union_size (map (fun s => (rbeg s, len s)) (chn_seeds c))).

(** "w = min(w_opt, max(1, floor((l_query*match - q)/r) + 1)) +
    |rlen - l_query|". *)
Definition band_spec (w_opt mat0 q r l_query rlen : Z) : Z :=
  Z.min w_opt (Z.max 1 ((l_query * mat0 - q) / r + 1)) + Z.abs (rlen - l_query).

(** "thread k handles indices start=k, step=n_threads": the indices
    [k, k + n_threads, k + 2 n_threads, ...] below [n]. *)
Definition round_robin (k n_threads n : Z) : list Z :=
  filter (fun i => i mod n_threads = k) (seqZ 0 n).


(** The order of the seeds by their query start. *)
Definition by_qbeg (s t : mem_seed_t) : Prop := qbeg s <= qbeg t.





(** The state of the outer loop of [mem_mark_primary_se] before the turn
    [i], read off the [secondary] fields [sec] and the vector [z]: the
    elements of [z] are earlier primaries, every region is a primary or
    points to an earlier element of [z], the regions from [i] on are
    still primaries, and region 0 is in [z]. *)
Definition primary_inv (sec : list Z) (z : list nat) (i : nat) : Prop :=
  (forall j, j ∈ z -> (j < i)%nat /\ sec !! j = Some (-1))
  /\ (forall k v, sec !! k = Some v ->
        v = -1 \/ exists j, v = Z.of_nat j /\ (j < k)%nat /\ j ∈ z)
  /\ (forall k, (i <= k)%nat -> (k < length sec)%nat -> sec !! k = Some (-1))
  /\ 0%nat ∈ z.

(** The order of the sort as a relation: [x] may stand before [y] when
    [alnreg_slt y x] fails; the regions are then in the order
    "score descending, ties broken by rb ascending then qb ascending". *)
Definition alnreg_le (x y : mem_alnreg_t) : Prop := alnreg_slt y x = false.

(** The marks of [dedup_mark] on the regions behind [prev], as a
    recursion on the list. *)
Fixpoint dedup_mark_list (prev : mem_alnreg_t) (l : list mem_alnreg_t)
    : list mem_alnreg_t :=
  match l with
  | [] => []
  | x :: l' =>
      let x' := if same_hit x prev then set_qe x (qb x) else x in
      x' :: dedup_mark_list x' l'
  end.

(** "No two surviving regions share [(score, rb, qb)]", and the order of
    the sort, on the regions [l]. *)
Definition all_distinct (l : list mem_alnreg_t) : Prop :=
  forall (i j : nat) (x y : mem_alnreg_t),
    (i < j)%nat -> l !! i = Some x -> l !! j = Some y ->
    (score x, rb x, qb x) <> (score y, rb y, qb y).

Definition all_ordered (l : list mem_alnreg_t) : Prop :=
  forall (i j : nat) (x y : mem_alnreg_t),
    (i < j)%nat -> l !! i = Some x -> l !! j = Some y ->
    score x > score y
    \/ (score x = score y /\ (rb x < rb y \/ (rb x = rb y /\ qb x <= qb y))).

(** The chain filter as the specification words it: "iterate chains in
    weight order; keep a growing accepted list"; a candidate is compared
    with the accepted chains in turn, a significant overlap records the
    candidate with the accepted chain, and the candidate is rejected at
    the first accepted chain that dominates it. *)
Fixpoint accept_scan
    (fc : float_cmp) (opt : mem_opt_t) (ai : flt_aux_t) (acc : list flt_aux_t)
    : list flt_aux_t * bool :=
  match acc with
  | [] => ([], false)
  | aj :: acc' =>
      if flt_overlap aj ai && flt_significant fc opt aj ai then
        if flt_drop fc opt aj ai then (flt_set_p2 aj (f_p ai) :: acc', true)
        else
          let '(r, rejected) := accept_scan fc opt ai acc' in
          (flt_set_p2 aj (f_p ai) :: r, rejected)
      else
        let '(r, rejected) := accept_scan fc opt ai acc' in (aj :: r, rejected)
  end.

Definition accept_step
    (fc : float_cmp) (opt : mem_opt_t) (acc : list flt_aux_t) (ai : flt_aux_t)
    : list flt_aux_t :=
  let '(acc', rejected) := accept_scan fc opt ai acc in
  if rejected then acc' else acc' ++ [ai].

(** The accepted entries, in the order in which they are accepted, each
    with the candidate recorded in its [f_p2]. *)
Definition accepted
    (fc : float_cmp) (opt : mem_opt_t) (a : list flt_aux_t) : list flt_aux_t :=
  match a with
  | [] => []
  | a0 :: candidates => foldl (accept_step fc opt) [a0] candidates
  end.

(** The chain at index [k] is accepted. *)
Definition is_accepted (acc : list flt_aux_t) (k : nat) : bool :=
  existsb (fun e => Nat.eqb (f_p e) k) acc.

(** The chain at index [k] is recorded with an accepted chain. *)
Definition is_recorded (acc : list flt_aux_t) (k : nat) : bool :=
  existsb (fun e => match f_p2 e with Some k' => Nat.eqb k' k | None => false end) acc.

(** The elements of [l] whose index, counted from [i], satisfies [keep]. *)
Fixpoint pick {A} (keep : nat -> bool) (i : nat) (l : list A) : list A :=
  match l with
  | [] => []
  | x :: l' => if keep i then x :: pick keep (S i) l' else pick keep (S i) l'
  end.

(** The order of the sort of the chain filter as a relation: [x] may
    stand before [y] when [flt_lt y x] fails, i.e. the weights descend. *)
Definition flt_le (x y : flt_aux_t) : Prop := flt_lt y x = false.

(** The chain at index [k] is kept: accepted, or recorded with an
    accepted chain. *)
Definition is_kept (acc : list flt_aux_t) (k : nat) : bool :=
  is_accepted acc k || is_recorded acc k.

(** The marks of [flt_mark] for one accepted entry. *)
Definition flt_mark_entry (chains : list mem_chain_t) (e : flt_aux_t)
    : list mem_chain_t :=
  let chains := flt_flip (f_p e) chains in
  match f_p2 e with
  | Some k => flt_flip k chains
  | None => chains
  end.

(** A chain with the sign of [chn_n] flipped, and what the loop that
    frees the discarded chains makes of a chain. *)
Definition chain_neg (c : mem_chain_t) : mem_chain_t :=
  {| chn_n := - chn_n c; chn_m := chn_m c; chn_pos := chn_pos c;
     chn_seeds := chn_seeds c |}.

Definition chain_freed (c : mem_chain_t) : mem_chain_t :=
  {| chn_n := 0; chn_m := 0; chn_pos := chn_pos c; chn_seeds := [] |}.

Definition flt_free_one (c : mem_chain_t) : mem_chain_t :=
  if chn_n c >=? 0 then chain_freed c else chain_neg c.

(** The array [chains] with the chains at the indices that satisfy
    [keep] marked by a negative [chn_n]. *)
Definition flt_marked (keep : nat -> bool) (chains : list mem_chain_t)
    : list mem_chain_t :=
  imap (fun k c => if keep k then chain_neg c else c) chains.

(** The indices, counted from [i], of the chains that the freeing loop
    hands to [free]. *)
Fixpoint free_indices (i : nat) (chains : list mem_chain_t) : list nat :=
  match chains with
  | [] => []
  | c :: chains' =>
      if chn_n c >=? 0 then i :: free_indices (S i) chains'
      else free_indices (S i) chains'
  end.

(** C4 as stated: the returned chains are "exactly the accepted chains
    ... in their accepted order", and "every rejected chain has its seed
    buffer freed". *)
Definition returns_accepted
    (ks_introsort_mem_flt : list flt_aux_t -> list flt_aux_t)
    (fc : float_cmp) (opt : mem_opt_t) (chains : list mem_chain_t) : Prop :=
  let out := mem_chain_flt ks_introsort_mem_flt fc opt chains in
  let acc := accepted fc opt (flt_sorted_aux ks_introsort_mem_flt chains) in
  take (flt_n out) (flt_chains out)
  = (fun e => nth (f_p e) (flt_reorder ks_introsort_mem_flt chains) chain0) <$> acc
  /\ (forall k, (k < length chains)%nat -> is_accepted acc k = false ->
                k ∈ flt_freed out).

(** ** Predicates for the further properties *)

(** A query to the index that starts a match inside the read, at a base
    that is not ambiguous. *)
Definition query_in_read (l : Z) (query : list Z) (q : fm_query) : Prop :=
  match q with
  | FmSmem1 s => 0 <= s < l /\ nth (Z.to_nat s) query 0 <= 3
  | FmSa _ => True
  end.

(** What [test_and_merge] has checked of two consecutive seeds [s] and
    [t] of a chain. *)
Definition merge_tests (opt : mem_opt_t) (s t : mem_seed_t) : Prop :=
  let x := qbeg t - qbeg s in
  let y := rbeg t - rbeg s in
  0 <= y /\ x - y <= o_w opt /\ y - x <= o_w opt
  /\ x - len s < o_max_chain_gap opt /\ y - len s < o_max_chain_gap opt.

(** A chain as [mem_insert_seed] keeps it: [chn_n] counts the seeds, of
    which there is at least one, the anchor [chn_pos] is the reference
    start of the first seed, and two consecutive seeds have passed the
    tests of [test_and_merge]. *)
Definition chain_shape (opt : mem_opt_t) (c : mem_chain_t) : Prop :=
  chn_n c = Z.of_nat (length (chn_seeds c)) /\ 0 < chn_n c
  /\ chn_pos c = rbeg (nth 0 (chn_seeds c) seed0)
  /\ (forall (i : nat) (s t : mem_seed_t),
        chn_seeds c !! i = Some s -> chn_seeds c !! S i = Some t ->
        merge_tests opt s t).

(** The seed buffer of a chain has room for its seeds: the capacity is
    4 doubled some times and at least the number of seeds in use. *)
Definition chain_capacity (c : mem_chain_t) : Prop :=
  chn_n c <= chn_m c /\ exists k : nat, chn_m c = 4 * 2 ^ Z.of_nat k.

(** The start and the end of a region on the query, which is all that
    the overlap tests of [mem_mark_primary_se] read. *)
Definition span (x : mem_alnreg_t) : Z * Z := (qb x, qe x).

(** The two tests of the inner loop of [mem_mark_primary_se] together:
    the region [aj] overlaps the region [ai] significantly. *)
Definition primary_dominates
    (fc : float_cmp) (opt : mem_opt_t) (aj ai : mem_alnreg_t) : bool :=
  primary_overlap aj ai && primary_significant fc opt aj ai.

(** The fields of a region that [mem_mark_primary_se] does not write. *)
Definition region_core (x : mem_alnreg_t) : Z * Z * Z * Z * Z * Z * Z :=
  (rb x, re x, qb x, qe x, score x, csub x, seedcov x).

(** The key of the sort. *)
Definition region_key (x : mem_alnreg_t) : Z * Z * Z := (score x, rb x, qb x).

(** No region before index [bound] that is a primary overlaps the region
    [x] significantly. *)
Definition primary_first (fc : float_cmp) (opt : mem_opt_t) (a : list mem_alnreg_t)
    (x : mem_alnreg_t) (bound : nat) : Prop :=
  forall j y, (j < bound)%nat -> a !! j = Some y -> secondary y = -1 ->
    primary_dominates fc opt y x = false.

(** What the marks of [mem_mark_primary_se] mean: a primary is overlapped
    significantly by no primary before it; a secondary points to the
    first primary, an earlier one, that overlaps it significantly. *)
Definition primary_marks
    (fc : float_cmp) (opt : mem_opt_t) (a : list mem_alnreg_t) : Prop :=
  forall i x, a !! i = Some x ->
    (secondary x = -1 /\ primary_first fc opt a x i)
    \/ (exists j y, secondary x = Z.of_nat j /\ (j < i)%nat
          /\ a !! j = Some y /\ secondary y = -1
          /\ primary_dominates fc opt y x = true /\ primary_first fc opt a x j).

(** The same for the regions before [i] in the outer loop, over an array
    [sp] that has the query spans of the regions, the list [sec] of the
    [secondary] fields and the vector [z]. *)
Definition span_dominates (fc : float_cmp) (opt : mem_opt_t) (sp : list mem_alnreg_t)
    (j k : nat) : bool :=
  match sp !! j, sp !! k with
  | Some y, Some x => primary_dominates fc opt y x
  | _, _ => false
  end.

Definition primary_marks_inv (fc : float_cmp) (opt : mem_opt_t) (sp : list mem_alnreg_t)
    (sec : list Z) (z : list nat) (i : nat) : Prop :=
  StronglySorted lt z
  /\ (forall j, j ∈ z <-> (j < i)%nat /\ sec !! j = Some (-1))
  /\ (forall k, (k < i)%nat -> sec !! k = Some (-1) ->
        forall j, (j < k)%nat -> sec !! j = Some (-1) ->
          span_dominates fc opt sp j k = false)
  /\ (forall k v, (k < i)%nat -> sec !! k = Some v -> v <> -1 ->
        exists j, v = Z.of_nat j /\ (j < k)%nat /\ sec !! j = Some (-1)
          /\ span_dominates fc opt sp j k = true
          /\ forall j', (j' < j)%nat -> sec !! j' = Some (-1) ->
               span_dominates fc opt sp j' k = false)
  /\ (forall k, (i <= k)%nat -> (k < length sec)%nat -> sec !! k = Some (-1)).

(** [ksw_extend] of [ksw.h] is not part of the source; what the end
    points [*qle] and [*tle] that it reports are taken to be: lengths
    within the query and the target that it is given. *)
Definition ksw_extend_bounds
    (ksw_extend : Z -> list Z -> Z -> list Z -> Z -> list Z -> Z -> Z -> Z -> Z
                  -> Z * Z * Z) : Prop :=
  forall qlen query tlen target m mat q r w h0,
    0 <= qlen -> 0 <= tlen ->
    let res := ksw_extend qlen query tlen target m mat q r w h0 in
    0 <= snd (fst res) <= qlen /\ 0 <= snd res <= tlen.

(** The seed [s] lies inside the query of length [l_query]. *)
Definition seed_in_query (l_query : Z) (s : mem_seed_t) : Prop :=
  0 <= qbeg s /\ 0 <= len s /\ qbeg s + len s <= l_query.

(** The region [a] lies inside the query and the window [[rmax0, rmax1)]
    of the reference and contains the seed [s]. *)
Definition region_around (l_query rmax0 rmax1 : Z) (s : mem_seed_t)
    (a : mem_alnreg_t) : Prop :=
  0 <= qb a <= qbeg s /\ qbeg s + len s <= qe a <= l_query
  /\ rmax0 <= rb a <= rbeg s /\ rbeg s + len s <= re a <= rmax1.

(** The number of tabulators that an operation on the string appends;
    the decimal digits of [kputw] and [kputuw] have none. *)
Definition count_tabs (s : list ascii) : nat :=
  length (filter (fun c => c = TAB) s).

Definition op_tabs (o : kstring_op) : nat :=
  match o with
  | Kputs s => count_tabs s
  | Kputsn s l => count_tabs (take (Z.to_nat l) s)
  | Kputc c => count_tabs [c]
  | Store c => count_tabs [c]
  | _ => 0%nat
  end.

Fixpoint sam_tabs (ops : list kstring_op) : nat :=
  match ops with
  | [] => 0%nat
  | o :: ops' => (op_tabs o + sam_tabs ops')%nat
  end.

(** The operation ends a line: [kputc('\n', str)]. *)
Definition is_eol (o : kstring_op) : bool :=
  match o with
  | Kputc c => Ascii.eqb c NL
  | _ => false
  end.

Definition sam_records (ops : list kstring_op) : nat :=
  length (filter (fun o => is_eol o = true) ops).

(** The characters that the direct writes store. *)
Definition stores (ops : list kstring_op) : list ascii :=
  omap (fun o => match o with Store c => Some c | _ => None end) ops.

(** The complement of a base. *)
Definition complement (c : ascii) : ascii :=
  if Ascii.eqb c "A" then "T"%char
  else if Ascii.eqb c "C" then "G"%char
  else if Ascii.eqb c "G" then "C"%char
  else if Ascii.eqb c "T" then "A"%char
  else c.

(** The record of a read without a hit and without a mate. *)
Definition sam_unmapped (s : bseq1_t) : list kstring_op :=
  [Kputs (s_name s); Kputc TAB; Kputw 4; Kputs sam_no_coordinate;
   Kputsn sam_no_mate 7]
  ++ hit2sam_seq_forward 0 (s_l_seq s) (s_seq s) (s_qual s)
  ++ [Kputsn (TAB :: lit "AS:i:") 6; Kputw 0;
      Kputsn (TAB :: lit "XS:i:") 6; Kputw 0; Kputc NL].

(** The score and the suboptimal score that the tags of a record show. *)
Definition hit_score (p_ : option bwahit_t) : Z :=
  match p_ with Some p => h_score p | None => 0 end.

Definition hit_sub (p_ : option bwahit_t) : Z :=
  match p_ with Some p => h_sub p | None => 0 end.

(** No tabulator in the names and in the base qualities of a read. *)
Definition no_tab (s : list ascii) : Prop := count_tabs s = 0%nat.

Definition no_tab_qual (qual : option (list ascii)) : Prop :=
  match qual with Some ql => Forall (fun c => c <> TAB) ql | None => True end.

(** * Concrete inputs *)

(** The comparisons without rounding.  For the options 0.5 of
    [mem_opt_init] and operands below 2^24 the conversions and the
    product are exact in the machine, so that these are the comparisons
    of the source on the inputs below. *)
Definition exact_float : float_cmp :=
  {| ge_mul d n x := Qle_bool (inject_Z n * x) (inject_Z d);
     lt_mul d n x := negb (Qle_bool (inject_Z n * x) (inject_Z d)) |}.

(** A reference-slice collaborator that returns [e - b] zero bases, and an
    alignment kernel that reports the band width it was called with as its
    score. *)
Definition zero_seq (l_pac : Z) (pac : list Z) (b e : Z) : list Z * Z :=
  (replicate (Z.to_nat (e - b)) 0, e - b).

Definition band_probe (qlen : Z) (query : list Z) (tlen : Z) (target : list Z)
    (m : Z) (mat : list Z) (q r w : Z) : Z * Z * list Z :=
  (w, 1, [Z.shiftl qlen 4]).

(** A region whose suboptimal score reaches its score. *)
Definition region_tied : mem_alnreg_t :=
  {| rb := 1000; re := 1050; qb := 0; qe := 50; score := 40; sub := 40; csub := 0;
     sub_n := 1; seedcov := 30; secondary := -1 |}.

(** The default options with two worker threads. *)
Definition opt_two_threads : mem_opt_t :=
  {| o_a := 1; o_b := 4; o_q := 6; o_r := 1; o_w := 100; o_flag := 0;
     o_min_seed_len := 19; o_max_seed_len := 32; o_min_intv := 10;
     o_max_occ := 10000; o_max_chain_gap := 10000;
     o_mask_level := (1 # 2)%Q; o_chain_drop_ratio := (1 # 2)%Q;
     o_n_threads := 2; o_mat := mem_fill_scmat 1 4 |}.

(** A chain of two seeds that are disjoint on the query and overlap on
    the reference: it passes the tests of [test_and_merge]. *)
Definition chain_ref_overlap : mem_chain_t :=
  {| chn_n := 2; chn_m := 4; chn_pos := 100;
     chn_seeds := [ {| rbeg := 100; qbeg := 0; len := 20 |};
                    {| rbeg := 110; qbeg := 30; len := 20 |} ] |}.

(** A toy FM-index: from the cursor [start] it reports one match of 20
    bases, [[start, start + 20)], which occurs once, at the suffix-array
    position [start]; the suffix array maps [k] to [1000 + k]. *)
Definition toy_smem1 (l : Z) (query : list Z) (start max_len min_intv : Z)
    : Z * list bwtintv_t :=
  (start + 20,
   [ {| x0 := start; x1 := 0; x2 := 1;
        info := Z.lor (Z.shiftl start 32) (start + 20) |} ]).

Definition toy_sa (k : Z) : Z := 1000 + k.



(** The chain that the toy index yields on a query of 40 bases. *)
Definition toy_chain_40 : mem_chain_t :=
  {| chn_n := 2; chn_m := 4; chn_pos := 1000;
     chn_seeds := [ {| rbeg := 1000; qbeg := 0; len := 20 |};
                    {| rbeg := 1020; qbeg := 20; len := 20 |} ] |}.

(** Four regions in the order of [mem_sort_and_dedup]: the second shares
    the query span of the first, the fourth most of the span of the
    third. *)
Definition regions_4 : list mem_alnreg_t :=
  [ {| rb := 100; re := 150; qb := 0; qe := 50; score := 50; sub := 7; csub := 0;
       sub_n := 0; seedcov := 50; secondary := 5 |};
    {| rb := 900; re := 950; qb := 0; qe := 50; score := 46; sub := 7; csub := 0;
       sub_n := 0; seedcov := 30; secondary := 5 |};
    {| rb := 500; re := 530; qb := 60; qe := 90; score := 30; sub := 7; csub := 0;
       sub_n := 0; seedcov := 30; secondary := 5 |};
    {| rb := 700; re := 740; qb := 55; qe := 95; score := 20; sub := 7; csub := 0;
       sub_n := 0; seedcov := 20; secondary := 5 |} ].

(** A sort by [alnreg_slt] to run [mem_sort_and_dedup] with: the merge
    sort of stdpp. *)
Definition sort_mem_ars : list mem_alnreg_t -> list mem_alnreg_t :=
  @merge_sort _ alnreg_le (fun x y => decide (alnreg_slt y x = false)).

(** Five regions, unsorted: the second and the fourth share
    [(score, rb, qb)], the fifth has an empty query span. *)
Definition regions_dup : list mem_alnreg_t :=
  [ {| rb := 500; re := 530; qb := 60; qe := 90; score := 30; sub := 0; csub := 0;
       sub_n := 0; seedcov := 30; secondary := 0 |};
    {| rb := 100; re := 150; qb := 0; qe := 50; score := 50; sub := 0; csub := 0;
       sub_n := 0; seedcov := 50; secondary := 0 |};
    {| rb := 900; re := 950; qb := 0; qe := 50; score := 46; sub := 0; csub := 0;
       sub_n := 0; seedcov := 30; secondary := 0 |};
    {| rb := 100; re := 148; qb := 0; qe := 48; score := 50; sub := 0; csub := 0;
       sub_n := 0; seedcov := 40; secondary := 0 |};
    {| rb := 700; re := 700; qb := 20; qe := 20; score := 40; sub := 0; csub := 0;
       sub_n := 0; seedcov := 0; secondary := 0 |} ].

(** A sort by [flt_lt] to run [mem_chain_flt] with: the merge sort of
    stdpp. *)
Definition sort_mem_flt : list flt_aux_t -> list flt_aux_t :=
  @merge_sort _ flt_le (fun x y => decide (flt_lt y x = false)).

(** Two chains of one seed each on the same stretch of the query: the
    second, of weight 20, is dominated by the first, of weight 100. *)
Definition chains_dominated : list mem_chain_t :=
  [ {| chn_n := 1; chn_m := 4; chn_pos := 1000;
       chn_seeds := [ {| rbeg := 1000; qbeg := 0; len := 100 |} ] |};
    {| chn_n := 1; chn_m := 4; chn_pos := 5000;
       chn_seeds := [ {| rbeg := 5000; qbeg := 0; len := 20 |} ] |} ].

(** Three chains: the third, of weight 19, overlaps the first on the
    query after the second and is dominated too. *)
Definition chains_dominated_3 : list mem_chain_t :=
  chains_dominated ++
  [ {| chn_n := 1; chn_m := 4; chn_pos := 7000;
       chn_seeds := [ {| rbeg := 7000; qbeg := 10; len := 19 |} ] |} ].

(** A read of 40 bases that begins with two ambiguous bases, and a read
    of 25 ambiguous bases. *)
Definition query_nn : list Z := [4; 4] ++ replicate 38 0.

Definition query_all_n : list Z := replicate 25 4.

(** A read that is not its own reversal. *)
Definition query_acgt : list Z := [0; 1; 2; 3; 0; 0; 1; 3].

(** An extension kernel that follows the diagonal to the end of the
    shorter sequence. *)
Definition extend_diagonal (qlen : Z) (query : list Z) (tlen : Z) (target : list Z)
    (m : Z) (mat : list Z) (q r w h0 : Z) : Z * Z * Z :=
  let d := Z.max 0 (Z.min qlen tlen) in (h0 + d, d, d).

(** A chain of two seeds of a read of 60 bases, and a chain of one seed
    that spans a read of 50 bases. *)
Definition chain_two_seeds : mem_chain_t :=
  {| chn_n := 2; chn_m := 4; chn_pos := 1000;
     chn_seeds := [ {| rbeg := 1000; qbeg := 5; len := 20 |};
                    {| rbeg := 1030; qbeg := 35; len := 20 |} ] |}.


(** A read of eight bases with its qualities, a hit of the read on the
    forward strand and the collaborators of [bntseq.h] for a reference
    of one sequence. *)
Definition read_acgt : bseq1_t :=
  {| s_l_seq := 8; s_name := lit "read1"; s_seq := query_acgt;
     s_qual := Some (lit "IIHHGGFF") |}.

Definition hit_forward : bwahit_t :=
  {| h_rb := 100; h_re := 108; h_qb := 0; h_qe := 8; h_flag := 0; h_qual := 60;
     h_score := 8; h_sub := 0 |}.

Definition hit_reverse : bwahit_t :=
  {| h_rb := 1100; h_re := 1106; h_qb := 2; h_qe := 8; h_flag := 0; h_qual := 60;
     h_score := 6; h_sub := -1 |}.

Definition depos_1000 (pos : Z) : Z * Z :=
  if pos <? 1000 then (pos, 0) else (1999 - pos, 1).

Definition cnt_ambi_none (pos len : Z) : Z * Z := (0, 0).

Definition ann_chr (rid : Z) : list ascii := lit "chr1".

Definition ann_zero (rid : Z) : Z := 0.

(** The codes of the bases [A], [C], [G] and [T]; every other character
    is the ambiguous base 4.  A read of eight characters. *)
Definition nt4_acgt (c : Z) : Z :=
  if c =? 65 then 0 else if c =? 67 then 1 else if c =? 71 then 2
  else if c =? 84 then 3 else 4.

Definition read_raw : bseq1_t :=
  {| s_l_seq := 8; s_name := lit "read1"; s_seq := [65; 67; 71; 84; 65; 65; 67; 84];
     s_qual := Some (lit "IIHHGGFF") |}.

(** * Properties *)

(** Case analysis on the integer comparisons of the goal and of the
    hypotheses. *)
Ltac zcases :=
  repeat match goal with
         | |- context [?x >? ?y] => rewrite (Z.gtb_ltb x y)
         | |- context [?x >=? ?y] => rewrite (Z.geb_leb x y)
         | H : context [?x >? ?y] |- _ => rewrite (Z.gtb_ltb x y) in H
         | H : context [?x >=? ?y] |- _ => rewrite (Z.geb_leb x y) in H
         | |- context [?x <? ?y] => destruct (Z.ltb_spec x y)
         | |- context [?x <=? ?y] => destruct (Z.leb_spec x y)
         | |- context [?x =? ?y] => destruct (Z.eqb_spec x y)
         | H : context [?x <? ?y] |- _ => destruct (Z.ltb_spec x y)
         | H : context [?x <=? ?y] |- _ => destruct (Z.leb_spec x y)
         | H : context [?x =? ?y] |- _ => destruct (Z.eqb_spec x y)
         end.

(** ** Sanity checks of the embedding *)

Example reverse_in_place_5 : reverse_in_place 5 [0; 1; 2; 3; 4; 9] = [4; 3; 2; 1; 0; 9].
Proof. reflexivity. Qed.

Example mem_fill_scmat_default :
  mem_fill_scmat 1 4 =
  [1; -4; -4; -4; 0;  -4; 1; -4; -4; 0;  -4; -4; 1; -4; 0;  -4; -4; -4; 1; 0;
   0; 0; 0; 0; 0].
Proof. reflexivity. Qed.

Example cal_max_gap_default : cal_max_gap mem_opt_init 50 = 45.
Proof. reflexivity. Qed.

(** ** [bwa_gen_cigar] *)

(** The band width is the smaller of [w_] and of [min(1, l)], where [l] is
    the gap bound, plus the length difference. *)
Lemma gen_cigar_band_eq mat0 q r w_ l_query rlen :
  gen_cigar_band mat0 q r w_ l_query rlen =
  Z.min w_ (Z.min 1 (int_of_ratio_plus1 (l_query * mat0 - q) r))
  + Z.abs (rlen - l_query).
Proof.
  unfold gen_cigar_band. cbv zeta. zcases; lia.
Qed.

(** The band width never exceeds one plus the length difference, whatever
    the configured band width is. *)
Lemma gen_cigar_band_le mat0 q r w_ l_query rlen :
  gen_cigar_band mat0 q r w_ l_query rlen <= 1 + Z.abs (rlen - l_query).
Proof. rewrite gen_cigar_band_eq. lia. Qed.

(** The sibling bound [cal_max_gap] is [max(1, l)]. *)
Lemma cal_max_gap_eq opt qlen :
  cal_max_gap opt qlen =
  Z.max 1 (int_of_ratio_plus1 (qlen * o_a opt - o_q opt) (o_r opt)).
Proof. unfold cal_max_gap. cbv zeta. zcases; lia. Qed.

(** C2: on a 50-base query against a 50-base window with the default
    scoring (match 1, gap open 6, gap extension 1, band width 100),
    [bwa_gen_cigar] calls the kernel with band width 1, whereas
    [min(w_opt, max(1, floor((l_query*match - q)/r) + 1)) + |rlen - l_query|]
    is 45. *)
Theorem bwa_gen_cigar_band_default :
  gc_score (bwa_gen_cigar zero_seq band_probe (o_mat mem_opt_init) 6 1 100 1000 []
                          50 (replicate 50 0) 100 150) = Some 1
  /\ band_spec 100 (nth 0 (o_mat mem_opt_init) 0) 6 1 50 50 = 45.
Proof. split; reflexivity. Qed.

(** C7: when [l_query <= 0], or [rb >= re], or the window straddles the
    strand boundary ([rb < l_pac < re]), [bwa_gen_cigar] returns the null
    pointer and leaves [*n_cigar] at 0, whatever the collaborators do. *)
Theorem bwa_gen_cigar_rejects
    (bns_get_seq : Z -> list Z -> Z -> Z -> list Z * Z)
    (ksw_global : Z -> list Z -> Z -> list Z -> Z -> list Z -> Z -> Z -> Z
                  -> Z * Z * list Z)
    (mat : list Z) (q r w_ l_pac : Z) (pac : list Z) (l_query : Z)
    (query : list Z) (rb re : Z) :
  l_query <= 0 \/ rb >= re \/ (rb < l_pac /\ l_pac < re) ->
  let out := bwa_gen_cigar bns_get_seq ksw_global mat q r w_ l_pac pac
                           l_query query rb re in
  gc_cigar out = None /\ gc_n_cigar out = 0.
Proof.
  intros H. unfold bwa_gen_cigar.
  destruct ((l_query <=? 0) || (rb >=? re) || ((rb <? l_pac) && (re >? l_pac)))
    eqn:E; [ split; reflexivity | ].
  exfalso.
  apply orb_false_iff in E as [E E3].
  apply orb_false_iff in E as [E1 E2].
  apply andb_false_iff in E3.
  lia.
Qed.

Lemma bwa_gen_cigar_rejects_witness :
  let out := bwa_gen_cigar zero_seq band_probe (o_mat mem_opt_init) 6 1 100 1000 []
                           50 (replicate 50 0) 980 1030 in
  gc_cigar out = None /\ gc_n_cigar out = 0.
Proof.
  apply (bwa_gen_cigar_rejects zero_seq band_probe (o_mat mem_opt_init) 6 1 100 1000 []
                               50 (replicate 50 0) 980 1030).
  right. right. split; reflexivity.
Defined.

(** The null pointer is also what a truncated reference slice gives: the
    rejection of C7 is not the only path without a CIGAR. *)
Lemma bwa_gen_cigar_truncated bns_get_seq ksw_global mat q r w_ l_pac pac
    l_query query rb re :
  snd (bns_get_seq l_pac pac rb re) <> re - rb ->
  gc_cigar (bwa_gen_cigar bns_get_seq ksw_global mat q r w_ l_pac pac
                          l_query query rb re) = None.
Proof.
  intros H. unfold bwa_gen_cigar.
  destruct (_ || _ || _); [ reflexivity | ].
  destruct (bns_get_seq l_pac pac rb re) as [rseq rlen]. simpl in H.
  destruct (re - rb =? rlen) eqn:E; [ lia | reflexivity ].
Qed.

(** ** [mem_approx_mapq_se] *)

(** The suboptimal score of the source is the effective suboptimal score
    [max(a.sub != 0 ? a.sub : min_seed_len * a, a.csub)]. *)
Lemma mapq_sub_eq opt a :
  mapq_sub opt a =
  Z.max (if sub a =? 0 then o_min_seed_len opt * o_a opt else sub a) (csub a).
Proof.
  unfold mapq_sub. cbv zeta.
  destruct (sub a =? 0); simpl negb; cbv iota; zcases; lia.
Qed.

(** C8: [mem_approx_mapq_se] returns 0 whenever the effective suboptimal
    score [max(a.sub != 0 ? a.sub : min_seed_len * a, a.csub)] is at least
    [a.score], and its result always lies in [[0, 60]], whatever the
    double-precision stages compute. *)
Theorem mem_approx_mapq_se_range
    (mapq_margin : Z -> Z -> Z -> Z) (identity_low : mem_opt_t -> Z -> Z -> bool)
    (mapq_identity : mem_opt_t -> Z -> Z -> Z -> Z) (mapq_ties : Z -> Z)
    (opt : mem_opt_t) (a : mem_alnreg_t) :
  let mapq := mem_approx_mapq_se mapq_margin identity_low mapq_identity mapq_ties
                                 opt a in
  (Z.max (if sub a =? 0 then o_min_seed_len opt * o_a opt else sub a) (csub a)
     >= score a -> mapq = 0)
  /\ 0 <= mapq <= 60.
Proof.
  unfold mem_approx_mapq_se. cbv zeta. rewrite mapq_sub_eq.
  set (s := Z.max _ (csub a)).
  destruct (s >=? score a) eqn:E.
  - split; [ reflexivity | lia ].
  - rewrite Z.geb_leb in E. apply Z.leb_gt in E. split; [ intros H; lia | ].
    match goal with
    | |- context [if ?m >? 60 then 60 else ?m] => generalize m
    end.
    intros m. zcases; lia.
Qed.

Lemma mem_approx_mapq_se_range_witness :
  mem_approx_mapq_se (fun _ _ _ => 77) (fun _ _ _ => false) (fun _ _ _ m => m)
                     (fun _ => 3) mem_opt_init region_tied = 0.
Proof.
  apply (mem_approx_mapq_se_range (fun _ _ _ => 77) (fun _ _ _ => false)
                                  (fun _ _ _ m => m) (fun _ => 3)
                                  mem_opt_init region_tied).
  vm_compute. discriminate.
Defined.

(** ** The batch driver *)

(** With a positive step the loop visits [i], [i + step], ... and stops
    at the first value that is not below [n]: more fuel than [n - i]
    changes nothing. *)
Lemma strided_fuel fuel fuel' i n step :
  0 < step -> (Z.to_nat (n - i) <= fuel)%nat -> (Z.to_nat (n - i) <= fuel')%nat ->
  strided fuel i n step = strided fuel' i n step.
Proof.
  intros Hstep. revert fuel' i.
  induction fuel as [|fuel IH]; intros fuel' i H1 H2.
  - destruct fuel' as [|fuel']; [ reflexivity | ].
    simpl. destruct (Z.ltb_spec i n); [ lia | reflexivity ].
  - destruct fuel' as [|fuel']; simpl.
    + destruct (Z.ltb_spec i n); [ lia | reflexivity ].
    + destruct (Z.ltb_spec i n); [ | reflexivity ].
      f_equal. apply IH; lia.
Qed.

(** No index strictly between [i] and [i + step] is in the residue class
    of [i]. *)
Lemma filter_residue_gap i step k :
  0 < step -> k <= step - 1 ->
  filter (fun j => j mod step = i mod step) (seqZ (i + 1) k) = [].
Proof.
  intros Hstep Hk.
  assert (H : forall j, j ∈ seqZ (i + 1) k -> ~ (j mod step = i mod step)).
  { intros j Hj Hmod. apply elem_of_seqZ in Hj.
    assert (Hd : (j - i) mod step = 0).
    { rewrite Zminus_mod, Hmod, Z.sub_diag. apply Zmod_0_l. }
    apply Z.mod_divide in Hd; [ | lia ].
    destruct Hd as [d Hd].
    destruct (Z.le_gt_cases d 0); nia. }
  induction (seqZ (i + 1) k) as [|j l IH]; [ reflexivity | ].
  rewrite filter_cons_False by (apply H; left).
  apply IH. intros j' Hj'. apply H. right. exact Hj'.
Qed.

(** The indices visited from [i] on are the indices of [[i, n)] in the
    residue class of [i]. *)
Lemma strided_filter fuel i n step :
  0 < step -> 0 <= i -> (Z.to_nat (n - i) <= fuel)%nat ->
  strided fuel i n step =
  filter (fun j => j mod step = i mod step) (seqZ i (n - i)).
Proof.
  intros Hstep. revert i.
  induction fuel as [|fuel IH]; intros i Hi Hfuel.
  - simpl. replace (seqZ i (n - i)) with (@nil Z); [ reflexivity | ].
    symmetry. apply seqZ_nil. lia.
  - simpl. destruct (Z.ltb_spec i n) as [Hlt|Hge].
    + rewrite (seqZ_cons i (n - i)) by lia.
      rewrite filter_cons_True by reflexivity. f_equal.
      rewrite IH by lia.
      replace (Z.succ i) with (i + 1) by lia.
      replace (Z.pred (n - i)) with (n - (i + 1)) by lia.
      destruct (Z.le_gt_cases (i + step) n) as [Hle|Hgt].
      * replace (n - (i + 1)) with ((step - 1) + (n - (i + step))) by lia.
        rewrite seqZ_app by lia.
        rewrite list.filter_app.
        replace (i + 1 + (step - 1)) with (i + step) by lia.
        rewrite (filter_residue_gap i step (step - 1)) by lia.
        simpl. apply list_filter_iff. intros j.
        replace (i + step) with (i + 1 * step) by lia.
        rewrite Z_mod_plus_full. reflexivity.
      * replace (seqZ (i + step) (n - (i + step))) with (@nil Z)
          by (symmetry; apply seqZ_nil; lia).
        rewrite filter_nil.
        rewrite (filter_residue_gap i step (n - (i + 1))) by lia.
        reflexivity.
    + replace (seqZ i (n - i)) with (@nil Z); [ reflexivity | ].
      symmetry. apply seqZ_nil. lia.
Qed.

(** Pass 1 is the static round-robin partition: the worker with
    [start = k] and [step = n_threads] visits [k], [k + n_threads], ... *)
Lemma worker1_round_robin k n_threads n :
  0 <= k < n_threads ->
  worker1 {| w_start := k; w_step := n_threads; w_n := n |} = round_robin k n_threads n.
Proof.
  intros Hk. unfold worker1, round_robin. simpl.
  rewrite strided_filter by lia.
  rewrite (Z.mod_small k n_threads) by lia.
  destruct (Z.le_gt_cases k n) as [Hle|Hgt].
  - replace n with (k + (n - k)) at 2 by lia.
    rewrite seqZ_app by lia. rewrite list.filter_app. simpl.
    replace (filter (fun i => i mod n_threads = k) (seqZ 0 k)) with (@nil Z);
      [ reflexivity | ].
    symmetry.
    assert (H : forall j, j ∈ seqZ 0 k -> ~ (j mod n_threads = k)).
    { intros j Hj. apply elem_of_seqZ in Hj. rewrite Z.mod_small by lia. lia. }
    induction (seqZ 0 k) as [|j l IH]; [ reflexivity | ].
    rewrite filter_cons_False by (apply H; left).
    apply IH. intros j' Hj'. apply H. right. exact Hj'.
  - rewrite (seqZ_nil k) by lia. rewrite filter_nil. symmetry.
    assert (H : forall j, j ∈ seqZ 0 n -> ~ (j mod n_threads = k)).
    { intros j Hj. apply elem_of_seqZ in Hj. rewrite Z.mod_small by lia. lia. }
    induction (seqZ 0 n) as [|j l IH]; [ reflexivity | ].
    rewrite filter_cons_False by (apply H; left).
    apply IH. intros j' Hj'. apply H. right. exact Hj'.
Qed.

(** In pass 1 every read of the batch is visited by the worker of its
    residue class and by no other worker. *)
Lemma worker1_visits k n_threads n i :
  0 <= k < n_threads ->
  i ∈ worker1 {| w_start := k; w_step := n_threads; w_n := n |}
  <-> 0 <= i < n /\ i mod n_threads = k.
Proof.
  intros Hk. rewrite worker1_round_robin by exact Hk. unfold round_robin.
  rewrite list_elem_of_filter, elem_of_seqZ. intuition lia.
Qed.

(** Pass 2 never reads [w->start]: its loops begin at 0. *)
Lemma worker2_start MEM_F_PE opt w :
  worker2 MEM_F_PE opt w =
  worker2 MEM_F_PE opt {| w_start := 0; w_step := w_step w; w_n := w_n w |}.
Proof. reflexivity. Qed.

(** C3: on a batch of 4 reads with 2 worker threads (single-end mode), the
    workers of pass 1 visit the reads [0, 2] and [1, 3], as the round-robin
    partition asks, but both workers of pass 2 visit the reads [0, 2]: the
    worker with [start = 1] does not visit [1, 3], the two index sets are
    not disjoint and the reads 1 and 3 are visited by no worker. *)
Theorem worker2_overlap :
  map worker1 (mem_process_seqs_workers opt_two_threads 4) = [[0; 2]; [1; 3]]
  /\ map (worker2 2 opt_two_threads) (mem_process_seqs_workers opt_two_threads 4)
     = [[0; 2]; [0; 2]]
  /\ round_robin 1 2 4 = [1; 3].
Proof. repeat split; reflexivity. Qed.

(** ** The weight of a chain *)

(** A coverage loop never lowers [w] when the seed lengths are not
    negative. *)
Lemma flt_cover_step_mono key seeds w e :
  Forall (fun s => 0 <= len s) seeds ->
  w <= fst (foldl (flt_cover_step key) (w, e) seeds).
Proof.
  intros H. revert w e.
  induction H as [|s seeds Hs _ IH]; intros w e; simpl; [ lia | ].
  match goal with
  | |- _ <= fst (foldl _ (?w', ?e') _) => specialize (IH w' e')
  end.
  etransitivity; [ | exact IH ].
  zcases; lia.
Qed.

(** The second loop starts from the query coverage instead of 0, so the
    final [w < tmp ? w : tmp] always picks the query coverage: the
    reference axis has no influence on the weight. *)
Lemma flt_weight_query_axis c :
  Forall (fun s => 0 <= len s) (chn_seeds c) ->
  flt_weight c = flt_cover qbeg 0 c.
Proof.
  intros H. unfold flt_weight. cbv zeta.
  assert (Hle : flt_cover qbeg 0 c <= flt_cover rbeg (flt_cover qbeg 0 c) c).
  { unfold flt_cover at 2. apply flt_cover_step_mono.
    apply Forall_take. exact H. }
  zcases; lia.
Qed.

Example chain_ref_overlap_merges :
  test_and_merge mem_opt_init
    {| chn_n := 1; chn_m := 4; chn_pos := 100;
       chn_seeds := [ {| rbeg := 100; qbeg := 0; len := 20 |} ] |}
    {| rbeg := 110; qbeg := 30; len := 20 |}
  = (chain_ref_overlap, true).
Proof. reflexivity. Qed.

(** C1: the chain with the seeds [(qbeg 0, rbeg 100, len 20)] and
    [(qbeg 30, rbeg 110, len 20)] covers 40 query positions and 30
    reference positions, so [min(w_q, w_r)] is 30; the weight that
    [mem_chain_flt] stores for it is 40. *)
Theorem flt_weight_ref_overlap :
  flt_weight chain_ref_overlap = 40
  /\ f_w (flt_aux_init 0 chain_ref_overlap) = 40
  /\ union_size (map (fun s => (qbeg s, len s)) (chn_seeds chain_ref_overlap)) = 40
  /\ union_size (map (fun s => (rbeg s, len s)) (chn_seeds chain_ref_overlap)) = 30
  /\ weight_spec chain_ref_overlap = 30.
Proof. repeat split; reflexivity. Qed.

(** ** Chaining *)



Lemma kb_putp_Forall (P : mem_chain_t -> Prop) tree c :
  Forall P tree -> P c -> Forall P (kb_putp tree c).
Proof.
  intros Htree Hc. unfold kb_putp. apply Forall_app. split.
  - apply Forall_take. exact Htree.
  - constructor; [ exact Hc | apply Forall_drop; exact Htree ].
Qed.


(** The loops over the occurrences of a match, over the matches of a
    batch and over the batches insert the seeds of [seed_stream] one by
    one. *)
Lemma mem_insert_intv_fst bwt_sa opt st p :
  fst (mem_insert_intv bwt_sa opt st p) =
  foldl (mem_insert_one opt) (fst st) (intv_seeds bwt_sa opt p).
Proof.
  unfold mem_insert_intv, intv_seeds.
  destruct (intv_ignored opt p); [ reflexivity | ].
  generalize (seqZ 0 (x2 p)). intros ks. revert st.
  induction ks as [|k ks IH]; intros st; [ reflexivity | ].
  simpl. rewrite IH. reflexivity.
Qed.

Lemma mem_insert_batch_fst bwt_sa opt a st :
  fst (foldl (mem_insert_intv bwt_sa opt) st a) =
  foldl (mem_insert_one opt) (fst st) (concat (map (intv_seeds bwt_sa opt) a)).
Proof.
  revert st. induction a as [|p a IH]; intros st; [ reflexivity | ].
  simpl. rewrite IH, foldl_app, mem_insert_intv_fst. reflexivity.
Qed.

Lemma mem_insert_seed_stream bwt_smem1 bwt_sa fuel opt st itr r :
  mem_insert_seed bwt_smem1 bwt_sa fuel opt st itr = Some r ->
  fst r = foldl (mem_insert_one opt) (fst st)
                (seed_stream bwt_smem1 bwt_sa fuel opt itr).
Proof.
  revert st itr. induction fuel as [|fuel IH]; intros st itr H; [ discriminate | ].
  simpl in H |- *.
  destruct (smem_next bwt_smem1 itr (o_max_seed_len opt) (o_min_intv opt))
    as [[itr' [a|]] qs].
  - apply IH in H. rewrite H, foldl_app, mem_insert_batch_fst. reflexivity.
  - injection H as <-. reflexivity.
Qed.








Example toy_chain :
  mem_chain toy_smem1 toy_sa 3 mem_opt_init 40 (replicate 40 0) =
  Some ([toy_chain_40], [FmSmem1 0; FmSa 0; FmSmem1 20; FmSa 20]).
Proof. reflexivity. Qed.

Example toy_stream :
  seed_stream toy_smem1 toy_sa 3 mem_opt_init (smem_set_query 40 (replicate 40 0)) =
  chn_seeds toy_chain_40.
Proof. reflexivity. Qed.

(** The skip over ambiguous bases moves the cursor forward, and not
    beyond the end of the query. *)
Lemma skip_ambiguous_bounds fuel query l start :
  start <= l ->
  start <= skip_ambiguous fuel query l start <= l.
Proof.
  revert start. induction fuel as [|fuel IH]; intros start H; simpl; [ lia | ].
  destruct (Z.ltb_spec start l); simpl; [ | lia ].
  destruct (_ >? 3); [ | lia ].
  specialize (IH (start + 1)). lia.
Qed.

(** [mem_insert_seed] returns as soon as the fuel exceeds the number of
    bases left, provided each call of [bwt_smem1] moves the cursor
    forward. *)
Lemma mem_insert_seed_total bwt_smem1 bwt_sa opt :
  (forall l query start max_len min_intv,
      start < fst (bwt_smem1 l query start max_len min_intv)) ->
  forall fuel st itr,
    (Z.to_nat (itr_len itr - itr_start itr) < fuel)%nat ->
    exists r, mem_insert_seed bwt_smem1 bwt_sa fuel opt st itr = Some r.
Proof.
  intros Hprogress. induction fuel as [|fuel IH]; intros st itr Hfuel; [ lia | ].
  simpl. unfold smem_next.
  destruct ((itr_start itr >=? itr_len itr) || (itr_start itr <? 0)) eqn:E;
    [ eexists; reflexivity | ].
  apply orb_false_iff in E as [E1 E2].
  rewrite Z.geb_leb in E1. apply Z.leb_gt in E1. apply Z.ltb_ge in E2.
  pose proof (skip_ambiguous_bounds (Z.to_nat (itr_len itr - itr_start itr))
                (itr_query itr) (itr_len itr) (itr_start itr) ltac:(lia)) as Hskip.
  set (start := skip_ambiguous _ _ _ _) in *.
  destruct (Z.eqb_spec start (itr_len itr)); [ eexists; reflexivity | ].
  pose proof (Hprogress (itr_len itr) (itr_query itr) start
                (o_max_seed_len opt) (o_min_intv opt)) as Hp.
  destruct (bwt_smem1 _ _ _ _ _) as [start' matches]. simpl in Hp.
  apply IH. simpl. lia.
Qed.

Lemma mem_chain_total bwt_smem1 bwt_sa opt fuel l query :
  (forall l query start max_len min_intv,
      start < fst (bwt_smem1 l query start max_len min_intv)) ->
  (Z.to_nat l < fuel)%nat ->
  exists r, mem_chain bwt_smem1 bwt_sa fuel opt l query = Some r.
Proof.
  intros Hprogress Hfuel. unfold mem_chain.
  destruct (l <? o_min_seed_len opt); [ eexists; reflexivity | ].
  apply mem_insert_seed_total; [ exact Hprogress | ].
  simpl. replace (l - 0) with l by lia. exact Hfuel.
Qed.

(** C9: for a query shorter than [min_seed_len], [mem_chain] returns the
    empty chain vector and sends no query to the FM-index, whatever the
    index and the fuel are. *)
Theorem mem_chain_short
    (bwt_smem1 : Z -> list Z -> Z -> Z -> Z -> Z * list bwtintv_t)
    (bwt_sa : Z -> Z) (fuel : nat) (opt : mem_opt_t) (l : Z) (query : list Z) :
  l < o_min_seed_len opt ->
  mem_chain bwt_smem1 bwt_sa fuel opt l query = Some ([], []).
Proof.
  intros H. unfold mem_chain.
  destruct (Z.ltb_spec l (o_min_seed_len opt)); [ reflexivity | lia ].
Qed.

Lemma mem_chain_short_witness :
  mem_chain toy_smem1 toy_sa 0 mem_opt_init 18 (replicate 18 0) = Some ([], []).
Proof.
  apply (mem_chain_short toy_smem1 toy_sa 0 mem_opt_init 18 (replicate 18 0)).
  reflexivity.
Defined.

(** One base more and the index is consulted. *)
Example mem_chain_19 :
  mem_chain toy_smem1 toy_sa 2 mem_opt_init 19 (replicate 19 0) =
  Some ([ {| chn_n := 1; chn_m := 4; chn_pos := 1000;
             chn_seeds := [ {| rbeg := 1000; qbeg := 0; len := 20 |} ] |} ],
        [FmSmem1 0; FmSa 0]).
Proof. reflexivity. Qed.

(** ** Primary marking *)

(** The inner loop of [mem_mark_primary_se] writes [sub] and [sub_n]
    only: the [secondary] fields and the length of the array stay, and the
    loop is left with [k] at most [z.n]. *)
Lemma primary_scan_secondary fc opt tmp i z fuel k a :
  secondary <$> fst (primary_scan fc opt tmp i z fuel k a) = secondary <$> a
  /\ (k <= snd (primary_scan fc opt tmp i z fuel k a) <= k + fuel)%nat.
Proof.
  revert k a. induction fuel as [|fuel IH]; intros k a; simpl.
  - split; [ reflexivity | lia ].
  - destruct (z !! k) as [j|]; [ | simpl; split; [ reflexivity | lia ] ].
    destruct (a !! j) as [aj|] eqn:Hj; [ | simpl; split; [ reflexivity | lia ] ].
    destruct (a !! i) as [ai|]; [ | simpl; split; [ reflexivity | lia ] ].
    destruct (primary_overlap aj ai);
      [ | destruct (IH (S k) a) as [H1 H2]; split; [ exact H1 | lia ] ].
    destruct (primary_significant fc opt aj ai);
      [ | destruct (IH (S k) a) as [H1 H2]; split; [ exact H1 | lia ] ].
    simpl. split; [ | lia ].
    rewrite list_fmap_insert. apply list_insert_id.
    rewrite list_lookup_fmap, Hj. simpl. f_equal.
    destruct (sub aj =? 0); destruct (_ <=? tmp); reflexivity.
Qed.

Lemma primary_scan_length fc opt tmp i z fuel k a :
  length (fst (primary_scan fc opt tmp i z fuel k a)) = length a.
Proof.
  rewrite <- (length_fmap secondary), (proj1 (primary_scan_secondary _ _ _ _ _ _ _ _)).
  apply length_fmap.
Qed.

(** One turn of the outer loop either pushes [i] on [z] and leaves the
    [secondary] fields alone, or sets [a[i].secondary] to an element
    of [z]. *)
Lemma primary_step_secondary fc opt tmp a z i :
  (i < length a)%nat ->
  let r := primary_step fc opt tmp (a, z) i in
  (snd r = z ++ [i] /\ secondary <$> fst r = secondary <$> a)
  \/ (snd r = z /\ exists j, j ∈ z
                  /\ secondary <$> fst r = <[i:=Z.of_nat j]> (secondary <$> a)).
Proof.
  intros Hi. unfold primary_step. cbv zeta.
  pose proof (primary_scan_secondary fc opt tmp i z (length z) 0 a) as [Hsec Hk].
  pose proof (primary_scan_length fc opt tmp i z (length z) 0 a) as Hlen.
  destruct (primary_scan fc opt tmp i z (length z) 0 a) as [a' k]. simpl in *.
  destruct (Nat.eqb_spec k (length z)) as [Heq|Hne].
  - left. simpl. split; [ reflexivity | exact Hsec ].
  - right.
    destruct (lookup_lt_is_Some_2 a' i ltac:(lia)) as [ai Hai].
    destruct (lookup_lt_is_Some_2 z k ltac:(lia)) as [j Hj].
    rewrite Hai, Hj. simpl. split; [ reflexivity | ].
    exists j. split; [ eapply list_elem_of_lookup_2; exact Hj | ].
    rewrite list_fmap_insert. simpl. rewrite Hsec. reflexivity.
Qed.

Lemma primary_inv_push sec z i :
  primary_inv sec z i -> (i < length sec)%nat -> primary_inv sec (z ++ [i]) (S i).
Proof.
  intros (I1 & I2 & I3 & I4) Hi.
  split; [ | split; [ | split ] ].
  - intros j Hj. apply elem_of_app in Hj as [Hj|Hj].
    + destruct (I1 j Hj). split; [ lia | assumption ].
    + apply list_elem_of_singleton in Hj. subst j. split; [ lia | ].
      apply I3; lia.
  - intros k v Hv. destruct (I2 k v Hv) as [->|(j & -> & Hjk & Hj)].
    + left. reflexivity.
    + right. exists j. split; [ reflexivity | split; [ exact Hjk | ] ].
      apply elem_of_app. left. exact Hj.
  - intros k Hk Hlen. apply I3; lia.
  - apply elem_of_app. left. exact I4.
Qed.

Lemma primary_inv_link sec z i j :
  primary_inv sec z i -> (i < length sec)%nat -> j ∈ z ->
  primary_inv (<[i:=Z.of_nat j]> sec) z (S i).
Proof.
  intros (I1 & I2 & I3 & I4) Hi Hj.
  split; [ | split; [ | split ] ].
  - intros j' Hj'. destruct (I1 j' Hj') as [Hlt Hsec]. split; [ lia | ].
    rewrite list_lookup_insert_ne by lia. exact Hsec.
  - intros k v Hv. destruct (decide (k = i)) as [->|Hne].
    + rewrite list_lookup_insert_eq in Hv by lia. injection Hv as <-.
      right. exists j. destruct (I1 j Hj). split; [ reflexivity | split; assumption ].
    + rewrite list_lookup_insert_ne in Hv by lia. exact (I2 k v Hv).
  - intros k Hk Hlen. rewrite length_insert in Hlen.
    rewrite list_lookup_insert_ne by lia. apply I3; lia.
  - exact I4.
Qed.

(** The outer loop keeps the invariant. *)
Lemma primary_loop_inv fc opt tmp k i a z :
  (i + k <= length a)%nat ->
  primary_inv (secondary <$> a) z i ->
  let r := foldl (primary_step fc opt tmp) (a, z) (seq i k) in
  primary_inv (secondary <$> fst r) (snd r) (i + k) /\ length (fst r) = length a.
Proof.
  revert i a z. induction k as [|k IH]; intros i a z Hlen Hinv.
  - simpl. rewrite Nat.add_0_r. split; [ exact Hinv | reflexivity ].
  - cbn [seq foldl].
    pose proof (primary_step_secondary fc opt tmp a z i ltac:(lia)) as Hstep.
    cbv zeta in Hstep.
    assert (Hlen' : length (fst (primary_step fc opt tmp (a, z) i)) = length a).
    { rewrite <- (length_fmap secondary).
      destruct Hstep as [[_ ->]|[_ (j & _ & ->)]];
        rewrite ?length_insert; apply length_fmap. }
    destruct (primary_step fc opt tmp (a, z) i) as [a' z']. cbn [fst snd] in *.
    destruct (IH (S i) a' z') as [H1 H2].
    + lia.
    + destruct Hstep as [[-> ->]|[-> (j & Hj & ->)]].
      * apply primary_inv_push; [ exact Hinv | rewrite length_fmap; lia ].
      * apply primary_inv_link; [ exact Hinv | rewrite length_fmap; lia | exact Hj ].
    + replace (S i + k)%nat with (i + S k)%nat in H1 by lia.
      split; [ exact H1 | lia ].
Qed.

(** C10: after [mem_mark_primary_se] on a non-empty array, region 0 has
    [secondary == -1], and every region [i] with [secondary >= 0] points
    to an earlier region ([secondary < i]) whose own [secondary] is -1. *)
Theorem mem_mark_primary_se_links
    (fc : float_cmp) (opt : mem_opt_t) (a : list mem_alnreg_t) :
  a <> [] ->
  let a' := mem_mark_primary_se fc opt a in
  (exists x, a' !! 0%nat = Some x /\ secondary x = -1)
  /\ (forall i x, a' !! i = Some x -> 0 <= secondary x ->
        exists j y, secondary x = Z.of_nat j /\ (j < i)%nat
                    /\ a' !! j = Some y /\ secondary y = -1).
Proof.
  intros Hne. unfold mem_mark_primary_se.
  destruct (Nat.eqb_spec (length a) 0) as [H0|H0];
    [ destruct a; [ congruence | discriminate ] | ].
  cbv zeta.
  set (tmp := if o_a opt + o_b opt >? o_q opt + o_r opt
              then o_a opt + o_b opt else o_q opt + o_r opt).
  set (a0 := map (fun x => set_secondary (set_sub x 0) (-1)) a).
  assert (Hlen0 : length a0 = length a) by apply length_map.
  assert (Hsec0 : forall k v, (secondary <$> a0) !! k = Some v -> v = -1).
  { intros k v Hv. apply list_lookup_fmap_Some in Hv as (x & -> & Hx).
    unfold a0 in Hx. change (map ?f a) with (f <$> a) in Hx.
    apply list_lookup_fmap_Some in Hx as (y & -> & _). reflexivity. }
  assert (Hall : forall k, (k < length (secondary <$> a0))%nat ->
                           (secondary <$> a0) !! k = Some (-1)).
  { intros k Hk. destruct (lookup_lt_is_Some_2 _ _ Hk) as [v Hv].
    rewrite Hv. f_equal. exact (Hsec0 k v Hv). }
  assert (Hinv0 : primary_inv (secondary <$> a0) [0%nat] 1).
  { split; [ | split; [ | split ] ].
    - intros j Hj. apply list_elem_of_singleton in Hj. subst j. split; [ lia | ].
      apply Hall. rewrite length_fmap. lia.
    - intros k v Hv. left. exact (Hsec0 k v Hv).
    - intros k _ Hk. apply Hall. exact Hk.
    - left. }
  rewrite Hlen0.
  destruct (primary_loop_inv fc opt tmp (length a - 1) 1 a0 [0%nat] ltac:(lia) Hinv0)
    as [(I1 & I2 & I3 & I4) Hlen].
  simpl in I1, I2, I3, I4, Hlen.
  set (r := foldl (primary_step fc opt tmp) (a0, [0%nat]) (seq 1 (length a - 1))) in *.
  assert (Hread : forall j, j ∈ snd r ->
                            exists y, fst r !! j = Some y /\ secondary y = -1).
  { intros j Hj. destruct (I1 j Hj) as [_ Hsec].
    apply list_lookup_fmap_Some in Hsec as (y & Hm & Hy). exists y. split; [ exact Hy | ].
    symmetry. exact Hm. }
  split.
  - exact (Hread 0%nat I4).
  - intros i x Hx Hpos.
    assert (Hv : (secondary <$> fst r) !! i = Some (secondary x)).
    { rewrite list_lookup_fmap, Hx. reflexivity. }
    destruct (I2 i _ Hv) as [Hm|(j & Hj & Hlt & Hz)]; [ lia | ].
    destruct (Hread j Hz) as (y & Hy & Hsy).
    exists j, y. repeat split; assumption.
Qed.

(** [mem_mark_primary_se] keeps the length of the array. *)
Lemma primary_step_length fc opt tmp a z i :
  length (fst (primary_step fc opt tmp (a, z) i)) = length a.
Proof.
  unfold primary_step. cbv zeta.
  pose proof (primary_scan_length fc opt tmp i z (length z) 0 a) as Hs.
  destruct (primary_scan fc opt tmp i z (length z) 0 a) as [a' k']. simpl in Hs.
  destruct (Nat.eqb k' (length z)); [ exact Hs | ].
  destruct (a' !! i); [ | exact Hs ].
  destruct (z !! k'); simpl; rewrite ?length_insert; exact Hs.
Qed.

Lemma primary_loop_length fc opt tmp k i a z :
  length (fst (foldl (primary_step fc opt tmp) (a, z) (seq i k))) = length a.
Proof.
  revert i a z. induction k as [|k IH]; intros i a z; [ reflexivity | ].
  cbn [seq foldl].
  pose proof (primary_step_length fc opt tmp a z i) as Hs.
  destruct (primary_step fc opt tmp (a, z) i) as [a' z'].
  rewrite IH. exact Hs.
Qed.

Lemma mem_mark_primary_se_length fc opt a :
  length (mem_mark_primary_se fc opt a) = length a.
Proof.
  unfold mem_mark_primary_se.
  destruct (Nat.eqb (length a) 0); [ reflexivity | ].
  cbv zeta. rewrite primary_loop_length. apply length_map.
Qed.

(** The second region is secondary to the first and the fourth to the
    third. *)
Example mem_mark_primary_se_4 :
  secondary <$> mem_mark_primary_se exact_float mem_opt_init regions_4 = [-1; 0; -1; 2].
Proof. reflexivity. Qed.

Lemma mem_mark_primary_se_links_witness :
  exists x, mem_mark_primary_se exact_float mem_opt_init regions_4 !! 0%nat = Some x
            /\ secondary x = -1.
Proof.
  apply (mem_mark_primary_se_links exact_float mem_opt_init regions_4).
  discriminate.
Defined.

(** ** Squeezing an array in place *)

(** With [kept] in front, [stale] slots behind it and [rest] still to
    visit, the loop leaves [kept] followed by the elements of [rest] that
    pass [keep] in front of the array, and counts them. *)
Lemma squeeze_loop {A} (keep : A -> bool) (rest kept stale : list A) :
  exists tail,
    foldl (squeeze_step keep) (kept ++ stale ++ rest, length kept)
          (seq (length kept + length stale) (length rest))
    = ((kept ++ filter (fun x => keep x = true) rest) ++ tail,
       length (kept ++ filter (fun x => keep x = true) rest)).
Proof.
  revert kept stale. induction rest as [|x rest IH]; intros kept stale.
  - exists stale. simpl. rewrite !app_nil_r. reflexivity.
  - cbn [length seq foldl].
    assert (Hx : (kept ++ stale ++ x :: rest) !! (length kept + length stale)%nat
                 = Some x).
    { rewrite app_assoc, <- length_app. apply list_lookup_middle. reflexivity. }
    unfold squeeze_step at 2. cbn [fst snd]. rewrite Hx.
    destruct (keep x) eqn:Hk.
    + rewrite filter_cons_True by exact Hk.
      destruct (Nat.eqb_spec (length kept) (length kept + length stale)) as [He|Hn];
        cbn [negb].
      * destruct stale; [ | simpl in He; lia ].
        destruct (IH (kept ++ [x]) []) as [tail Ht].
        exists tail. simpl in Ht |- *.
        rewrite !length_app in Ht. simpl in Ht.
        rewrite <- !app_assoc in Ht. simpl in Ht.
        replace (length kept + 1 + 0)%nat with (S (length kept + 0)) in Ht by lia.
        replace (length kept + 1)%nat with (S (length kept)) in Ht by lia.
        rewrite Ht. rewrite <- !app_assoc. simpl. rewrite !length_app. simpl.
        f_equal. lia.
      * destruct stale as [|y stale]; [ simpl in Hn; lia | ].
        destruct (IH (kept ++ [x]) (stale ++ [x])) as [tail Ht].
        exists tail.
        replace (<[length kept:=x]> (kept ++ (y :: stale) ++ x :: rest))
          with ((kept ++ [x]) ++ (stale ++ [x]) ++ rest).
        2:{ rewrite insert_app_r_alt by lia. rewrite Nat.sub_diag.
            rewrite <- !app_assoc. reflexivity. }
        replace (S (length kept)) with (length (kept ++ [x]))
          by (rewrite length_app; simpl; lia).
        replace (S (length kept + length (y :: stale)))
          with (length (kept ++ [x]) + length (stale ++ [x]))%nat
          by (rewrite !length_app; simpl; lia).
        rewrite Ht. rewrite <- !app_assoc. reflexivity.
    + rewrite filter_cons_False by (rewrite Hk; discriminate).
      destruct (IH kept (stale ++ [x])) as [tail Ht].
      exists tail.
      replace (kept ++ stale ++ x :: rest) with (kept ++ (stale ++ [x]) ++ rest)
        by (rewrite <- !app_assoc; reflexivity).
      replace (S (length kept + length stale))
        with (length kept + length (stale ++ [x]))%nat
        by (rewrite !length_app; simpl; lia).
      exact Ht.
Qed.

(** The first [m] slots of a squeezed array: the slots before [i0], then
    the elements from [i0] on that pass [keep]. *)
Lemma squeeze_take {A} (keep : A -> bool) (i0 : nat) (a : list A) :
  (i0 <= length a)%nat ->
  take (snd (squeeze keep i0 a)) (fst (squeeze keep i0 a))
  = take i0 a ++ filter (fun x => keep x = true) (drop i0 a).
Proof.
  intros Hi. unfold squeeze.
  destruct (squeeze_loop keep (drop i0 a) (take i0 a) []) as [tail Ht].
  simpl in Ht. rewrite take_drop in Ht.
  rewrite length_take, length_drop in Ht.
  replace (i0 `min` length a + 0)%nat with i0 in Ht by lia.
  replace (i0 `min` length a)%nat with i0 in Ht by lia.
  rewrite Ht. cbn [fst snd]. apply take_app_length.
Qed.

(** ** [mem_sort_and_dedup] *)

(** The marking loop visits the array from left to right and compares
    each region with its (possibly marked) left neighbour. *)
Lemma dedup_mark_loop suf pre p :
  foldl dedup_mark_step (pre ++ p :: suf) (seq (S (length pre)) (length suf))
  = pre ++ p :: dedup_mark_list p suf.
Proof.
  revert pre p. induction suf as [|x suf IH]; intros pre p; [ reflexivity | ].
  cbn [length seq foldl dedup_mark_list].
  assert (Hx : (pre ++ p :: x :: suf) !! S (length pre) = Some x).
  { rewrite lookup_app_r by lia.
    replace (S (length pre) - length pre)%nat with 1%nat by lia. reflexivity. }
  assert (Hp : (pre ++ p :: x :: suf) !! (S (length pre) - 1)%nat = Some p).
  { replace (S (length pre) - 1)%nat with (length pre) by lia.
    apply list_lookup_middle. reflexivity. }
  unfold dedup_mark_step at 2. rewrite Hx, Hp.
  set (x' := if same_hit x p then set_qe x (qb x) else x).
  replace (if same_hit x p
           then <[S (length pre):=set_qe x (qb x)]> (pre ++ p :: x :: suf)
           else pre ++ p :: x :: suf)
    with ((pre ++ [p]) ++ x' :: suf).
  2:{ unfold x'. rewrite <- app_assoc. simpl.
      destruct (same_hit x p); [ | reflexivity ].
      rewrite insert_app_r_alt by lia.
      replace (S (length pre) - length pre)%nat with 1%nat by lia. reflexivity. }
  replace (S (S (length pre))) with (S (length (pre ++ [p])))
    by (rewrite length_app; simpl; lia).
  rewrite IH, <- app_assoc. reflexivity.
Qed.

Lemma dedup_mark_cons p l : dedup_mark (p :: l) = p :: dedup_mark_list p l.
Proof.
  unfold dedup_mark.
  replace (length (p :: l) - 1)%nat with (length l) by (simpl; lia).
  exact (dedup_mark_loop l [] p).
Qed.

(** [alnreg_slt x y] is the strict order of the keys
    [(-score, rb, qb)] and [same_hit] their equality. *)
Lemma alnreg_slt_iff x y :
  alnreg_slt x y = true <->
  score x > score y
  \/ (score x = score y /\ (rb x < rb y \/ (rb x = rb y /\ qb x < qb y))).
Proof.
  unfold alnreg_slt. rewrite orb_true_iff, andb_true_iff, orb_true_iff, andb_true_iff.
  rewrite Z.gtb_ltb, !Z.ltb_lt, !Z.eqb_eq. lia.
Qed.

Lemma alnreg_le_iff x y :
  alnreg_le x y <->
  score x > score y
  \/ (score x = score y /\ (rb x < rb y \/ (rb x = rb y /\ qb x <= qb y))).
Proof.
  unfold alnreg_le. rewrite <- not_true_iff_false, alnreg_slt_iff. lia.
Qed.

Lemma same_hit_iff x y :
  same_hit x y = true <-> score x = score y /\ rb x = rb y /\ qb x = qb y.
Proof.
  unfold same_hit. rewrite !andb_true_iff, !Z.eqb_eq. tauto.
Qed.

Lemma alnreg_le_trans : Transitive alnreg_le.
Proof. intros x y z. rewrite !alnreg_le_iff. lia. Qed.

Lemma alnreg_le_total : Total alnreg_le.
Proof. intros x y. rewrite !alnreg_le_iff. lia. Qed.

(** Behind a region [p] that stands before all of them, the regions that
    survive the marks stand strictly behind [p] and strictly behind each
    other. *)
Lemma dedup_survivors_sorted l p :
  Forall (alnreg_le p) l -> StronglySorted alnreg_le l ->
  let s := filter (fun x => (qe x >? qb x) = true) (dedup_mark_list p l) in
  Forall (fun y => alnreg_slt p y = true) s
  /\ StronglySorted (fun x y => alnreg_slt x y = true) s.
Proof.
  revert p. induction l as [|x l IH]; intros p Hp Hl.
  - simpl. split; constructor.
  - apply Forall_cons in Hp as [Hpx Hp].
    apply StronglySorted_inv in Hl as [Hl Hx].
    cbn [dedup_mark_list]. cbv zeta.
    set (x' := if same_hit x p then set_qe x (qb x) else x).
    assert (Hkey : score x' = score x /\ rb x' = rb x /\ qb x' = qb x).
    { unfold x'. destruct (same_hit x p); simpl; auto. }
    assert (Hx' : Forall (alnreg_le x') l).
    { eapply Forall_impl; [ exact Hx | ]. intros y. rewrite !alnreg_le_iff. lia. }
    destruct (IH x' Hx' Hl) as [H1 H2].
    set (s := filter (fun x => (qe x >? qb x) = true) (dedup_mark_list x' l)) in *.
    assert (Hps : Forall (fun y => alnreg_slt p y = true) s).
    { eapply Forall_impl; [ exact H1 | ]. intros y.
      rewrite alnreg_le_iff in Hpx. rewrite !alnreg_slt_iff. lia. }
    destruct (same_hit x p) eqn:Hsame.
    + rewrite filter_cons_False; [ split; assumption | ].
      unfold x'. simpl. rewrite Z.gtb_ltb, Z.ltb_irrefl. discriminate.
    + destruct (qe x' >? qb x') eqn:Hlive.
      * rewrite filter_cons_True by exact Hlive. split.
        -- constructor; [ | exact Hps ].
           apply not_true_iff_false in Hsame. rewrite same_hit_iff in Hsame.
           rewrite alnreg_le_iff in Hpx. rewrite alnreg_slt_iff. lia.
        -- constructor; assumption.
      * rewrite filter_cons_False by (rewrite Hlive; discriminate).
        split; assumption.
Qed.

(** A strongly sorted list relates any two of its elements in the order
    of their indices. *)
Lemma StronglySorted_lookup {A} (R : A -> A -> Prop) l i j x y :
  StronglySorted R l -> (i < j)%nat -> l !! i = Some x -> l !! j = Some y -> R x y.
Proof.
  intros Hl. revert i j. induction Hl as [|z l Hl IH Hz]; intros i j Hij Hi Hj.
  - discriminate.
  - destruct j as [|j]; [ lia | ]. simpl in Hj.
    destruct i as [|i]; simpl in Hi.
    + injection Hi as <-. rewrite Forall_forall in Hz. apply Hz.
      eapply list_elem_of_lookup_2. exact Hj.
    + apply (IH i j); [ lia | assumption | assumption ].
Qed.

(** The surviving regions are strictly sorted by the order of the sort. *)
Lemma mem_sort_and_dedup_sorted
    (ks_introsort_mem_ars : list mem_alnreg_t -> list mem_alnreg_t)
    (a : list mem_alnreg_t) :
  (forall l, Sorted alnreg_le (ks_introsort_mem_ars l)) ->
  let r := mem_sort_and_dedup ks_introsort_mem_ars a in
  StronglySorted (fun x y => alnreg_slt x y = true) (take (fst r) (snd r)).
Proof.
  intros Hsort. unfold mem_sort_and_dedup.
  destruct (Nat.leb_spec (length a) 1) as [Hle|Hgt].
  - cbn [fst snd]. rewrite take_ge by lia.
    destruct a as [|x [|y a]]; [ constructor | | simpl in Hle; lia ].
    constructor; constructor.
  - cbv zeta.
    pose proof (@Sorted_StronglySorted _ alnreg_le alnreg_le_trans _ (Hsort a)) as Hs.
    destruct (ks_introsort_mem_ars a) as [|p l].
    + cbn. constructor.
    + rewrite dedup_mark_cons.
      pose proof (squeeze_take (fun x => qe x >? qb x) 1
                    (p :: dedup_mark_list p l) ltac:(simpl; lia)) as Ht.
      destruct (squeeze _ 1 (p :: dedup_mark_list p l)) as [a' m].
      cbn [fst snd] in Ht |- *. rewrite Ht. cbn [take drop app].
      apply StronglySorted_inv in Hs as [Hl Hp].
      destruct (dedup_survivors_sorted l p Hp Hl) as [H1 H2].
      constructor; assumption.
Qed.

(** C6: among the [m] regions that [mem_sort_and_dedup] returns, no two
    share the triple [(score, rb, qb)], and the regions are sorted by
    score descending, ties broken by [rb] ascending then [qb] ascending;
    [ks_introsort] is any function that sorts by [alnreg_slt]. *)
Theorem mem_sort_and_dedup_distinct
    (ks_introsort_mem_ars : list mem_alnreg_t -> list mem_alnreg_t)
    (a : list mem_alnreg_t) :
  (forall l, Sorted alnreg_le (ks_introsort_mem_ars l)) ->
  let r := mem_sort_and_dedup ks_introsort_mem_ars a in
  all_distinct (take (fst r) (snd r)) /\ all_ordered (take (fst r) (snd r)).
Proof.
  intros Hsort r.
  pose proof (mem_sort_and_dedup_sorted ks_introsort_mem_ars a Hsort) as Hs.
  fold r in Hs. split.
  - intros i j x y Hij Hx Hy Heq.
    pose proof (StronglySorted_lookup _ _ i j x y Hs Hij Hx Hy) as Hlt.
    simpl in Hlt. rewrite alnreg_slt_iff in Hlt.
    injection Heq as H1 H2 H3. lia.
  - intros i j x y Hij Hx Hy.
    pose proof (StronglySorted_lookup _ _ i j x y Hs Hij Hx Hy) as Hlt.
    simpl in Hlt. rewrite alnreg_slt_iff in Hlt. lia.
Qed.

(** On [regions_dup] three regions survive: one of the two identical
    hits and the region with the empty query span are squeezed out. *)
Example mem_sort_and_dedup_5 :
  let r := mem_sort_and_dedup sort_mem_ars regions_dup in
  fst r = 3%nat
  /\ (fun x => (score x, rb x, qb x)) <$> take (fst r) (snd r)
     = [(50, 100, 0); (46, 900, 0); (30, 500, 60)].
Proof. split; reflexivity. Qed.

Lemma mem_sort_and_dedup_distinct_witness :
  let r := mem_sort_and_dedup sort_mem_ars regions_dup in
  all_distinct (take (fst r) (snd r)) /\ all_ordered (take (fst r) (snd r)).
Proof.
  apply (mem_sort_and_dedup_distinct sort_mem_ars regions_dup).
  intros l. apply (@Sorted_merge_sort _ alnreg_le _ alnreg_le_total).
Defined.

(** ** [mem_chain_flt] *)

(** The inner loop on the array is the scan of the accepted list: with
    [pre] already scanned, [suf] still to scan, [stale] slots and the
    candidate [ai] behind them, the loop rewrites [suf] as [accept_scan]
    does and is left before [n] exactly when the candidate is rejected. *)
Lemma flt_scan_loop fc opt ai suf pre stale rest :
  let i := (length pre + length suf + length stale)%nat in
  let n := (length pre + length suf)%nat in
  let r := flt_scan fc opt i (length suf) (length pre)
                    (pre ++ suf ++ stale ++ ai :: rest) in
  fst r = pre ++ fst (accept_scan fc opt ai suf) ++ stale ++ ai :: rest
  /\ (if snd (accept_scan fc opt ai suf) then (snd r < n)%nat else snd r = n).
Proof.
  revert pre. induction suf as [|aj suf IH]; intros pre; cbv zeta.
  - simpl. split; [ reflexivity | lia ].
  - cbn [length flt_scan accept_scan].
    assert (Hj : (pre ++ (aj :: suf) ++ stale ++ ai :: rest) !! length pre = Some aj).
    { apply list_lookup_middle. reflexivity. }
    assert (Hi : (pre ++ (aj :: suf) ++ stale ++ ai :: rest)
                   !! (length pre + S (length suf) + length stale)%nat = Some ai).
    { rewrite !app_assoc. apply list_lookup_middle.
      rewrite !length_app. simpl. lia. }
    rewrite Hj, Hi.
    assert (Hshift : forall x : flt_aux_t,
               pre ++ (x :: suf) ++ stale ++ ai :: rest
               = (pre ++ [x]) ++ suf ++ stale ++ ai :: rest).
    { intros x. rewrite <- app_assoc. reflexivity. }
    assert (Hins : <[length pre:=flt_set_p2 aj (f_p ai)]>
                     (pre ++ (aj :: suf) ++ stale ++ ai :: rest)
                   = pre ++ (flt_set_p2 aj (f_p ai) :: suf) ++ stale ++ ai :: rest).
    { rewrite insert_app_r_alt by lia. rewrite Nat.sub_diag. reflexivity. }
    assert (Hlen : forall x : flt_aux_t, length (pre ++ [x]) = S (length pre)).
    { intros x. rewrite length_app. simpl. lia. }
    destruct (flt_overlap aj ai); cbn [andb].
    + destruct (flt_significant fc opt aj ai).
      * rewrite Hins. destruct (flt_drop fc opt aj ai).
        -- cbn [fst snd]. split; [ reflexivity | lia ].
        -- specialize (IH (pre ++ [flt_set_p2 aj (f_p ai)])). cbv zeta in IH.
           rewrite Hlen in IH. rewrite Hshift.
           replace (length pre + S (length suf))%nat
             with (S (length pre) + length suf)%nat by lia.
           destruct IH as [IH1 IH2].
           destruct (accept_scan fc opt ai suf) as [r rej]. cbn [fst snd] in *.
           split.
           ++ rewrite IH1, <- app_assoc. reflexivity.
           ++ destruct rej; lia.
      * specialize (IH (pre ++ [aj])). cbv zeta in IH.
        rewrite Hlen in IH. rewrite Hshift.
        replace (length pre + S (length suf))%nat
          with (S (length pre) + length suf)%nat by lia.
        destruct IH as [IH1 IH2].
        destruct (accept_scan fc opt ai suf) as [r rej]. cbn [fst snd] in *.
        split.
        -- rewrite IH1, <- app_assoc. reflexivity.
        -- destruct rej; lia.
    + specialize (IH (pre ++ [aj])). cbv zeta in IH.
      rewrite Hlen in IH. rewrite Hshift.
      replace (length pre + S (length suf))%nat
        with (S (length pre) + length suf)%nat by lia.
      destruct IH as [IH1 IH2].
      destruct (accept_scan fc opt ai suf) as [r rej]. cbn [fst snd] in *.
      split.
      * rewrite IH1, <- app_assoc. reflexivity.
      * destruct rej; lia.
Qed.

Lemma accept_scan_length fc opt ai acc :
  length (fst (accept_scan fc opt ai acc)) = length acc.
Proof.
  induction acc as [|aj acc IH]; [ reflexivity | ].
  cbn [accept_scan].
  destruct (accept_scan fc opt ai acc) as [r rej]. cbn [fst] in IH.
  destruct (_ && _); [ destruct (flt_drop fc opt aj ai) | ]; simpl; lia.
Qed.

(** One turn of the outer loop is one step of the accepted list: with the
    accepted entries [acc] in front, [stale] slots behind them and the
    candidate [ai] next, the turn leaves [accept_step opt acc ai] in
    front. *)
Lemma flt_step_loop fc opt ai acc stale rest :
  exists stale',
    flt_step fc opt (acc ++ stale ++ ai :: rest, length acc)
             (length acc + length stale)%nat
    = (accept_step fc opt acc ai ++ stale' ++ rest, length (accept_step fc opt acc ai))
    /\ (length (accept_step fc opt acc ai) + length stale'
        = S (length acc + length stale))%nat.
Proof.
  pose proof (flt_scan_loop fc opt ai acc [] stale rest) as Hscan.
  cbv zeta in Hscan. cbn [length app Nat.add] in Hscan.
  pose proof (accept_scan_length fc opt ai acc) as Hlen.
  unfold flt_step, accept_step.
  destruct (flt_scan fc opt (length acc + length stale) (length acc) 0
                     (acc ++ stale ++ ai :: rest)) as [a' j].
  destruct (accept_scan fc opt ai acc) as [acc' rej].
  cbn [fst snd] in *. destruct Hscan as [-> Hj].
  destruct rej.
  - destruct (Nat.eqb_spec j (length acc)) as [He|Hn]; [ lia | ].
    exists (stale ++ [ai]). rewrite <- !app_assoc. simpl.
    split; [ rewrite Hlen; reflexivity | rewrite length_app; simpl; lia ].
  - subst j. rewrite Nat.eqb_refl.
    assert (Hi : (acc' ++ stale ++ ai :: rest) !! (length acc + length stale)%nat
                 = Some ai).
    { rewrite app_assoc. apply list_lookup_middle. rewrite length_app. lia. }
    rewrite Hi.
    destruct stale as [|y stale].
    + exists []. simpl.
      rewrite insert_app_r_alt by lia. rewrite Hlen, Nat.sub_diag. simpl.
      rewrite <- app_assoc. simpl.
      split; [ f_equal; rewrite length_app; simpl; lia | rewrite length_app; simpl; lia ].
    + exists (stale ++ [ai]). simpl.
      rewrite insert_app_r_alt by lia. rewrite Hlen, Nat.sub_diag. simpl.
      rewrite <- !app_assoc. simpl.
      split; [ f_equal; rewrite length_app; simpl; lia
             | rewrite !length_app; simpl; lia ].
Qed.

(** The outer loop leaves the accepted list of the specification in
    front of the array and returns its length. *)
Lemma flt_select_loop fc opt rest acc stale :
  exists tail,
    foldl (flt_step fc opt) (acc ++ stale ++ rest, length acc)
          (seq (length acc + length stale) (length rest))
    = (foldl (accept_step fc opt) acc rest ++ tail,
       length (foldl (accept_step fc opt) acc rest)).
Proof.
  revert acc stale. induction rest as [|ai rest IH]; intros acc stale.
  - exists stale. simpl. rewrite app_nil_r. reflexivity.
  - cbn [length seq foldl].
    destruct (flt_step_loop fc opt ai acc stale rest) as (stale' & -> & Hlen).
    rewrite <- Hlen. apply IH.
Qed.

Lemma flt_select_accepted fc opt a :
  a <> [] ->
  exists tail,
    flt_select fc opt a = (accepted fc opt a ++ tail, length (accepted fc opt a)).
Proof.
  intros Ha. destruct a as [|a0 rest]; [ congruence | ].
  unfold flt_select, accepted.
  replace (length (a0 :: rest) - 1)%nat with (length rest) by (simpl; lia).
  exact (flt_select_loop fc opt rest [a0] []).
Qed.

(** A loop over the indices of a slice of an array is a fold over the
    slice. *)
Lemma foldl_seq_lookup {A St} (f : St -> A -> St) (l pre post : list A) (s : St) :
  foldl (fun s i => match (pre ++ l ++ post) !! i with
                    | Some e => f s e
                    | None => s
                    end) s (seq (length pre) (length l))
  = foldl f s l.
Proof.
  revert pre s. induction l as [|x l IH]; intros pre s; [ reflexivity | ].
  cbn [length seq foldl app].
  rewrite (list_lookup_middle pre (l ++ post) x (length pre)) by reflexivity.
  specialize (IH (pre ++ [x]) (f s x)).
  rewrite <- app_assoc in IH. simpl in IH.
  rewrite length_app in IH. simpl in IH.
  replace (length pre + 1)%nat with (S (length pre)) in IH by lia.
  exact IH.
Qed.

Lemma flt_mark_fold acc tail chains :
  flt_mark (acc ++ tail) (length acc) chains = foldl flt_mark_entry chains acc.
Proof.
  unfold flt_mark.
  exact (foldl_seq_lookup flt_mark_entry acc [] tail chains).
Qed.

Lemma flt_marked_ext keep keep' chains :
  (forall k, keep k = keep' k) -> flt_marked keep chains = flt_marked keep' chains.
Proof.
  intros H. unfold flt_marked. apply imap_ext. intros k c _. rewrite H. reflexivity.
Qed.

Lemma flt_marked_none chains : flt_marked (fun _ => false) chains = chains.
Proof.
  unfold flt_marked. apply list_eq. intros k.
  rewrite list_lookup_imap. destruct (chains !! k); reflexivity.
Qed.

(** Flipping the chain [k] of a marked array marks [k] as well: a chain
    that is marked already is left alone. *)
Lemma flt_flip_marked keep chains k :
  Forall (fun c => 0 < chn_n c) chains ->
  flt_flip k (flt_marked keep chains)
  = flt_marked (fun k' => Nat.eqb k' k || keep k') chains.
Proof.
  intros Hpos. unfold flt_flip, flt_marked.
  rewrite list_lookup_imap.
  destruct (chains !! k) as [c|] eqn:Hk; simpl.
  - assert (Hc : 0 < chn_n c).
    { rewrite Forall_forall in Hpos. apply Hpos.
      eapply list_elem_of_lookup_2. exact Hk. }
    apply list_eq. intros i.
    destruct (keep k) eqn:Hkeep.
    + simpl. destruct (Z.ltb_spec 0 (- chn_n c)); [ lia | ].
      rewrite Z.gtb_ltb. destruct (Z.ltb_spec 0 (- chn_n c)); [ lia | ].
      rewrite !list_lookup_imap.
      destruct (chains !! i) as [ci|] eqn:Hi; [ | reflexivity ]. simpl.
      destruct (Nat.eqb_spec i k) as [->|Hne]; [ | reflexivity ].
      rewrite Hkeep. reflexivity.
    + rewrite Z.gtb_ltb. destruct (Z.ltb_spec 0 (chn_n c)); [ | lia ].
      destruct (decide (i = k)) as [->|Hne].
      * rewrite list_lookup_insert_eq
          by (rewrite length_imap; eapply lookup_lt_Some; exact Hk).
        rewrite list_lookup_imap, Hk. simpl. rewrite Nat.eqb_refl. reflexivity.
      * rewrite list_lookup_insert_ne by congruence.
        rewrite !list_lookup_imap.
        destruct (chains !! i) as [ci|]; [ | reflexivity ]. simpl.
        destruct (Nat.eqb_spec i k); [ congruence | reflexivity ].
  - apply list_eq. intros i. rewrite !list_lookup_imap.
    destruct (chains !! i) as [ci|] eqn:Hi; [ | reflexivity ]. simpl.
    destruct (Nat.eqb_spec i k) as [->|Hne]; [ congruence | reflexivity ].
Qed.

(** The marking loop marks the chains that are accepted or recorded with
    an accepted chain. *)
Lemma flt_mark_marked acc keep chains :
  Forall (fun c => 0 < chn_n c) chains ->
  foldl flt_mark_entry (flt_marked keep chains) acc
  = flt_marked (fun k => is_kept acc k || keep k) chains.
Proof.
  intros Hpos. revert keep. induction acc as [|e acc IH]; intros keep.
  - apply flt_marked_ext. reflexivity.
  - cbn [foldl]. unfold flt_mark_entry at 2.
    rewrite flt_flip_marked by exact Hpos.
    destruct (f_p2 e) as [k2|] eqn:Hp2.
    + rewrite flt_flip_marked by exact Hpos. rewrite IH.
      apply flt_marked_ext. intros k.
      unfold is_kept, is_accepted, is_recorded. cbn [existsb]. rewrite Hp2.
      rewrite (Nat.eqb_sym k (f_p e)), (Nat.eqb_sym k k2).
      destruct (Nat.eqb (f_p e) k), (Nat.eqb k2 k), (keep k),
        (existsb (fun e0 => Nat.eqb (f_p e0) k) acc),
        (existsb (fun e0 => match f_p2 e0 with
                            | Some k' => Nat.eqb k' k
                            | None => false
                            end) acc); reflexivity.
    + rewrite IH. apply flt_marked_ext. intros k.
      unfold is_kept, is_accepted, is_recorded. cbn [existsb]. rewrite Hp2.
      rewrite (Nat.eqb_sym k (f_p e)).
      destruct (Nat.eqb (f_p e) k), (keep k),
        (existsb (fun e0 => Nat.eqb (f_p e0) k) acc),
        (existsb (fun e0 => match f_p2 e0 with
                            | Some k' => Nat.eqb k' k
                            | None => false
                            end) acc); reflexivity.
Qed.

(** The freeing loop visits every chain once. *)
Lemma flt_free_loop rest pre freed :
  foldl (fun st i =>
           match fst st !! i with
           | Some c =>
               if chn_n c >=? 0 then
                 (<[i:={| chn_n := 0; chn_m := 0; chn_pos := chn_pos c;
                          chn_seeds := [] |}]> (fst st), snd st ++ [i])
               else
                 (<[i:={| chn_n := - chn_n c; chn_m := chn_m c; chn_pos := chn_pos c;
                          chn_seeds := chn_seeds c |}]> (fst st), snd st)
           | None => st
           end) (pre ++ rest, freed) (seq (length pre) (length rest))
  = (pre ++ (flt_free_one <$> rest), freed ++ free_indices (length pre) rest).
Proof.
  revert pre freed. induction rest as [|c rest IH]; intros pre freed.
  - simpl. rewrite !app_nil_r. reflexivity.
  - cbn [length seq foldl fst snd].
    rewrite (list_lookup_middle pre rest c (length pre)) by reflexivity.
    assert (Hins : forall x : mem_chain_t,
               <[length pre:=x]> (pre ++ c :: rest) = (pre ++ [x]) ++ rest).
    { intros x. rewrite insert_app_r_alt by lia. rewrite Nat.sub_diag.
      rewrite <- app_assoc. reflexivity. }
    assert (Hlen : forall x : mem_chain_t, length (pre ++ [x]) = S (length pre)).
    { intros x. rewrite length_app. simpl. lia. }
    rewrite fmap_cons. cbn [free_indices]. unfold flt_free_one at 1.
    destruct (chn_n c >=? 0).
    + rewrite Hins.
      specialize (IH (pre ++ [chain_freed c]) (freed ++ [length pre])).
      rewrite Hlen in IH. unfold chain_freed in IH at 1.
      rewrite IH, <- !app_assoc. reflexivity.
    + rewrite Hins.
      specialize (IH (pre ++ [chain_neg c]) freed).
      rewrite Hlen in IH. unfold chain_neg in IH at 1.
      rewrite IH, <- !app_assoc. reflexivity.
Qed.

Lemma flt_free_eq chains :
  flt_free chains = (flt_free_one <$> chains, free_indices 0 chains).
Proof. exact (flt_free_loop chains [] []). Qed.

(** On a marked array the freeing loop frees the chains without a mark,
    and the chains that pass the test of the squeeze are the marked
    ones, as they were before the marks. *)
Lemma free_indices_marked chains i (keep : nat -> bool) :
  Forall (fun c => 0 < chn_n c) chains ->
  free_indices i (imap (fun k c => if keep (i + k)%nat then chain_neg c else c) chains)
  = filter (fun k => keep k = false) (seq i (length chains)).
Proof.
  intros Hpos. revert i. induction Hpos as [|c chains Hc _ IH]; intros i.
  - reflexivity.
  - rewrite imap_cons. cbn [free_indices length seq].
    rewrite (imap_ext _ (fun k c => if keep (S i + k)%nat then chain_neg c else c))
      by (intros k x _; simpl; replace (i + S k)%nat with (S (i + k)) by lia;
          reflexivity).
    rewrite IH. rewrite Nat.add_0_r.
    destruct (keep i) eqn:Hk.
    + simpl. rewrite Z.geb_leb. destruct (Z.leb_spec 0 (- chn_n c)); [ lia | ].
      rewrite filter_cons_False by (rewrite Hk; discriminate). reflexivity.
    + rewrite Z.geb_leb. destruct (Z.leb_spec 0 (chn_n c)); [ | lia ].
      rewrite filter_cons_True by exact Hk. reflexivity.
Qed.

Lemma chain_neg_neg c : chain_neg (chain_neg c) = c.
Proof. destruct c. unfold chain_neg. simpl. rewrite Z.opp_involutive. reflexivity. Qed.

Lemma squeeze_marked chains i (keep : nat -> bool) :
  Forall (fun c => 0 < chn_n c) chains ->
  filter (fun c => (chn_n c >? 0) = true)
         (flt_free_one <$>
            imap (fun k c => if keep (i + k)%nat then chain_neg c else c) chains)
  = pick keep i chains.
Proof.
  intros Hpos. revert i. induction Hpos as [|c chains Hc _ IH]; intros i.
  - reflexivity.
  - rewrite imap_cons, fmap_cons. cbn [pick].
    rewrite (imap_ext _ (fun k c => if keep (S i + k)%nat then chain_neg c else c))
      by (intros k x _; simpl; replace (i + S k)%nat with (S (i + k)) by lia;
          reflexivity).
    rewrite Nat.add_0_r.
    destruct (keep i) eqn:Hk.
    + unfold flt_free_one at 1. simpl chn_n.
      rewrite Z.geb_leb. destruct (Z.leb_spec 0 (- chn_n c)); [ lia | ].
      rewrite chain_neg_neg.
      rewrite filter_cons_True by (rewrite Z.gtb_ltb; apply Z.ltb_lt; exact Hc).
      rewrite IH. reflexivity.
    + unfold flt_free_one at 1.
      rewrite Z.geb_leb. destruct (Z.leb_spec 0 (chn_n c)); [ | lia ].
      rewrite filter_cons_False by (simpl; discriminate).
      apply IH.
Qed.

(** The reordered array holds the chains of the input: the sort permutes
    the entries, and the entry built for [chains[i]] points to it. *)
Lemma flt_reorder_Forall (P : mem_chain_t -> Prop) sort chains :
  (forall l, sort l ≡ₚ l) -> Forall P chains -> Forall P (flt_reorder sort chains).
Proof.
  intros Hperm HP. unfold flt_reorder.
  change (map ?f ?l) with (f <$> l).
  apply Forall_fmap. rewrite (Hperm _).
  apply Forall_forall. intros e He. simpl.
  apply list_elem_of_lookup in He as [i Hi].
  rewrite list_lookup_imap in Hi.
  destruct (chains !! i) as [c|] eqn:Hc; [ | discriminate ].
  simpl in Hi. injection Hi as <-. simpl.
  rewrite (nth_lookup_Some _ _ _ _ Hc).
  rewrite Forall_forall in HP. apply HP.
  eapply list_elem_of_lookup_2. exact Hc.
Qed.

Lemma flt_reorder_length sort chains :
  (forall l, sort l ≡ₚ l) -> length (flt_reorder sort chains) = length chains.
Proof.
  intros Hperm. unfold flt_reorder.
  rewrite length_map, (Hperm _), length_imap. reflexivity.
Qed.

Lemma flt_sorted_aux_length sort chains :
  (forall l, sort l ≡ₚ l) -> length (flt_sorted_aux sort chains) = length chains.
Proof.
  intros Hperm. unfold flt_sorted_aux.
  rewrite length_imap, (Hperm _), length_imap. reflexivity.
Qed.

(** [mem_chain_flt] on two chains or more, phase by phase. *)
Lemma mem_chain_flt_phases sort fc opt chains :
  (1 < length chains)%nat ->
  mem_chain_flt sort fc opt chains
  = let sel := flt_select fc opt (flt_sorted_aux sort chains) in
    let fr := flt_free (flt_mark (fst sel) (snd sel) (flt_reorder sort chains)) in
    let sq := squeeze (fun c => chn_n c >? 0) 0 (fst fr) in
    {| flt_n := snd sq; flt_chains := fst sq; flt_freed := snd fr |}.
Proof.
  intros Hlen. unfold mem_chain_flt.
  destruct (Nat.leb_spec (length chains) 1); [ lia | ].
  cbv zeta.
  destruct (flt_select fc opt (flt_sorted_aux sort chains)) as [a n].
  cbn [fst snd].
  destruct (flt_free (flt_mark a n (flt_reorder sort chains))) as [chains' freed].
  cbn [fst snd].
  destruct (squeeze (fun c => chn_n c >? 0) 0 chains') as [chains'' n'].
  reflexivity.
Qed.

(** C4, amended: [mem_chain_flt] returns, in the order of the sort, the
    chains that are accepted or recorded with an accepted chain (as the
    first candidate that overlaps it significantly), whether the domination
    test rejects them or not; the seed buffers of all other chains, and of
    no kept chain, are freed.  [ks_introsort] is any function that
    permutes its argument and every chain has at least one seed; the two
    tests in floating point are the parameter [fc], so that this holds
    however the machine rounds the products. *)
Theorem mem_chain_flt_kept
    (ks_introsort_mem_flt : list flt_aux_t -> list flt_aux_t)
    (fc : float_cmp) (opt : mem_opt_t) (chains : list mem_chain_t) :
  (forall l, ks_introsort_mem_flt l ≡ₚ l) ->
  Forall (fun c => 0 < chn_n c) chains ->
  let out := mem_chain_flt ks_introsort_mem_flt fc opt chains in
  let acc := accepted fc opt (flt_sorted_aux ks_introsort_mem_flt chains) in
  take (flt_n out) (flt_chains out)
  = pick (is_kept acc) 0 (flt_reorder ks_introsort_mem_flt chains)
  /\ flt_freed out = filter (fun k => is_kept acc k = false) (seq 0 (length chains)).
Proof.
  intros Hperm Hpos out acc.
  pose proof (flt_reorder_Forall _ _ _ Hperm Hpos) as Hpos1.
  pose proof (flt_reorder_length _ chains Hperm) as Hlen1.
  pose proof (flt_sorted_aux_length _ chains Hperm) as Hlen0.
  unfold out.
  destruct (Nat.leb_spec (length chains) 1) as [Hle|Hgt].
  - unfold mem_chain_flt.
    destruct (Nat.leb_spec (length chains) 1) as [_|Hgt]; [ | lia ].
    cbn [flt_n flt_chains flt_freed]. rewrite take_ge by lia.
    destruct chains as [|c [|c' chains]]; [ | | simpl in Hle; lia ].
    + unfold acc, flt_reorder, flt_sorted_aux. simpl.
      rewrite (proj1 (Permutation_nil_r _) (Hperm [])). split; reflexivity.
    + unfold acc, flt_reorder, flt_sorted_aux. simpl.
      pose proof (Hperm [flt_aux_init 0 c]) as Hp.
      apply Permutation_singleton_r in Hp. rewrite Hp. split; reflexivity.
  - rewrite mem_chain_flt_phases by exact Hgt. cbv zeta.
    destruct (flt_select_accepted fc opt (flt_sorted_aux ks_introsort_mem_flt chains))
      as [tail Hsel].
    { intros Hnil. rewrite Hnil in Hlen0. simpl in Hlen0. lia. }
    fold acc in Hsel. rewrite Hsel. cbn [fst snd].
    rewrite flt_mark_fold.
    assert (Hm : foldl flt_mark_entry (flt_reorder ks_introsort_mem_flt chains) acc
                 = flt_marked (fun k => is_kept acc k || false)
                              (flt_reorder ks_introsort_mem_flt chains)).
    { rewrite <- (flt_marked_none (flt_reorder ks_introsort_mem_flt chains)) at 1.
      apply flt_mark_marked. exact Hpos1. }
    rewrite Hm, flt_free_eq. cbn [fst snd flt_n flt_chains flt_freed].
    rewrite squeeze_take by lia. rewrite take_0, drop_0. cbn [app].
    unfold flt_marked.
    split.
    + rewrite <- (squeeze_marked _ 0 (is_kept acc) Hpos1).
      do 2 f_equal. apply imap_ext. intros k c _. simpl.
      rewrite orb_false_r. reflexivity.
    + rewrite <- Hlen1.
      rewrite <- (free_indices_marked _ 0 (is_kept acc) Hpos1).
      f_equal. apply imap_ext. intros k c _. simpl.
      rewrite orb_false_r. reflexivity.
Qed.

(** On [chains_dominated] the second chain is rejected by the domination
    test, and yet it is returned and its seed buffer is not freed. *)
Example mem_chain_flt_dominated :
  let out := mem_chain_flt sort_mem_flt exact_float mem_opt_init chains_dominated in
  flt_n out = 2%nat /\ take (flt_n out) (flt_chains out) = chains_dominated
  /\ flt_freed out = []
  /\ f_p <$> accepted exact_float mem_opt_init
                      (flt_sorted_aux sort_mem_flt chains_dominated)
     = [0%nat].
Proof. repeat split; reflexivity. Qed.

(** On [chains_dominated_3] the third chain is rejected as well: it is
    not recorded, its seed buffer is freed and it is not returned. *)
Example mem_chain_flt_dominated_3 :
  let out := mem_chain_flt sort_mem_flt exact_float mem_opt_init chains_dominated_3 in
  take (flt_n out) (flt_chains out) = chains_dominated
  /\ flt_freed out = [2%nat].
Proof. split; reflexivity. Qed.

(** C4 as stated fails on [chains_dominated]. *)
Lemma returns_accepted_dominated :
  ~ returns_accepted sort_mem_flt exact_float mem_opt_init chains_dominated.
Proof.
  intros [H _]. vm_compute in H. discriminate H.
Qed.

Lemma mem_chain_flt_kept_witness :
  let out := mem_chain_flt sort_mem_flt exact_float mem_opt_init chains_dominated_3 in
  let acc := accepted exact_float mem_opt_init
                      (flt_sorted_aux sort_mem_flt chains_dominated_3) in
  take (flt_n out) (flt_chains out)
  = pick (is_kept acc) 0 (flt_reorder sort_mem_flt chains_dominated_3)
  /\ flt_freed out
     = filter (fun k => is_kept acc k = false) (seq 0 (length chains_dominated_3)).
Proof.
  apply (mem_chain_flt_kept sort_mem_flt exact_float mem_opt_init chains_dominated_3).
  - intros l. apply merge_sort_Permutation.
  - repeat constructor.
Defined.

(** * Further properties of the code *)

(** ** The batch driver *)

Lemma elem_of_concat {A} (x : A) (ls : list (list A)) :
  x ∈ concat ls <-> exists l, x ∈ l /\ l ∈ ls.
Proof.
  induction ls as [|l ls IH]; simpl.
  - split; [ intros H; inversion H | intros (l & _ & H); inversion H ].
  - rewrite elem_of_app, IH. split.
    + intros [H|(l' & H1 & H2)]; [ exists l | exists l' ]; split;
        try assumption; [ left | right; assumption ].
    + intros (l' & H1 & H2). apply elem_of_cons in H2 as [->|H2];
        [ left; assumption | right; exists l'; split; assumption ].
Qed.

Lemma round_robin_elem k n_threads n i :
  i ∈ round_robin k n_threads n <-> 0 <= i < n /\ i mod n_threads = k.
Proof.
  unfold round_robin. rewrite list_elem_of_filter, elem_of_seqZ. intuition lia.
Qed.

Lemma round_robin_NoDup k n_threads n : NoDup (round_robin k n_threads n).
Proof. unfold round_robin. apply NoDup_filter, NoDup_seqZ. Qed.

(** The residue classes of distinct residues do not meet. *)
Lemma round_robin_concat_NoDup n_threads n ks :
  NoDup ks ->
  NoDup (concat ((fun k => round_robin k n_threads n) <$> ks)).
Proof.
  induction 1 as [|k ks Hk Hks IH]; [ constructor | ].
  rewrite fmap_cons. cbn [concat]. apply NoDup_app. split; [ | split ].
  - apply round_robin_NoDup.
  - intros x Hx Hrest. apply round_robin_elem in Hx as [_ Hx].
    apply elem_of_concat in Hrest as (l & Hxl & Hl).
    apply list_elem_of_fmap in Hl as (k' & -> & Hk').
    apply round_robin_elem in Hxl as [_ Hxl]. congruence.
  - exact IH.
Qed.

(** X1: in pass 1 the workers that [mem_process_seqs] sets up visit every
    read of the batch exactly once: their visits, put together, are a
    permutation of the indices [0 .. n-1]. *)
Theorem worker1_partition (opt : mem_opt_t) (n : Z) :
  1 <= o_n_threads opt ->
  concat (worker1 <$> mem_process_seqs_workers opt n) ≡ₚ seqZ 0 n.
Proof.
  intros Ht. unfold mem_process_seqs_workers.
  change (map ?f ?l) with (f <$> l). rewrite <- list_fmap_compose.
  rewrite (list_fmap_ext _ (fun k => round_robin k (o_n_threads opt) n)).
  2:{ intros i k Hk. apply list_elem_of_lookup_2 in Hk. apply elem_of_seqZ in Hk.
      simpl. apply worker1_round_robin. lia. }
  apply NoDup_Permutation.
  - apply round_robin_concat_NoDup, NoDup_seqZ.
  - apply NoDup_seqZ.
  - intros i. rewrite elem_of_concat, elem_of_seqZ. split.
    + intros (l & Hi & Hl). apply list_elem_of_fmap in Hl as (k & -> & _).
      apply round_robin_elem in Hi. lia.
    + intros Hi. exists (round_robin (i mod o_n_threads opt) (o_n_threads opt) n).
      split.
      * apply round_robin_elem. split; [ lia | reflexivity ].
      * apply list_elem_of_fmap. exists (i mod o_n_threads opt).
        split; [ reflexivity | ].
        apply elem_of_seqZ. pose proof (Z.mod_pos_bound i (o_n_threads opt)). lia.
Qed.

Lemma worker1_partition_witness :
  concat (worker1 <$> mem_process_seqs_workers opt_two_threads 5) ≡ₚ seqZ 0 5.
Proof. apply (worker1_partition opt_two_threads 5). simpl. lia. Defined.

(** X2: in single-end mode a worker of pass 2 visits the reads whose
    index is a multiple of its step, whatever its start is: the only
    worker of a single-threaded run visits every read, and each of
    several workers visits the reads of the first one. *)
Theorem worker2_se_visits (MEM_F_PE : Z) (opt : mem_opt_t) (w : worker_t) :
  Z.land (o_flag opt) MEM_F_PE = 0 -> 1 <= w_step w ->
  worker2 MEM_F_PE opt w = round_robin 0 (w_step w) (w_n w).
Proof.
  intros Hse Hstep. unfold worker2. rewrite Hse. simpl.
  rewrite strided_filter by lia.
  rewrite Z.sub_0_r, Zmod_0_l. reflexivity.
Qed.

Lemma worker2_se_visits_witness :
  worker2 2 opt_two_threads {| w_start := 1; w_step := 2; w_n := 5 |}
  = round_robin 0 2 5.
Proof.
  apply (worker2_se_visits 2 opt_two_threads {| w_start := 1; w_step := 2; w_n := 5 |});
    [ reflexivity | simpl; lia ].
Defined.

(** With one thread pass 2 visits the reads in the order of the batch. *)
Lemma round_robin_one n : round_robin 0 1 n = seqZ 0 n.
Proof.
  unfold round_robin. induction (seqZ 0 n) as [|i l IH]; [ reflexivity | ].
  rewrite filter_cons_True by apply Z.mod_1_r. rewrite IH. reflexivity.
Qed.

Lemma lor_double_1 i : Z.lor (Z.shiftl i 1) 1 = 2 * i + 1.
Proof.
  rewrite Z.shiftl_mul_pow2 by lia. replace (i * 2 ^ 1) with (2 * i) by lia.
  apply Z.bits_inj'. intros k Hk. rewrite Z.lor_spec.
  destruct (Z.eq_dec k 0) as [->|Hne].
  - rewrite Z.testbit_even_0, Z.testbit_odd_0. reflexivity.
  - replace k with (Z.succ (k - 1)) by lia.
    rewrite Z.testbit_even_succ, Z.testbit_odd_succ by lia.
    change 1 with (2 * 0 + 1) at 2. rewrite Z.testbit_odd_succ by lia.
    rewrite Z.bits_0, orb_false_r. reflexivity.
Qed.

(** X3: in paired-end mode a worker of pass 2 visits the reads [2i] and
    [2i + 1] of every pair [i] below [n / 2] whose number is a multiple of
    its step, whatever its start is; the two reads of a pair are visited
    together, and the last read of a batch of odd size is never visited. *)
Theorem worker2_pe_visits (MEM_F_PE : Z) (opt : mem_opt_t) (w : worker_t) :
  Z.land (o_flag opt) MEM_F_PE <> 0 -> 1 <= w_step w -> 0 <= w_n w ->
  worker2 MEM_F_PE opt w
  = concat ((fun i => [2 * i; 2 * i + 1]) <$> round_robin 0 (w_step w) (w_n w / 2))
  /\ (forall i, i ∈ worker2 MEM_F_PE opt w -> 0 <= i < 2 * (w_n w / 2)).
Proof.
  intros Hpe Hstep Hn.
  assert (Heq : worker2 MEM_F_PE opt w
                = concat ((fun i => [2 * i; 2 * i + 1])
                            <$> round_robin 0 (w_step w) (w_n w / 2))).
  { unfold worker2. destruct (Z.eqb_spec (Z.land (o_flag opt) MEM_F_PE) 0); [ lia | ].
    rewrite Z.shiftr_div_pow2 by lia. change (2 ^ 1) with 2.
    rewrite strided_filter; [ | lia | lia | ].
    2:{ rewrite Z.sub_0_r. apply Z2Nat.inj_le; [ | lia | ].
        - apply Z.div_pos; lia.
        - apply Z.div_le_upper_bound; lia. }
    rewrite Z.sub_0_r, Zmod_0_l. fold (round_robin 0 (w_step w) (w_n w / 2)).
    change (map ?f ?l) with (f <$> l). f_equal.
    apply list_fmap_ext. intros _ i _.
    rewrite lor_double_1, Z.shiftl_mul_pow2 by lia. f_equal. lia. }
  split; [ exact Heq | ].
  intros i Hi. rewrite Heq in Hi.
  apply elem_of_concat in Hi as (l & Hi & Hl).
  apply list_elem_of_fmap in Hl as (k & -> & Hk).
  apply round_robin_elem in Hk as [Hk _].
  apply elem_of_cons in Hi as [->|Hi]; [ lia | ].
  apply list_elem_of_singleton in Hi. subst i. lia.
Qed.

Lemma worker2_pe_visits_witness :
  worker2 2 {| o_a := 1; o_b := 4; o_q := 6; o_r := 1; o_w := 100; o_flag := 2;
               o_min_seed_len := 19; o_max_seed_len := 32; o_min_intv := 10;
               o_max_occ := 10000; o_max_chain_gap := 10000;
               o_mask_level := (1 # 2)%Q; o_chain_drop_ratio := (1 # 2)%Q;
               o_n_threads := 1; o_mat := mem_fill_scmat 1 4 |}
          {| w_start := 0; w_step := 1; w_n := 5 |}
  = concat ((fun i => [2 * i; 2 * i + 1]) <$> round_robin 0 1 (5 / 2)).
Proof.
  apply (worker2_pe_visits 2 _ {| w_start := 0; w_step := 1; w_n := 5 |});
    simpl; [ discriminate | lia | lia ].
Defined.

(** ** The iterator and the chainer *)

(** The skip over ambiguous bases stops at the end of the query or at a
    base that is not ambiguous. *)
Lemma skip_ambiguous_stops fuel query l start :
  (Z.to_nat (l - start) <= fuel)%nat ->
  let r := skip_ambiguous fuel query l start in
  r < l -> nth (Z.to_nat r) query 0 <= 3.
Proof.
  revert start. induction fuel as [|fuel IH]; intros start Hfuel; simpl.
  - intros Hr. lia.
  - destruct (Z.ltb_spec start l) as [Hlt|Hge]; simpl; [ | lia ].
    destruct (Z.gtb_spec (nth (Z.to_nat start) query 0) 3) as [Hamb|Hok].
    + apply IH. lia.
    + intros _. exact Hok.
Qed.

(** A call of [smem_next] leaves the query and its length alone and asks
    the index, if at all, inside the read and at a base that is not
    ambiguous. *)
Lemma smem_next_queries bwt_smem1 itr max_len min_intv :
  let r := smem_next bwt_smem1 itr max_len min_intv in
  itr_query (fst (fst r)) = itr_query itr
  /\ itr_len (fst (fst r)) = itr_len itr
  /\ Forall (query_in_read (itr_len itr) (itr_query itr)) (snd r).
Proof.
  unfold smem_next.
  destruct ((itr_start itr >=? itr_len itr) || (itr_start itr <? 0)) eqn:E;
    [ simpl; auto | ].
  apply orb_false_iff in E as [E1 E2].
  rewrite Z.geb_leb in E1. apply Z.leb_gt in E1. apply Z.ltb_ge in E2.
  pose proof (skip_ambiguous_bounds (Z.to_nat (itr_len itr - itr_start itr))
                (itr_query itr) (itr_len itr) (itr_start itr) ltac:(lia)) as Hb.
  pose proof (skip_ambiguous_stops (Z.to_nat (itr_len itr - itr_start itr))
                (itr_query itr) (itr_len itr) (itr_start itr) ltac:(lia)) as Hs.
  cbv zeta in Hs |- *.
  set (start := skip_ambiguous _ _ _ _) in *.
  destruct (Z.eqb_spec start (itr_len itr)); [ simpl; auto | ].
  destruct (bwt_smem1 _ _ _ _ _) as [start' matches]. simpl.
  split; [ reflexivity | split; [ reflexivity | ] ].
  constructor; [ | constructor ]. simpl. split; [ lia | apply Hs; lia ].
Qed.

Lemma mem_insert_intv_queries bwt_sa opt (P : fm_query -> Prop) st p :
  (forall k, P (FmSa k)) -> Forall P (snd st) ->
  Forall P (snd (mem_insert_intv bwt_sa opt st p)).
Proof.
  intros Hsa Hst. unfold mem_insert_intv.
  destruct (intv_ignored opt p); [ exact Hst | ].
  revert st Hst. induction (seqZ 0 (x2 p)) as [|k ks IH]; intros st Hst;
    [ exact Hst | ].
  simpl. apply IH. simpl. apply Forall_app. split; [ exact Hst | ].
  constructor; [ apply Hsa | constructor ].
Qed.

Lemma mem_insert_batch_queries bwt_sa opt (P : fm_query -> Prop) a st :
  (forall k, P (FmSa k)) -> Forall P (snd st) ->
  Forall P (snd (foldl (mem_insert_intv bwt_sa opt) st a)).
Proof.
  intros Hsa. revert st. induction a as [|p a IH]; intros st Hst; [ exact Hst | ].
  simpl. apply IH. apply mem_insert_intv_queries; assumption.
Qed.

Lemma mem_insert_seed_queries bwt_smem1 bwt_sa fuel opt st itr r :
  mem_insert_seed bwt_smem1 bwt_sa fuel opt st itr = Some r ->
  Forall (query_in_read (itr_len itr) (itr_query itr)) (snd st) ->
  Forall (query_in_read (itr_len itr) (itr_query itr)) (snd r).
Proof.
  revert st itr. induction fuel as [|fuel IH]; intros st itr Hrun Hst;
    [ discriminate | ].
  simpl in Hrun.
  pose proof (smem_next_queries bwt_smem1 itr (o_max_seed_len opt) (o_min_intv opt))
    as (Hq & Hl & Hqs).
  destruct (smem_next bwt_smem1 itr (o_max_seed_len opt) (o_min_intv opt))
    as [[itr' [a|]] qs]; simpl in Hq, Hl, Hqs.
  - apply IH in Hrun; rewrite Hq, Hl in *; [ exact Hrun | ].
    apply mem_insert_batch_queries; [ intros k; exact I | ].
    simpl. apply Forall_app. split; assumption.
  - injection Hrun as <-. simpl. apply Forall_app. split; assumption.
Qed.

(** X4: [mem_chain] never asks the index to start a match outside the
    read or at an ambiguous base: every call of [bwt_smem1] is at a cursor
    [s] with [0 <= s < len] and [query[s] <= 3]. *)
Theorem mem_chain_queries
    (bwt_smem1 : Z -> list Z -> Z -> Z -> Z -> Z * list bwtintv_t)
    (bwt_sa : Z -> Z) (fuel : nat) (opt : mem_opt_t) (l : Z) (query : list Z)
    (chains : list mem_chain_t) (qs : list fm_query) :
  mem_chain bwt_smem1 bwt_sa fuel opt l query = Some (chains, qs) ->
  forall s, FmSmem1 s ∈ qs -> 0 <= s < l /\ nth (Z.to_nat s) query 0 <= 3.
Proof.
  intros Hrun s Hs. unfold mem_chain in Hrun.
  destruct (l <? o_min_seed_len opt).
  - injection Hrun as <- <-. inversion Hs.
  - apply mem_insert_seed_queries in Hrun; [ | constructor ].
    simpl in Hrun. rewrite Forall_forall in Hrun. exact (Hrun _ Hs).
Qed.

Lemma mem_chain_queries_witness : 0 <= 2 < 40 /\ nth (Z.to_nat 2) query_nn 0 <= 3.
Proof.
  eapply (mem_chain_queries toy_smem1 toy_sa 3 mem_opt_init 40 query_nn).
  - vm_compute. reflexivity.
  - left.
Defined.

(** Over ambiguous bases only, the skip runs to the end of the query. *)
Lemma skip_ambiguous_all fuel query l start :
  (forall i, start <= i < l -> 3 < nth (Z.to_nat i) query 0) ->
  (Z.to_nat (l - start) <= fuel)%nat -> start <= l ->
  skip_ambiguous fuel query l start = l.
Proof.
  revert start. induction fuel as [|fuel IH]; intros start Hall Hfuel Hle; simpl.
  - lia.
  - destruct (Z.ltb_spec start l) as [Hlt|Hge]; simpl; [ | lia ].
    destruct (Z.gtb_spec (nth (Z.to_nat start) query 0) 3) as [Hamb|Hok].
    + apply IH; [ | lia | lia ]. intros i Hi. apply Hall. lia.
    + specialize (Hall start ltac:(lia)). lia.
Qed.

(** X5: on a read whose bases are all ambiguous, [mem_chain] returns the
    empty chain vector after one call of [smem_next], without a query to
    the index. *)
Theorem mem_chain_all_ambiguous
    (bwt_smem1 : Z -> list Z -> Z -> Z -> Z -> Z * list bwtintv_t)
    (bwt_sa : Z -> Z) (fuel : nat) (opt : mem_opt_t) (l : Z) (query : list Z) :
  (forall i, 0 <= i < l -> 3 < nth (Z.to_nat i) query 0) ->
  mem_chain bwt_smem1 bwt_sa (S fuel) opt l query = Some ([], []).
Proof.
  intros Hall. unfold mem_chain.
  destruct (l <? o_min_seed_len opt); [ reflexivity | ].
  simpl. unfold smem_next. simpl.
  destruct (Z.geb_spec 0 l) as [Hle|Hgt]; simpl; [ reflexivity | ].
  rewrite skip_ambiguous_all; [ | intros i Hi; apply Hall; lia | lia | lia ].
  rewrite Z.eqb_refl. reflexivity.
Qed.

Lemma mem_chain_all_ambiguous_witness :
  mem_chain toy_smem1 toy_sa 1 mem_opt_init 25 query_all_n = Some ([], []).
Proof.
  apply (mem_chain_all_ambiguous toy_smem1 toy_sa 0 mem_opt_init 25 query_all_n).
  intros i Hi.
  assert (Hn : (Z.to_nat i < 25)%nat) by lia.
  unfold query_all_n. rewrite nth_lookup, (lookup_replicate_2 25 4 (Z.to_nat i) Hn).
  simpl. lia.
Defined.

(** More fuel than needed changes nothing. *)
Lemma mem_insert_seed_fuel bwt_smem1 bwt_sa fuel more opt st itr r :
  mem_insert_seed bwt_smem1 bwt_sa fuel opt st itr = Some r ->
  mem_insert_seed bwt_smem1 bwt_sa (fuel + more) opt st itr = Some r.
Proof.
  revert st itr. induction fuel as [|fuel IH]; intros st itr H; [ discriminate | ].
  simpl in H |- *.
  destruct (smem_next bwt_smem1 itr (o_max_seed_len opt) (o_min_intv opt))
    as [[itr' [a|]] qs]; [ apply IH; exact H | exact H ].
Qed.

(** X6: when every call of [bwt_smem1] moves the cursor forward,
    [mem_chain] returns after at most [len + 1] calls of [smem_next]: a
    fuel above the length of the read yields a result, and the result
    does not depend on the fuel. *)
Theorem mem_chain_returns
    (bwt_smem1 : Z -> list Z -> Z -> Z -> Z -> Z * list bwtintv_t)
    (bwt_sa : Z -> Z) (opt : mem_opt_t) (l : Z) (query : list Z) :
  (forall l query start max_len min_intv,
      start < fst (bwt_smem1 l query start max_len min_intv)) ->
  exists r, forall fuel, (Z.to_nat l < fuel)%nat ->
    mem_chain bwt_smem1 bwt_sa fuel opt l query = Some r.
Proof.
  intros Hprogress.
  destruct (mem_chain_total bwt_smem1 bwt_sa opt (S (Z.to_nat l)) l query Hprogress
              ltac:(lia)) as [r Hr].
  exists r. intros fuel Hfuel.
  replace fuel with (S (Z.to_nat l) + (fuel - S (Z.to_nat l)))%nat by lia.
  unfold mem_chain in Hr |- *.
  destruct (l <? o_min_seed_len opt); [ exact Hr | ].
  apply mem_insert_seed_fuel. exact Hr.
Qed.

Lemma mem_chain_returns_witness :
  exists r, forall fuel, (Z.to_nat 40 < fuel)%nat ->
    mem_chain toy_smem1 toy_sa fuel mem_opt_init 40 (replicate 40 0) = Some r.
Proof.
  apply (mem_chain_returns toy_smem1 toy_sa mem_opt_init 40 (replicate 40 0)).
  intros l query start max_len min_intv. simpl. lia.
Defined.

(** A property of chains that holds of a new chain and that
    [test_and_merge] keeps holds of every chain of [mem_chain]; the
    property may speak of the seeds seen so far. *)
Lemma mem_insert_one_Forall (P : list mem_seed_t -> mem_chain_t -> Prop)
    opt seen tree s :
  (forall seen c t, P seen c -> P (seen ++ [t]) c) ->
  (forall seen t, P (seen ++ [t])
                    {| chn_n := 1; chn_m := 4; chn_pos := rbeg t; chn_seeds := [t] |}) ->
  (forall seen c t, P seen c -> P (seen ++ [t]) (fst (test_and_merge opt c t))) ->
  Forall (P seen) tree -> Forall (P (seen ++ [s])) (mem_insert_one opt tree s).
Proof.
  intros Hmono Hnew Hmerge Htree.
  assert (Htree' : Forall (P (seen ++ [s])) tree).
  { eapply Forall_impl; [ exact Htree | ]. intros c. apply Hmono. }
  unfold mem_insert_one. cbv zeta.
  destruct (negb _); [ | apply kb_putp_Forall; [ assumption | apply Hnew ] ].
  destruct (kb_intervalp _ _) as [i|];
    [ | apply kb_putp_Forall; [ assumption | apply Hnew ] ].
  destruct (tree !! i) as [lower|] eqn:Hi;
    [ | apply kb_putp_Forall; [ assumption | apply Hnew ] ].
  assert (Hlower : P seen lower).
  { rewrite Forall_forall in Htree. apply Htree.
    eapply list_elem_of_lookup_2. exact Hi. }
  pose proof (Hmerge seen lower s Hlower) as Hm.
  destruct (test_and_merge opt lower s) as [lower' merged].
  destruct merged.
  - apply Forall_insert; assumption.
  - apply kb_putp_Forall; [ assumption | apply Hnew ].
Qed.

Lemma mem_chain_Forall (P : list mem_seed_t -> mem_chain_t -> Prop)
    bwt_smem1 bwt_sa fuel opt l query chains qs :
  (forall seen c t, P seen c -> P (seen ++ [t]) c) ->
  (forall seen t, P (seen ++ [t])
                    {| chn_n := 1; chn_m := 4; chn_pos := rbeg t; chn_seeds := [t] |}) ->
  (forall seen c t, P seen c -> P (seen ++ [t]) (fst (test_and_merge opt c t))) ->
  mem_chain bwt_smem1 bwt_sa fuel opt l query = Some (chains, qs) ->
  Forall (P (seed_stream bwt_smem1 bwt_sa fuel opt (smem_set_query l query))) chains.
Proof.
  intros Hmono Hnew Hmerge Hrun. unfold mem_chain in Hrun.
  destruct (l <? o_min_seed_len opt).
  - injection Hrun as <- <-. constructor.
  - apply mem_insert_seed_stream in Hrun. simpl in Hrun. subst chains.
    generalize (seed_stream bwt_smem1 bwt_sa fuel opt (smem_set_query l query)).
    intros stream.
    assert (Hgen : forall rest seen tree,
               Forall (P seen) tree ->
               Forall (P (seen ++ rest)) (foldl (mem_insert_one opt) tree rest)).
    { induction rest as [|s rest IH]; intros seen tree Htree.
      - rewrite app_nil_r. exact Htree.
      - simpl. rewrite cons_middle, app_assoc. apply IH.
        apply mem_insert_one_Forall; assumption. }
    exact (Hgen stream [] [] (List.Forall_nil _)).
Qed.

(** [test_and_merge] returns the chain as it is, or the chain with the
    seed behind its seeds, one more in [chn_n]; the seed has then passed
    the merge tests against the last seed. *)
Lemma test_and_merge_cases opt c p :
  chn_n c = Z.of_nat (length (chn_seeds c)) -> 0 < chn_n c ->
  fst (test_and_merge opt c p) = c
  \/ (exists last,
        chn_seeds c !! (length (chn_seeds c) - 1)%nat = Some last
        /\ merge_tests opt last p
        /\ fst (test_and_merge opt c p)
           = {| chn_n := chn_n c + 1;
                chn_m := if chn_n c =? chn_m c then Z.shiftl (chn_m c) 1 else chn_m c;
                chn_pos := chn_pos c;
                chn_seeds := chn_seeds c ++ [p] |}).
Proof.
  intros Hn Hpos. unfold test_and_merge. cbv zeta.
  destruct (_ && _ && _ && _); [ left; reflexivity | ].
  set (last := nth (Z.to_nat (chn_n c - 1)) (chn_seeds c) seed0).
  destruct ((rbeg p - rbeg last >=? 0)
            && (qbeg p - qbeg last - (rbeg p - rbeg last) <=? o_w opt)
            && (rbeg p - rbeg last - (qbeg p - qbeg last) <=? o_w opt)
            && (qbeg p - qbeg last - len last <? o_max_chain_gap opt)
            && (rbeg p - rbeg last - len last <? o_max_chain_gap opt)) eqn:E;
    [ | left; reflexivity ].
  right. exists last.
  repeat (apply andb_true_iff in E as [E ?]).
  split; [ | split ].
  - unfold last.
    replace (Z.to_nat (chn_n c - 1)) with (length (chn_seeds c) - 1)%nat by lia.
    destruct (nth_lookup_or_length (chn_seeds c) (length (chn_seeds c) - 1) seed0)
      as [H'|H']; [ exact H' | lia ].
  - unfold merge_tests. cbv zeta. zcases; try discriminate. lia.
  - simpl. rewrite take_ge by lia. reflexivity.
Qed.

(** X7: every chain that [mem_chain] returns has at least one seed,
    [chn_n] counts its seeds, each of its seeds is one of the seeds built
    from the matches of the iterator, and none of them is shorter than
    [min_seed_len]. *)
Theorem mem_chain_seeds
    (bwt_smem1 : Z -> list Z -> Z -> Z -> Z -> Z * list bwtintv_t)
    (bwt_sa : Z -> Z) (fuel : nat) (opt : mem_opt_t) (l : Z) (query : list Z)
    (chains : list mem_chain_t) (qs : list fm_query) :
  mem_chain bwt_smem1 bwt_sa fuel opt l query = Some (chains, qs) ->
  forall c, c ∈ chains ->
    chn_n c = Z.of_nat (length (chn_seeds c)) /\ 0 < chn_n c
    /\ forall s, s ∈ chn_seeds c ->
         s ∈ seed_stream bwt_smem1 bwt_sa fuel opt (smem_set_query l query)
         /\ o_min_seed_len opt <= len s.
Proof.
  intros Hrun c Hc.
  pose proof (mem_chain_Forall
                (fun seen c => chn_n c = Z.of_nat (length (chn_seeds c))
                               /\ 0 < chn_n c
                               /\ Forall (fun s => s ∈ seen) (chn_seeds c))
                bwt_smem1 bwt_sa fuel opt l query chains qs) as Hall.
  specialize (fun H1 H2 H3 => Hall H1 H2 H3 Hrun).
  assert (Hok : Forall (fun c => chn_n c = Z.of_nat (length (chn_seeds c))
                  /\ 0 < chn_n c
                  /\ Forall (fun s => s ∈ seed_stream bwt_smem1 bwt_sa fuel opt
                                        (smem_set_query l query)) (chn_seeds c))
                chains).
  { apply Hall.
    - intros seen c0 t (H1 & H2 & H3). split; [ exact H1 | split; [ exact H2 | ] ].
      eapply Forall_impl; [ exact H3 | ]. intros s Hs. apply elem_of_app. left. exact Hs.
    - intros seen t. simpl. split; [ reflexivity | split; [ lia | ] ].
      constructor; [ | constructor ]. apply elem_of_app. right. left.
    - intros seen c0 t (H1 & H2 & H3).
      assert (H3' : Forall (fun s => s ∈ seen ++ [t]) (chn_seeds c0)).
      { eapply Forall_impl; [ exact H3 | ].
        intros s Hs. apply elem_of_app. left. exact Hs. }
      destruct (test_and_merge_cases opt c0 t H1 H2) as [->|(last & _ & _ & ->)].
      + split; [ exact H1 | split; [ exact H2 | exact H3' ] ].
      + simpl. split; [ rewrite length_app; simpl; lia | split; [ lia | ] ].
        apply Forall_app. split; [ exact H3' | ].
        constructor; [ | constructor ]. apply elem_of_app. right. left. }
  rewrite Forall_forall in Hok. destruct (Hok c Hc) as (H1 & H2 & H3).
  split; [ exact H1 | split; [ exact H2 | ] ].
  intros s Hs. rewrite Forall_forall in H3. split; [ exact (H3 s Hs) | ].
  specialize (H3 s Hs). clear - H3.
  revert H3. generalize (smem_set_query l query). intros itr.
  revert itr. induction fuel as [|fuel IH]; intros itr Hs; simpl in Hs.
  - inversion Hs.
  - destruct (smem_next bwt_smem1 itr (o_max_seed_len opt) (o_min_intv opt))
      as [[itr' [a|]] qs']; [ | inversion Hs ].
    apply elem_of_app in Hs as [Hs|Hs]; [ | exact (IH itr' Hs) ].
    apply elem_of_concat in Hs as (ss & Hs & Hss).
    change (map ?f ?x) with (f <$> x) in Hss.
    apply list_elem_of_fmap in Hss as (p & -> & _).
    unfold intv_seeds in Hs.
    destruct (intv_ignored opt p) eqn:Hig; [ inversion Hs | ].
    change (map ?f ?x) with (f <$> x) in Hs.
    apply list_elem_of_fmap in Hs as (k & -> & _). simpl.
    unfold intv_ignored in Hig. apply orb_false_iff in Hig as [Hig _].
    apply Z.ltb_ge in Hig. exact Hig.
Qed.

Lemma mem_chain_seeds_witness :
  chn_n toy_chain_40 = Z.of_nat (length (chn_seeds toy_chain_40))
  /\ 0 < chn_n toy_chain_40
  /\ forall s, s ∈ chn_seeds toy_chain_40 ->
       s ∈ seed_stream toy_smem1 toy_sa 3 mem_opt_init
             (smem_set_query 40 (replicate 40 0))
       /\ o_min_seed_len mem_opt_init <= len s.
Proof.
  apply (mem_chain_seeds toy_smem1 toy_sa 3 mem_opt_init 40 (replicate 40 0)
           [toy_chain_40] [FmSmem1 0; FmSa 0; FmSmem1 20; FmSa 20]).
  - reflexivity.
  - left.
Defined.

(** X8: in every chain that [mem_chain] returns, the anchor [pos] is the
    reference start of the first seed, and any two consecutive seeds have
    passed the tests of [test_and_merge]: the second does not start before
    the first on the reference, their diagonals differ by at most [w],
    and the gaps behind the first on the query and on the reference are
    below [max_chain_gap].  No order of the seeds is assumed. *)
Theorem mem_chain_shape
    (bwt_smem1 : Z -> list Z -> Z -> Z -> Z -> Z * list bwtintv_t)
    (bwt_sa : Z -> Z) (fuel : nat) (opt : mem_opt_t) (l : Z) (query : list Z)
    (chains : list mem_chain_t) (qs : list fm_query) :
  mem_chain bwt_smem1 bwt_sa fuel opt l query = Some (chains, qs) ->
  forall c, c ∈ chains -> chain_shape opt c.
Proof.
  intros Hrun c Hc.
  pose proof (mem_chain_Forall (fun _ c => chain_shape opt c)
                bwt_smem1 bwt_sa fuel opt l query chains qs) as Hall.
  specialize (fun H1 H2 H3 => Hall H1 H2 H3 Hrun).
  assert (Hok : Forall (chain_shape opt) chains).
  { apply Hall.
    - intros _ c0 _ H. exact H.
    - intros _ t. split; [ reflexivity | split; [ reflexivity | split ] ].
      + reflexivity.
      + intros i x y Hx Hy. destruct i; discriminate.
    - intros _ c0 t (H1 & H2 & H3 & H4).
      destruct (test_and_merge_cases opt c0 t H1 H2) as [->|(last & Hl & Ht & ->)].
      + split; [ exact H1 | split; [ exact H2 | split; [ exact H3 | exact H4 ] ] ].
      + split; [ | split; [ | split ] ]; simpl.
        * rewrite length_app. simpl. lia.
        * lia.
        * rewrite H3. destruct (chn_seeds c0); [ simpl in H1; lia | reflexivity ].
        * intros i x y Hx Hy.
          destruct (decide (S i < length (chn_seeds c0))%nat) as [Hlt|Hge].
          -- rewrite lookup_app_l in Hx by lia. rewrite lookup_app_l in Hy by lia.
             exact (H4 i x y Hx Hy).
          -- assert (Hi : S i = length (chn_seeds c0)).
             { apply lookup_lt_Some in Hy. rewrite length_app in Hy. simpl in Hy. lia. }
             rewrite lookup_app_l in Hx by lia.
             rewrite lookup_app_r in Hy by lia.
             replace (S i - length (chn_seeds c0))%nat with 0%nat in Hy by lia.
             simpl in Hy. injection Hy as <-.
             replace i with (length (chn_seeds c0) - 1)%nat in Hx by lia.
             rewrite Hl in Hx. injection Hx as <-. exact Ht. }
  rewrite Forall_forall in Hok. exact (Hok c Hc).
Qed.

Lemma mem_chain_shape_witness : chain_shape mem_opt_init toy_chain_40.
Proof.
  apply (mem_chain_shape toy_smem1 toy_sa 3 mem_opt_init 40 (replicate 40 0)
           [toy_chain_40] [FmSmem1 0; FmSa 0; FmSmem1 20; FmSa 20]).
  - reflexivity.
  - left.
Defined.

(** X9: the seed buffer of a chain never overflows: in every chain that
    [mem_chain] returns the capacity [m] is 4 doubled some times and at
    least the number [n] of seeds, so each write to [seeds[n]] in
    [test_and_merge] was inside the buffer. *)
Theorem mem_chain_capacity
    (bwt_smem1 : Z -> list Z -> Z -> Z -> Z -> Z * list bwtintv_t)
    (bwt_sa : Z -> Z) (fuel : nat) (opt : mem_opt_t) (l : Z) (query : list Z)
    (chains : list mem_chain_t) (qs : list fm_query) :
  mem_chain bwt_smem1 bwt_sa fuel opt l query = Some (chains, qs) ->
  forall c, c ∈ chains -> chain_capacity c.
Proof.
  intros Hrun c Hc.
  pose proof (mem_chain_Forall
                (fun _ c => chn_n c = Z.of_nat (length (chn_seeds c))
                            /\ 0 < chn_n c /\ chain_capacity c)
                bwt_smem1 bwt_sa fuel opt l query chains qs) as Hall.
  specialize (fun H1 H2 H3 => Hall H1 H2 H3 Hrun).
  assert (Hok : Forall (fun c => chn_n c = Z.of_nat (length (chn_seeds c))
                                 /\ 0 < chn_n c /\ chain_capacity c) chains).
  { apply Hall.
    - intros _ c0 _ H. exact H.
    - intros _ t. split; [ reflexivity | split; [ reflexivity | ] ].
      split; [ simpl; lia | exists 0%nat; reflexivity ].
    - intros _ c0 t (H1 & H2 & H3 & k & H4).
      destruct (test_and_merge_cases opt c0 t H1 H2) as [->|(last & _ & _ & ->)].
      + split; [ exact H1 | split; [ exact H2 | ] ].
        split; [ exact H3 | exists k; exact H4 ].
      + split; [ | split; [ | split ] ]; simpl.
        * rewrite length_app. simpl. lia.
        * lia.
        * destruct (Z.eqb_spec (chn_n c0) (chn_m c0)) as [He|Hne].
          -- rewrite Z.shiftl_mul_pow2 by lia. lia.
          -- lia.
        * destruct (Z.eqb_spec (chn_n c0) (chn_m c0)) as [He|Hne].
          -- exists (S k). rewrite Z.shiftl_mul_pow2 by lia. rewrite H4.
             rewrite Nat2Z.inj_succ, Z.pow_succ_r by lia. lia.
          -- exists k. exact H4. }
  rewrite Forall_forall in Hok. destruct (Hok c Hc) as (_ & _ & H). exact H.
Qed.

Lemma mem_chain_capacity_witness : chain_capacity toy_chain_40.
Proof.
  apply (mem_chain_capacity toy_smem1 toy_sa 3 mem_opt_init 40 (replicate 40 0)
           [toy_chain_40] [FmSmem1 0; FmSa 0; FmSmem1 20; FmSa 20]).
  - reflexivity.
  - left.
Defined.

(** ** [mem_sort_and_dedup], further *)

Lemma squeeze_step_length {A} (keep : A -> bool) st i :
  length (fst (squeeze_step keep st i)) = length (fst st).
Proof.
  unfold squeeze_step. destruct (fst st !! i) as [x|]; [ | reflexivity ].
  destruct (keep x); [ | reflexivity ]. cbn [fst].
  destruct (negb _); [ apply length_insert | reflexivity ].
Qed.

Lemma squeeze_length {A} (keep : A -> bool) (i0 : nat) (a : list A) :
  length (fst (squeeze keep i0 a)) = length a.
Proof.
  unfold squeeze. generalize (seq i0 (length a - i0)). intros ks.
  transitivity (length (fst (a, i0))); [ | reflexivity ].
  generalize (a, i0). induction ks as [|i ks IH]; intros st; [ reflexivity | ].
  cbn [foldl]. rewrite IH. apply squeeze_step_length.
Qed.

(** The returned count is the number of slots that the squeeze fills. *)
Lemma squeeze_count {A} (keep : A -> bool) (i0 : nat) (a : list A) :
  (i0 <= length a)%nat ->
  snd (squeeze keep i0 a)
  = (i0 + length (filter (fun x => keep x = true) (drop i0 a)))%nat.
Proof.
  intros Hi. unfold squeeze.
  destruct (squeeze_loop keep (drop i0 a) (take i0 a) []) as [tail Ht].
  simpl in Ht. rewrite take_drop in Ht.
  rewrite length_take, length_drop in Ht.
  replace (i0 `min` length a + 0)%nat with i0 in Ht by lia.
  replace (i0 `min` length a)%nat with i0 in Ht by lia.
  rewrite Ht. cbn [fst snd]. rewrite length_app, length_take. lia.
Qed.

(** The regions that survive the marks are regions of the array, in
    their order: a marked region has an empty query span and is squeezed
    out. *)
Lemma dedup_survivors_sublist l p :
  filter (fun x => (qe x >? qb x) = true) (dedup_mark_list p l) `sublist_of` l.
Proof.
  revert p. induction l as [|x l IH]; intros p; [ constructor | ].
  cbn [dedup_mark_list]. cbv zeta.
  destruct (same_hit x p).
  - rewrite filter_cons_False.
    + apply sublist_cons, IH.
    + simpl. rewrite Z.gtb_ltb, Z.ltb_irrefl. discriminate.
  - destruct (qe x >? qb x) eqn:Hlive.
    + rewrite filter_cons_True by exact Hlive. apply sublist_skip, IH.
    + rewrite filter_cons_False by (rewrite Hlive; discriminate).
      apply sublist_cons, IH.
Qed.

(** The survivors of [mem_sort_and_dedup], read off the sorted array. *)
Lemma mem_sort_and_dedup_survivors sort a :
  (1 < length (sort a))%nat -> (1 < length a)%nat ->
  exists p l, sort a = p :: l
    /\ let r := mem_sort_and_dedup sort a in
       take (fst r) (snd r)
       = p :: filter (fun x => (qe x >? qb x) = true) (dedup_mark_list p l)
       /\ fst r = length (take (fst r) (snd r)).
Proof.
  intros Hs Ha. unfold mem_sort_and_dedup.
  destruct (Nat.leb_spec (length a) 1) as [Hle|_]; [ lia | ].
  cbv zeta. destruct (sort a) as [|p l]; [ simpl in Hs; lia | ].
  exists p, l. split; [ reflexivity | ].
  rewrite dedup_mark_cons.
  pose proof (squeeze_take (fun x => qe x >? qb x) 1
                (p :: dedup_mark_list p l) ltac:(simpl; lia)) as Ht.
  pose proof (squeeze_count (fun x => qe x >? qb x) 1
                (p :: dedup_mark_list p l) ltac:(simpl; lia)) as Hc.
  destruct (squeeze _ 1 (p :: dedup_mark_list p l)) as [a' m].
  cbn [fst snd] in Ht, Hc |- *. rewrite Ht. cbn [take drop app] in Hc |- *.
  split; [ reflexivity | ]. simpl. lia.
Qed.

(** X10: the regions that [mem_sort_and_dedup] returns are regions of its
    input, unchanged and none more often than in the input; their number
    is the returned count, which is at most [n] and at least 1 on a
    non-empty array.  [ks_introsort] is any function that permutes its
    argument. *)
Theorem mem_sort_and_dedup_subset
    (ks_introsort_mem_ars : list mem_alnreg_t -> list mem_alnreg_t)
    (a : list mem_alnreg_t) :
  (forall l, ks_introsort_mem_ars l ≡ₚ l) ->
  let r := mem_sort_and_dedup ks_introsort_mem_ars a in
  take (fst r) (snd r) ⊆+ a
  /\ fst r = length (take (fst r) (snd r))
  /\ (fst r <= length a)%nat
  /\ (a <> [] -> (1 <= fst r)%nat).
Proof.
  intros Hperm.
  destruct (Nat.leb_spec (length a) 1) as [Hle|Hgt].
  - unfold mem_sort_and_dedup.
    destruct (Nat.leb_spec (length a) 1) as [_|Hgt]; [ | lia ].
    cbn [fst snd]. rewrite firstn_all.
    split; [ reflexivity | split; [ reflexivity | split; [ lia | ] ] ].
    intros Hne. destruct a; [ congruence | simpl; lia ].
  - assert (Hs : (1 < length (ks_introsort_mem_ars a))%nat) by (rewrite Hperm; lia).
    destruct (mem_sort_and_dedup_survivors ks_introsort_mem_ars a Hs Hgt)
      as (p & l & Hpl & Ht & Hc).
    cbv zeta. rewrite Ht in Hc |- *.
    assert (Hsub : p :: filter (fun x => (qe x >? qb x) = true) (dedup_mark_list p l)
                   ⊆+ a).
    { rewrite <- (Hperm a), Hpl. apply sublist_submseteq, sublist_skip.
      apply dedup_survivors_sublist. }
    split; [ exact Hsub | split; [ exact Hc | split ] ].
    + rewrite Hc. apply submseteq_length. exact Hsub.
    + intros _. rewrite Hc. simpl. lia.
Qed.

Lemma mem_sort_and_dedup_subset_witness :
  let r := mem_sort_and_dedup sort_mem_ars regions_dup in
  take (fst r) (snd r) ⊆+ regions_dup
  /\ fst r = length (take (fst r) (snd r))
  /\ (fst r <= length regions_dup)%nat
  /\ (regions_dup <> [] -> (1 <= fst r)%nat).
Proof.
  apply (mem_sort_and_dedup_subset sort_mem_ars regions_dup).
  intros l. apply merge_sort_Permutation.
Defined.

(** Behind [p], every region has the key of [p] or the key of a region
    that survives the marks, when no region has an empty query span. *)
Lemma dedup_keys_kept l p :
  Forall (fun x => qb x < qe x) l ->
  forall x, x ∈ l ->
    region_key x = region_key p
    \/ exists y, y ∈ filter (fun x => (qe x >? qb x) = true) (dedup_mark_list p l)
                 /\ region_key y = region_key x.
Proof.
  intros Hlive. revert p. induction Hlive as [|h l Hh _ IH]; intros p x Hx.
  - inversion Hx.
  - cbn [dedup_mark_list]. cbv zeta.
    assert (Hkey : forall q, same_hit h q = true -> region_key h = region_key q).
    { intros q Hq. apply same_hit_iff in Hq as (H1 & H2 & H3).
      unfold region_key. congruence. }
    apply elem_of_cons in Hx as [->|Hx].
    + destruct (same_hit h p) eqn:Hsame; [ left; apply Hkey; exact Hsame | ].
      right. exists h. split; [ | reflexivity ].
      rewrite filter_cons_True by (rewrite Z.gtb_ltb; apply Z.ltb_lt; exact Hh).
      left.
    + destruct (same_hit h p) eqn:Hsame.
      * destruct (IH (set_qe h (qb h)) x Hx) as [Hk|(y & Hy & Hk)].
        -- left. rewrite Hk. unfold region_key. simpl.
           apply (Hkey p Hsame).
        -- right. exists y. split; [ | exact Hk ].
           rewrite filter_cons_False; [ exact Hy | ].
           simpl. rewrite Z.gtb_ltb, Z.ltb_irrefl. discriminate.
      * rewrite filter_cons_True by (rewrite Z.gtb_ltb; apply Z.ltb_lt; exact Hh).
        destruct (IH h x Hx) as [Hk|(y & Hy & Hk)].
        -- right. exists h. split; [ left | symmetry; exact Hk ].
        -- right. exists y. split; [ right; exact Hy | exact Hk ].
Qed.

(** X11: [mem_sort_and_dedup] loses no hit: when no region of the input
    has an empty query span ([qb < qe]), the triple [(score, rb, qb)] of
    every input region is the triple of a region that is returned. *)
Theorem mem_sort_and_dedup_keys
    (ks_introsort_mem_ars : list mem_alnreg_t -> list mem_alnreg_t)
    (a : list mem_alnreg_t) :
  (forall l, ks_introsort_mem_ars l ≡ₚ l) ->
  Forall (fun x => qb x < qe x) a ->
  let r := mem_sort_and_dedup ks_introsort_mem_ars a in
  forall x, x ∈ a ->
    exists y, y ∈ take (fst r) (snd r) /\ region_key y = region_key x.
Proof.
  intros Hperm Hlive r x Hx. unfold r.
  destruct (Nat.leb_spec (length a) 1) as [Hle|Hgt].
  - unfold mem_sort_and_dedup.
    destruct (Nat.leb_spec (length a) 1) as [_|Hgt]; [ | lia ].
    cbn [fst snd]. rewrite firstn_all. exists x. split; [ exact Hx | reflexivity ].
  - assert (Hs : (1 < length (ks_introsort_mem_ars a))%nat) by (rewrite Hperm; lia).
    destruct (mem_sort_and_dedup_survivors ks_introsort_mem_ars a Hs Hgt)
      as (p & l & Hpl & Ht & _).
    cbv zeta in Ht. rewrite Ht.
    rewrite <- (Hperm a), Hpl in Hx, Hlive.
    apply Forall_cons in Hlive as [_ Hlive].
    apply elem_of_cons in Hx as [->|Hx].
    + exists p. split; [ left | reflexivity ].
    + destruct (dedup_keys_kept l p Hlive x Hx) as [Hk|(y & Hy & Hk)].
      * exists p. split; [ left | symmetry; exact Hk ].
      * exists y. split; [ right; exact Hy | exact Hk ].
Qed.

Lemma mem_sort_and_dedup_keys_witness :
  let r := mem_sort_and_dedup sort_mem_ars regions_4 in
  Forall (fun x => exists y, y ∈ take (fst r) (snd r) /\ region_key y = region_key x)
         regions_4.
Proof.
  apply Forall_forall.
  apply (mem_sort_and_dedup_keys sort_mem_ars regions_4).
  - intros l. apply merge_sort_Permutation.
  - repeat constructor.
Defined.

(** ** [mem_mark_primary_se], further *)

(** A projection that the writes of the inner loop leave alone is the
    same before and after the loop. *)
Lemma primary_scan_fmap {B} (f : mem_alnreg_t -> B) fc opt tmp i z fuel k a :
  (forall x v, f (set_sub x v) = f x) ->
  (forall x v, f (set_sub_n x v) = f x) ->
  f <$> fst (primary_scan fc opt tmp i z fuel k a) = f <$> a.
Proof.
  intros Hsub Hsubn. revert k a. induction fuel as [|fuel IH]; intros k a; simpl.
  - reflexivity.
  - destruct (z !! k) as [j|]; [ | reflexivity ].
    destruct (a !! j) as [aj|] eqn:Hj; [ | reflexivity ].
    destruct (a !! i) as [ai|]; [ | reflexivity ].
    destruct (primary_overlap aj ai); [ | apply IH ].
    destruct (primary_significant fc opt aj ai); [ | apply IH ].
    simpl. rewrite list_fmap_insert. apply list_insert_id.
    rewrite list_lookup_fmap, Hj. simpl. f_equal.
    destruct (sub aj =? 0); destruct (_ <=? tmp); rewrite ?Hsubn, ?Hsub; reflexivity.
Qed.

Lemma primary_step_fmap {B} (f : mem_alnreg_t -> B) fc opt tmp a z i :
  (forall x v, f (set_sub x v) = f x) ->
  (forall x v, f (set_sub_n x v) = f x) ->
  (forall x v, f (set_secondary x v) = f x) ->
  f <$> fst (primary_step fc opt tmp (a, z) i) = f <$> a.
Proof.
  intros Hsub Hsubn Hsec. unfold primary_step. cbv zeta.
  pose proof (primary_scan_fmap f fc opt tmp i z (length z) 0 a Hsub Hsubn) as Hs.
  destruct (primary_scan fc opt tmp i z (length z) 0 a) as [a' k]. cbn [fst] in Hs.
  destruct (Nat.eqb k (length z)); [ exact Hs | ].
  destruct (a' !! i) as [ai|] eqn:Hai; [ | exact Hs ].
  destruct (z !! k); [ | exact Hs ].
  cbn [fst]. rewrite list_fmap_insert, Hsec, <- Hs. apply list_insert_id.
  rewrite list_lookup_fmap, Hai. reflexivity.
Qed.

Lemma primary_loop_fmap {B} (f : mem_alnreg_t -> B) fc opt tmp ks a z :
  (forall x v, f (set_sub x v) = f x) ->
  (forall x v, f (set_sub_n x v) = f x) ->
  (forall x v, f (set_secondary x v) = f x) ->
  f <$> fst (foldl (primary_step fc opt tmp) (a, z) ks) = f <$> a.
Proof.
  intros Hsub Hsubn Hsec. revert a z.
  induction ks as [|i ks IH]; intros a z; [ reflexivity | ].
  cbn [foldl].
  pose proof (primary_step_fmap f fc opt tmp a z i Hsub Hsubn Hsec) as Hs.
  destruct (primary_step fc opt tmp (a, z) i) as [a' z']. rewrite IH. exact Hs.
Qed.

Lemma mem_mark_primary_se_fmap {B} (f : mem_alnreg_t -> B) fc opt a :
  (forall x v, f (set_sub x v) = f x) ->
  (forall x v, f (set_sub_n x v) = f x) ->
  (forall x v, f (set_secondary x v) = f x) ->
  f <$> mem_mark_primary_se fc opt a = f <$> a.
Proof.
  intros Hsub Hsubn Hsec. unfold mem_mark_primary_se.
  destruct (Nat.eqb (length a) 0); [ reflexivity | ].
  cbv zeta. rewrite primary_loop_fmap by assumption.
  change (map ?g a) with (g <$> a). rewrite <- list_fmap_compose.
  apply list_fmap_ext. intros _ x _. simpl. rewrite Hsec, Hsub. reflexivity.
Qed.

(** X12: [mem_mark_primary_se] writes the fields [sub], [sub_n] and
    [secondary] only: the coordinates, the score, [csub] and [seedcov] of
    every region are what they were, region by region. *)
Theorem mem_mark_primary_se_core
    (fc : float_cmp) (opt : mem_opt_t) (a : list mem_alnreg_t) :
  region_core <$> mem_mark_primary_se fc opt a = region_core <$> a.
Proof.
  apply mem_mark_primary_se_fmap; reflexivity.
Qed.

Lemma primary_dominates_span fc opt y x y' x' :
  span y = span y' -> span x = span x' ->
  primary_dominates fc opt y x = primary_dominates fc opt y' x'.
Proof.
  unfold span, primary_dominates, primary_overlap, primary_significant.
  intros [= -> ->] [= -> ->]. reflexivity.
Qed.

Lemma span_dominates_ext fc opt sp sp' j k :
  span <$> sp = span <$> sp' ->
  span_dominates fc opt sp j k = span_dominates fc opt sp' j k.
Proof.
  intros Hsp. unfold span_dominates.
  assert (Hl : forall n, span <$> (sp !! n) = span <$> (sp' !! n)).
  { intros n. rewrite <- !list_lookup_fmap, Hsp. reflexivity. }
  pose proof (Hl j) as Hj. pose proof (Hl k) as Hk.
  destruct (sp !! j) as [y|], (sp' !! j) as [y'|]; try discriminate;
    destruct (sp !! k) as [x|], (sp' !! k) as [x'|]; try discriminate;
    try reflexivity.
  simpl in Hj, Hk. apply primary_dominates_span; unfold span in *; congruence.
Qed.

(** The inner loop stops at the first element of [z] that overlaps
    region [i] significantly, or runs to the end of [z]. *)
Lemma primary_scan_first fc opt tmp i z fuel k a :
  (fuel = length z - k)%nat ->
  let r := primary_scan fc opt tmp i z fuel k a in
  (forall j, j ∈ z -> (j < length a)%nat) -> (i < length a)%nat ->
  (forall k' j, (k <= k' < snd r)%nat -> z !! k' = Some j ->
      span_dominates fc opt a j i = false)
  /\ ((snd r < length z)%nat ->
      exists j, z !! snd r = Some j /\ span_dominates fc opt a j i = true)
  /\ (k <= length z -> snd r <= length z)%nat.
Proof.
  intros Hfuel r Hz Hi. subst r. revert k Hfuel.
  induction fuel as [|fuel IH]; intros k Hfuel; simpl.
  - split; [ intros; lia | split; [ lia | lia ] ].
  - destruct (z !! k) as [j|] eqn:Hk;
      [ | apply lookup_ge_None in Hk; lia ].
    assert (Hjz : j ∈ z) by (eapply list_elem_of_lookup_2; exact Hk).
    destruct (lookup_lt_is_Some_2 a j (Hz j Hjz)) as [aj Haj].
    destruct (lookup_lt_is_Some_2 a i Hi) as [ai Hai].
    rewrite Haj, Hai.
    assert (Hdom : span_dominates fc opt a j i
                   = primary_overlap aj ai && primary_significant fc opt aj ai).
    { unfold span_dominates. rewrite Haj, Hai. reflexivity. }
    destruct (primary_overlap aj ai) eqn:Hov;
      [ destruct (primary_significant fc opt aj ai) eqn:Hsig | ].
    + simpl. split; [ intros; lia | split; [ | lia ] ].
      intros _. exists j. split; [ exact Hk | exact Hdom ].
    + destruct (IH (S k) ltac:(lia)) as (H1 & H2 & H3).
      split; [ | split; [ exact H2 | intros; apply H3; apply lookup_lt_Some in Hk; lia ] ].
      intros k' j' Hk' Hj'. destruct (decide (k' = k)) as [->|Hne].
      * rewrite Hk in Hj'. injection Hj' as <-. exact Hdom.
      * apply (H1 k' j'); [ lia | exact Hj' ].
    + destruct (IH (S k) ltac:(lia)) as (H1 & H2 & H3).
      split; [ | split; [ exact H2 | intros; apply H3; apply lookup_lt_Some in Hk; lia ] ].
      intros k' j' Hk' Hj'. destruct (decide (k' = k)) as [->|Hne].
      * rewrite Hk in Hj'. injection Hj' as <-. exact Hdom.
      * apply (H1 k' j'); [ lia | exact Hj' ].
Qed.

(** One turn of the outer loop, with what the inner loop found. *)
Lemma primary_step_first fc opt tmp a z i :
  (forall j, j ∈ z -> (j < length a)%nat) -> (i < length a)%nat ->
  let r := primary_step fc opt tmp (a, z) i in
  (snd r = z ++ [i] /\ secondary <$> fst r = secondary <$> a
   /\ forall j, j ∈ z -> span_dominates fc opt a j i = false)
  \/ (snd r = z /\ exists k j, z !! k = Some j
        /\ secondary <$> fst r = <[i:=Z.of_nat j]> (secondary <$> a)
        /\ span_dominates fc opt a j i = true
        /\ forall k' j', (k' < k)%nat -> z !! k' = Some j' ->
             span_dominates fc opt a j' i = false).
Proof.
  intros Hz Hi. unfold primary_step. cbv zeta.
  pose proof (primary_scan_secondary fc opt tmp i z (length z) 0 a) as [Hsec _].
  pose proof (primary_scan_length fc opt tmp i z (length z) 0 a) as Hlen.
  pose proof (primary_scan_first fc opt tmp i z (length z) 0 a ltac:(lia)) as Hf.
  cbv zeta in Hf. specialize (Hf Hz Hi). destruct Hf as (H1 & H2 & H3).
  destruct (primary_scan fc opt tmp i z (length z) 0 a) as [a' k]. simpl in *.
  destruct (Nat.eqb_spec k (length z)) as [Heq|Hne].
  - left. simpl. split; [ reflexivity | split; [ exact Hsec | ] ].
    intros j Hj. apply list_elem_of_lookup in Hj as [k' Hk'].
    apply (H1 k' j); [ | exact Hk' ]. apply lookup_lt_Some in Hk'. lia.
  - right.
    destruct (H2 ltac:(lia)) as (j & Hj & Hdom).
    destruct (lookup_lt_is_Some_2 a' i ltac:(lia)) as [ai Hai].
    rewrite Hai, Hj. simpl. split; [ reflexivity | ].
    exists k, j. split; [ exact Hj | ]. split.
    + rewrite list_fmap_insert. simpl. rewrite Hsec. reflexivity.
    + split; [ exact Hdom | ]. intros k' j' Hk' Hj'. apply (H1 k' j'); [ lia | exact Hj' ].
Qed.

Lemma primary_marks_inv_push fc opt sp sec z i :
  primary_marks_inv fc opt sp sec z i -> (i < length sec)%nat ->
  (forall j, j ∈ z -> span_dominates fc opt sp j i = false) ->
  primary_marks_inv fc opt sp sec (z ++ [i]) (S i).
Proof.
  intros (I1 & I2 & I3 & I4 & I5) Hi Hdom.
  split; [ | split; [ | split; [ | split ] ] ].
  - apply StronglySorted_app_2; [ | exact I1 | repeat constructor ].
    intros j y Hj Hy. apply list_elem_of_singleton in Hy. subst y.
    apply I2 in Hj. lia.
  - intros j. rewrite elem_of_app, list_elem_of_singleton, I2. split.
    + intros [[Hlt Hs]| ->]; [ split; [ lia | exact Hs ] | ].
      split; [ lia | apply I5; lia ].
    + intros [Hlt Hs]. destruct (decide (j = i)) as [->|Hne]; [ right; reflexivity | ].
      left. split; [ lia | exact Hs ].
  - intros k Hk Hs j Hj Hsj. destruct (decide (k = i)) as [->|Hne].
    + apply Hdom, I2. split; assumption.
    + apply (I3 k); [ lia | assumption .. ].
  - intros k v Hk Hv Hneq. destruct (decide (k = i)) as [->|Hne].
    + rewrite (I5 i) in Hv by lia. congruence.
    + apply (I4 k v); [ lia | assumption .. ].
  - intros k Hk Hlen. apply I5; lia.
Qed.

Lemma primary_marks_inv_link fc opt sp sec z i k j :
  primary_marks_inv fc opt sp sec z i -> (i < length sec)%nat ->
  z !! k = Some j -> span_dominates fc opt sp j i = true ->
  (forall k' j', (k' < k)%nat -> z !! k' = Some j' ->
     span_dominates fc opt sp j' i = false) ->
  primary_marks_inv fc opt sp (<[i:=Z.of_nat j]> sec) z (S i).
Proof.
  intros (I1 & I2 & I3 & I4 & I5) Hi Hk Hdom Hfirst.
  assert (Hjz : j ∈ z) by (eapply list_elem_of_lookup_2; exact Hk).
  destruct (proj1 (I2 j) Hjz) as [Hji Hjs].
  split; [ exact I1 | split; [ | split; [ | split ] ] ].
  - intros j0. rewrite I2. split.
    + intros [Hlt Hs]. split; [ lia | ]. rewrite list_lookup_insert_ne by lia. exact Hs.
    + intros [Hlt Hs]. destruct (decide (j0 = i)) as [->|Hne].
      * rewrite list_lookup_insert_eq in Hs by lia. injection Hs as Hs. lia.
      * rewrite list_lookup_insert_ne in Hs by lia. split; [ lia | exact Hs ].
  - intros k0 Hk0 Hs j0 Hj0 Hsj. destruct (decide (k0 = i)) as [->|Hne].
    + rewrite list_lookup_insert_eq in Hs by lia. injection Hs as Hs. lia.
    + rewrite list_lookup_insert_ne in Hs, Hsj by lia.
      apply (I3 k0); [ lia | assumption .. ].
  - intros k0 v Hk0 Hv Hneq. destruct (decide (k0 = i)) as [->|Hne].
    + rewrite list_lookup_insert_eq in Hv by lia. injection Hv as <-.
      exists j. split; [ reflexivity | split; [ exact Hji | ] ].
      rewrite list_lookup_insert_ne by lia.
      split; [ exact Hjs | split; [ exact Hdom | ] ].
      intros j' Hj' Hsj'. rewrite list_lookup_insert_ne in Hsj' by lia.
      assert (Hj'z : j' ∈ z) by (apply I2; split; [ lia | exact Hsj' ]).
      apply list_elem_of_lookup in Hj'z as [k' Hk'].
      apply (Hfirst k' j'); [ | exact Hk' ].
      destruct (Nat.lt_ge_cases k' k) as [Hlt|Hge]; [ exact Hlt | ].
      destruct (decide (k' = k)) as [->|Hne]; [ rewrite Hk in Hk'; injection Hk' as <-; lia | ].
      pose proof (StronglySorted_lookup lt z k k' j j' I1 ltac:(lia) Hk Hk'). lia.
    + rewrite list_lookup_insert_ne in Hv by lia.
      destruct (I4 k0 v ltac:(lia) Hv Hneq) as (j0 & -> & Hlt & Hs0 & Hd0 & Hf0).
      exists j0. split; [ reflexivity | split; [ exact Hlt | ] ].
      rewrite list_lookup_insert_ne by lia.
      split; [ exact Hs0 | split; [ exact Hd0 | ] ].
      intros j' Hj' Hsj'. rewrite list_lookup_insert_ne in Hsj' by lia.
      apply Hf0; assumption.
  - intros k0 Hk0 Hlen. rewrite length_insert in Hlen.
    rewrite list_lookup_insert_ne by lia. apply I5; lia.
Qed.

Lemma primary_marks_loop fc opt tmp sp n i a z :
  (i + n <= length a)%nat ->
  span <$> a = span <$> sp ->
  primary_marks_inv fc opt sp (secondary <$> a) z i ->
  let r := foldl (primary_step fc opt tmp) (a, z) (seq i n) in
  primary_marks_inv fc opt sp (secondary <$> fst r) (snd r) (i + n).
Proof.
  revert i a z. induction n as [|n IH]; intros i a z Hlen Hsp Hinv.
  - simpl. rewrite Nat.add_0_r. exact Hinv.
  - cbn [seq foldl].
    assert (Hz : forall j, j ∈ z -> (j < length a)%nat).
    { intros j Hj. apply (proj1 (proj2 Hinv)) in Hj. lia. }
    pose proof (primary_step_first fc opt tmp a z i Hz ltac:(lia)) as Hstep.
    pose proof (primary_step_length fc opt tmp a z i) as Hlen'.
    pose proof (primary_step_fmap span fc opt tmp a z i
                  ltac:(reflexivity) ltac:(reflexivity) ltac:(reflexivity)) as Hsp'.
    cbv zeta in Hstep.
    destruct (primary_step fc opt tmp (a, z) i) as [a' z']. cbn [fst snd] in *.
    replace (i + S n)%nat with (S i + n)%nat by lia.
    apply IH; [ lia | congruence | ].
    destruct Hstep as [(-> & -> & Hd)|(-> & k & j & Hk & -> & Hd & Hf)].
    + apply primary_marks_inv_push; [ exact Hinv | rewrite length_fmap; lia | ].
      intros j Hj. rewrite <- (span_dominates_ext fc opt a sp) by exact Hsp. apply Hd, Hj.
    + apply (primary_marks_inv_link fc opt sp _ z i k j);
        [ exact Hinv | rewrite length_fmap; lia | exact Hk | | ].
      * rewrite <- (span_dominates_ext fc opt a sp) by exact Hsp. exact Hd.
      * intros k' j' Hk' Hj'.
        rewrite <- (span_dominates_ext fc opt a sp) by exact Hsp. apply (Hf k' j'); assumption.
Qed.

(** X13: what the marks of [mem_mark_primary_se] mean.  In the array it
    leaves, a region with [secondary == -1] is overlapped significantly
    (the two tests of the inner loop) by no earlier region with
    [secondary == -1]; every other region has in [secondary] the index
    of an earlier region with [secondary == -1] that overlaps it
    significantly, and of the first such region.  The test in floating
    point is the parameter [fc]: this holds however the machine rounds
    the product [min_l * mask_level]. *)
Theorem mem_mark_primary_se_marks
    (fc : float_cmp) (opt : mem_opt_t) (a : list mem_alnreg_t) :
  primary_marks fc opt (mem_mark_primary_se fc opt a).
Proof.
  destruct a as [|x0 a1] eqn:Ha; [ intros i x Hx; discriminate | ].
  rewrite <- Ha. assert (Hpos : (0 < length a)%nat) by (subst a; simpl; lia).
  clear Ha x0 a1.
  pose proof (mem_mark_primary_se_fmap span fc opt a
                ltac:(reflexivity) ltac:(reflexivity) ltac:(reflexivity)) as Hsp.
  pose proof (mem_mark_primary_se_length fc opt a) as Hlen.
  assert (Hinv : primary_marks_inv fc opt a (secondary <$> mem_mark_primary_se fc opt a)
                   (snd (foldl (primary_step fc opt
                      (if o_a opt + o_b opt >? o_q opt + o_r opt
                       then o_a opt + o_b opt else o_q opt + o_r opt))
                      (map (fun x => set_secondary (set_sub x 0) (-1)) a, [0%nat])
                      (seq 1 (length a - 1))))
                   (length a)).
  { unfold mem_mark_primary_se.
    destruct (Nat.eqb_spec (length a) 0) as [H0|_]; [ lia | ]. cbv zeta.
    set (a0 := map (fun x => set_secondary (set_sub x 0) (-1)) a).
    assert (Hlen0 : length a0 = length a) by apply length_map.
    assert (Hall : forall k, (k < length a)%nat -> (secondary <$> a0) !! k = Some (-1)).
    { intros k Hk. destruct (lookup_lt_is_Some_2 a k Hk) as [x Hx].
      unfold a0. change (map ?f a) with (f <$> a).
      rewrite !list_lookup_fmap, Hx. reflexivity. }
    rewrite Hlen0.
    replace (length a) with (1 + (length a - 1))%nat at 3 by lia.
    apply primary_marks_loop; [ lia | | ].
    - unfold a0. change (map ?f a) with (f <$> a). rewrite <- list_fmap_compose.
      apply list_fmap_ext. intros _ x _. reflexivity.
    - split; [ repeat constructor | split; [ | split; [ | split ] ] ].
      + intros j. rewrite list_elem_of_singleton. split.
        * intros ->. split; [ lia | apply Hall; lia ].
        * intros [Hj _]. lia.
      + intros k Hk _ j Hj. lia.
      + intros k v Hk Hv Hneq. rewrite Hall in Hv by lia. congruence.
      + intros k _ Hk. rewrite length_fmap, Hlen0 in Hk. apply Hall, Hk. }
  destruct Hinv as (_ & _ & I3 & I4 & _).
  set (a' := mem_mark_primary_se fc opt a) in *.
  assert (Hdom : forall j k y x, a' !! j = Some y -> a' !! k = Some x ->
                   span_dominates fc opt a j k = primary_dominates fc opt y x).
  { intros j k y x Hy Hx. rewrite <- (span_dominates_ext fc opt a' a) by exact Hsp.
    unfold span_dominates. rewrite Hy, Hx. reflexivity. }
  assert (Hsec : forall k x, a' !! k = Some x ->
                   (secondary <$> a') !! k = Some (secondary x)).
  { intros k x Hx. rewrite list_lookup_fmap, Hx. reflexivity. }
  intros i x Hx.
  assert (Hi : (i < length a)%nat) by (apply lookup_lt_Some in Hx; lia).
  destruct (decide (secondary x = -1)) as [Hm|Hm].
  - left. split; [ exact Hm | ]. intros j y Hj Hy Hsy.
    rewrite <- (Hdom j i y x Hy Hx). apply (I3 i Hi).
    + rewrite (Hsec i x Hx), Hm. reflexivity.
    + exact Hj.
    + rewrite (Hsec j y Hy), Hsy. reflexivity.
  - right. destruct (I4 i (secondary x) Hi (Hsec i x Hx) Hm)
      as (j & Hv & Hlt & Hsj & Hd & Hf).
    apply list_lookup_fmap_Some in Hsj as (y & Hsy & Hy).
    exists j, y. split; [ exact Hv | split; [ exact Hlt | split; [ exact Hy | ] ] ].
    split; [ symmetry; exact Hsy | split ].
    + rewrite <- (Hdom j i y x Hy Hx). exact Hd.
    + intros j' y' Hj' Hy' Hsy'. rewrite <- (Hdom j' i y' x Hy' Hx).
      apply Hf; [ exact Hj' | ]. rewrite (Hsec j' y' Hy'), Hsy'. reflexivity.
Qed.

(** ** [bwa_gen_cigar], further *)

Lemma swap_at_length i j x : length (swap_at i j x) = length x.
Proof.
  unfold swap_at. destruct (x !! i), (x !! j); rewrite ?length_insert; reflexivity.
Qed.

Lemma swap_loop_length (m : nat) (ks : list nat) (x : list Z) :
  length (foldl (fun x i => swap_at i (m - i)%nat x) x ks) = length x.
Proof.
  revert x. induction ks as [|k ks IH]; intros x; [ reflexivity | ].
  cbn [foldl]. rewrite IH. apply swap_at_length.
Qed.

Lemma reverse_in_place_length l x : length (reverse_in_place l x) = length x.
Proof. apply swap_loop_length. Qed.

(** The array after [k] turns of the swap loop over the first [n]
    elements: the first [k] and the last [k] of them are mirrored. *)
Lemma reverse_in_place_turns (n : nat) (x : list Z) (k : nat) :
  (n <= length x)%nat -> (2 * k <= n)%nat ->
  forall p,
    foldl (fun x i => swap_at i (n - 1 - i)%nat x) x (seq 0 k) !! p
    = if ((p <? k) || ((n - 1 - k <? p) && (p <? n)))%nat
      then x !! (n - 1 - p)%nat else x !! p.
Proof.
  intros Hn. induction k as [|k IH]; intros Hk p.
  - simpl. destruct (Nat.ltb_spec (n - 1 - 0) p); [ | reflexivity ].
    destruct (Nat.ltb_spec p n); [ lia | reflexivity ].
  - rewrite seq_S, foldl_app. cbn [foldl Nat.add].
    set (st := foldl _ x (seq 0 k)) in *.
    specialize (IH ltac:(lia)).
    assert (Hlen : length st = length x) by apply (swap_loop_length (n - 1)).
    unfold swap_at.
    destruct (lookup_lt_is_Some_2 st k ltac:(lia)) as [xk Hxk].
    destruct (lookup_lt_is_Some_2 st (n - 1 - k)%nat ltac:(lia)) as [xm Hxm].
    rewrite Hxk, Hxm.
    rewrite IH in Hxk, Hxm.
    destruct (Nat.ltb_spec k k) as [?|_]; [ lia | ].
    destruct (Nat.ltb_spec (n - 1 - k) k) as [?|_]; [ lia | ].
    destruct (Nat.ltb_spec (n - 1 - k) (n - 1 - k)) as [?|_]; [ lia | ].
    destruct (Nat.ltb_spec (n - 1 - k) k) as [?|_]; [ lia | ].
    simpl in Hxk, Hxm.
    destruct (decide (p = (n - 1 - k)%nat)) as [->|Hp1].
    + rewrite list_lookup_insert_eq by (rewrite length_insert; lia).
      destruct (Nat.ltb_spec (n - 1 - k) (S k)); simpl;
        destruct (Nat.ltb_spec (n - 1 - S k) (n - 1 - k)); simpl;
        destruct (Nat.ltb_spec (n - 1 - k) n); simpl; try lia;
        rewrite <- Hxk; f_equal; lia.
    + rewrite list_lookup_insert_ne by lia.
      destruct (decide (p = k)) as [->|Hp2].
      * rewrite list_lookup_insert_eq by lia.
        destruct (Nat.ltb_spec k (S k)); [ | lia ]. simpl. symmetry. exact Hxm.
      * rewrite list_lookup_insert_ne by lia. rewrite IH.
        destruct (Nat.ltb_spec p k), (Nat.ltb_spec p (S k)); try lia; simpl;
          try reflexivity;
          destruct (Nat.ltb_spec (n - 1 - k) p), (Nat.ltb_spec (n - 1 - S k) p);
          try lia; simpl; reflexivity.
Qed.

(** The swap loop mirrors the first [l] elements and leaves the others. *)
Lemma reverse_in_place_lookup (l : Z) (x : list Z) (p : nat) :
  l <= Z.of_nat (length x) ->
  reverse_in_place l x !! p
  = if (p <? Z.to_nat l)%nat then x !! (Z.to_nat l - 1 - p)%nat else x !! p.
Proof.
  intros Hl. unfold reverse_in_place.
  destruct (Z.le_gt_cases l 0) as [Hneg|Hpos].
  - replace (Z.to_nat (Z.shiftr l 1)) with 0%nat.
    + simpl. replace (Z.to_nat l) with 0%nat by lia. reflexivity.
    + rewrite Z.shiftr_div_pow2 by lia. change (2 ^ 1) with 2.
      assert (l / 2 <= 0) by (apply Z.div_le_upper_bound; lia). lia.
  - replace (Z.to_nat (l - 1)) with (Z.to_nat l - 1)%nat by lia.
    assert (Hhalf : (2 * Z.to_nat (Z.shiftr l 1) <= Z.to_nat l)%nat).
    { rewrite Z.shiftr_div_pow2 by lia. change (2 ^ 1) with 2.
      pose proof (Z.mul_div_le l 2 ltac:(lia)).
      assert (0 <= l / 2) by (apply Z.div_pos; lia). lia. }
    rewrite (reverse_in_place_turns (Z.to_nat l) x _ ltac:(lia) Hhalf).
    assert (Hodd : (Z.to_nat l <= 2 * Z.to_nat (Z.shiftr l 1) + 1)%nat).
    { rewrite Z.shiftr_div_pow2 by lia. change (2 ^ 1) with 2.
      pose proof (Z.div_mod l 2 ltac:(lia)). pose proof (Z.mod_pos_bound l 2 ltac:(lia)).
      assert (0 <= l / 2) by (apply Z.div_pos; lia). lia. }
    set (h := Z.to_nat (Z.shiftr l 1)) in *. set (n := Z.to_nat l) in *.
    destruct (Nat.ltb_spec p h), (Nat.ltb_spec (n - 1 - h) p), (Nat.ltb_spec p n);
      simpl; try reflexivity; try lia.
    f_equal. lia.
Qed.


(** Running the swap loop twice gives the buffer back. *)
Lemma reverse_in_place_twice (l : Z) (x : list Z) :
  l <= Z.of_nat (length x) ->
  reverse_in_place l (reverse_in_place l x) = x.
Proof.
  intros Hl. apply list_eq. intros p.
  rewrite reverse_in_place_lookup by (rewrite reverse_in_place_length; exact Hl).
  destruct (Nat.ltb_spec p (Z.to_nat l)) as [Hp|Hp].
  - rewrite reverse_in_place_lookup by exact Hl.
    destruct (Nat.ltb_spec (Z.to_nat l - 1 - p) (Z.to_nat l)); [ | lia ].
    f_equal. lia.
  - rewrite reverse_in_place_lookup by exact Hl.
    destruct (Nat.ltb_spec p (Z.to_nat l)); [ lia | reflexivity ].
Qed.

(** The reversal for a hit on the reverse strand is undone after the
    alignment. *)
Lemma gc_query_restored bns_get_seq ksw_global mat q r w_ l_pac pac l_query query
    rb re :
  l_query <= Z.of_nat (length query) ->
  gc_query (bwa_gen_cigar bns_get_seq ksw_global mat q r w_ l_pac pac
                          l_query query rb re) = query.
Proof.
  intros Hl. unfold bwa_gen_cigar.
  destruct (_ || _ || _); [ reflexivity | ].
  destruct (bns_get_seq l_pac pac rb re) as [rseq rlen].
  destruct (negb _); [ reflexivity | ]. cbv zeta.
  destruct (ksw_global _ _ _ _ _ _ _ _ _) as [[sc n_cigar] cigar]. cbn [gc_query].
  destruct (rb >=? l_pac); [ | reflexivity ].
  apply reverse_in_place_twice, Hl.
Qed.

(** X14: [bwa_gen_cigar] hands the query buffer back as it got it, on
    every path: the reversal for a hit on the reverse strand is undone
    after the alignment.  [l_query] is at most the size of the buffer. *)
Theorem bwa_gen_cigar_query_restored
    (bns_get_seq : Z -> list Z -> Z -> Z -> list Z * Z)
    (ksw_global : Z -> list Z -> Z -> list Z -> Z -> list Z -> Z -> Z -> Z
                  -> Z * Z * list Z)
    (mat : list Z) (q r w_ l_pac : Z) (pac : list Z)
    (l_query : Z) (query : list Z) (rb re : Z) :
  l_query <= Z.of_nat (length query) ->
  gc_query (bwa_gen_cigar bns_get_seq ksw_global mat q r w_ l_pac pac
                          l_query query rb re) = query.
Proof.
  intros Hl. unfold bwa_gen_cigar.
  destruct (_ || _ || _); [ reflexivity | ].
  destruct (bns_get_seq l_pac pac rb re) as [rseq rlen].
  destruct (negb _); [ reflexivity | ]. cbv zeta.
  destruct (ksw_global _ _ _ _ _ _ _ _ _) as [[sc n_cigar] cigar]. cbn [gc_query].
  destruct (rb >=? l_pac); [ | reflexivity ].
  apply reverse_in_place_twice, Hl.
Qed.

Lemma bwa_gen_cigar_query_restored_witness :
  gc_query (bwa_gen_cigar zero_seq band_probe (o_mat mem_opt_init) 6 1 100 1000 []
                          8 query_acgt 1000 1008) = query_acgt.
Proof.
  apply (bwa_gen_cigar_query_restored zero_seq band_probe (o_mat mem_opt_init)
           6 1 100 1000 [] 8 query_acgt 1000 1008).
  simpl. lia.
Defined.



(** ** [mem_chain_flt], further *)

(** The array and the freed indices that [mem_chain_flt] leaves, read
    off the accepted entries. *)
Lemma mem_chain_flt_returned sort fc opt chains :
  (forall l, sort l ≡ₚ l) ->
  Forall (fun c => 0 < chn_n c) chains ->
  let out := mem_chain_flt sort fc opt chains in
  let acc := accepted fc opt (flt_sorted_aux sort chains) in
  take (flt_n out) (flt_chains out) = pick (is_kept acc) 0 (flt_reorder sort chains)
  /\ flt_freed out = filter (fun k => is_kept acc k = false) (seq 0 (length chains))
  /\ flt_n out = length (pick (is_kept acc) 0 (flt_reorder sort chains)).
Proof.
  intros Hperm Hpos out acc.
  pose proof (flt_reorder_Forall _ _ _ Hperm Hpos) as Hpos1.
  pose proof (flt_reorder_length _ chains Hperm) as Hlen1.
  pose proof (flt_sorted_aux_length _ chains Hperm) as Hlen0.
  unfold out.
  destruct (Nat.leb_spec (length chains) 1) as [Hle|Hgt].
  - unfold mem_chain_flt.
    destruct (Nat.leb_spec (length chains) 1) as [_|Hgt]; [ | lia ].
    cbn [flt_n flt_chains flt_freed]. rewrite take_ge by lia.
    destruct chains as [|c [|c' chains]]; [ | | simpl in Hle; lia ].
    + unfold acc, flt_reorder, flt_sorted_aux. simpl.
      rewrite (proj1 (Permutation_nil_r _) (Hperm [])).
      split; [ | split ]; reflexivity.
    + unfold acc, flt_reorder, flt_sorted_aux. simpl.
      pose proof (Hperm [flt_aux_init 0 c]) as Hp.
      apply Permutation_singleton_r in Hp. rewrite Hp.
      split; [ | split ]; reflexivity.
  - rewrite mem_chain_flt_phases by exact Hgt. cbv zeta.
    destruct (flt_select_accepted fc opt (flt_sorted_aux sort chains)) as [tail Hsel].
    { intros Hnil. rewrite Hnil in Hlen0. simpl in Hlen0. lia. }
    fold acc in Hsel. rewrite Hsel. cbn [fst snd].
    rewrite flt_mark_fold.
    assert (Hm : foldl flt_mark_entry (flt_reorder sort chains) acc
                 = flt_marked (fun k => is_kept acc k || false)
                              (flt_reorder sort chains)).
    { rewrite <- (flt_marked_none (flt_reorder sort chains)) at 1.
      apply flt_mark_marked. exact Hpos1. }
    rewrite Hm, flt_free_eq. cbn [fst snd flt_n flt_chains flt_freed].
    rewrite squeeze_take by lia. rewrite squeeze_count by lia.
    rewrite take_0, drop_0. cbn [app Nat.add].
    unfold flt_marked.
    assert (Hpick : filter (fun c => (chn_n c >? 0) = true)
                      (flt_free_one <$>
                         imap (fun k c => if is_kept acc k || false
                                          then chain_neg c else c)
                              (flt_reorder sort chains))
                    = pick (is_kept acc) 0 (flt_reorder sort chains)).
    { rewrite <- (squeeze_marked _ 0 (is_kept acc) Hpos1).
      do 2 f_equal. apply imap_ext. intros k c _. simpl.
      rewrite orb_false_r. reflexivity. }
    rewrite Hpick. split; [ reflexivity | split; [ | reflexivity ] ].
    rewrite <- Hlen1.
    rewrite <- (free_indices_marked _ 0 (is_kept acc) Hpos1).
    f_equal. apply imap_ext. intros k c _. simpl.
    rewrite orb_false_r. reflexivity.
Qed.

(** The reordered array is a permutation of the input. *)
Lemma flt_reorder_Permutation sort chains :
  (forall l, sort l ≡ₚ l) -> flt_reorder sort chains ≡ₚ chains.
Proof.
  intros Hperm. unfold flt_reorder. change (map ?f ?l) with (f <$> l).
  rewrite (Hperm _).
  assert (Heq : (fun e => nth (f_p e) chains chain0) <$> imap flt_aux_init chains
                = chains).
  { apply list_eq. intros i. rewrite list_lookup_fmap, list_lookup_imap.
    destruct (chains !! i) as [c|] eqn:Hc; [ | reflexivity ].
    simpl. f_equal. apply nth_lookup_Some with (d := chain0) in Hc. exact Hc. }
  rewrite Heq. reflexivity.
Qed.

(** The chains picked by a test on the index and the chains picked by
    its negation are all the chains. *)
Lemma pick_partition {A} (keep : nat -> bool) (i : nat) (l : list A) :
  pick keep i l ++ pick (fun k => negb (keep k)) i l ≡ₚ l.
Proof.
  revert i. induction l as [|x l IH]; intros i; [ reflexivity | ].
  cbn [pick]. destruct (keep i); cbn [negb app].
  - constructor. apply IH.
  - rewrite <- Permutation_middle. constructor. apply IH.
Qed.

Lemma pick_indices {A} (keep : nat -> bool) (d : A) (pre l : list A) :
  (fun k => nth k (pre ++ l) d) <$> filter (fun k => keep k = false)
                                      (seq (length pre) (length l))
  = pick (fun k => negb (keep k)) (length pre) l.
Proof.
  revert pre. induction l as [|x l IH]; intros pre; [ reflexivity | ].
  cbn [length seq pick].
  specialize (IH (pre ++ [x])). rewrite <- app_assoc in IH. cbn [app] in IH.
  rewrite length_app in IH. cbn [length] in IH.
  replace (length pre + 1)%nat with (S (length pre)) in IH by lia.
  destruct (keep (length pre)) eqn:Hk; cbn [negb].
  - rewrite filter_cons_False by (rewrite Hk; discriminate). exact IH.
  - rewrite filter_cons_True by exact Hk. rewrite fmap_cons, IH. f_equal.
    rewrite app_nth2 by lia. rewrite Nat.sub_diag. reflexivity.
Qed.

Lemma pick_sublist {A} (keep : nat -> bool) (i : nat) (l : list A) :
  pick keep i l `sublist_of` l.
Proof.
  revert i. induction l as [|x l IH]; intros i; [ constructor | ].
  cbn [pick]. destruct (keep i); [ apply sublist_skip | apply sublist_cons ]; apply IH.
Qed.

(** X16: [mem_chain_flt] neither leaks nor frees twice: the chains that
    it returns together with the chains whose seed buffer it frees are
    the chains of the input, each one once, and the returned count is
    the number of the returned chains.  [ks_introsort] is any function
    that permutes its argument and every chain has at least one seed. *)
Theorem mem_chain_flt_partition
    (ks_introsort_mem_flt : list flt_aux_t -> list flt_aux_t)
    (fc : float_cmp) (opt : mem_opt_t) (chains : list mem_chain_t) :
  (forall l, ks_introsort_mem_flt l ≡ₚ l) ->
  Forall (fun c => 0 < chn_n c) chains ->
  let out := mem_chain_flt ks_introsort_mem_flt fc opt chains in
  take (flt_n out) (flt_chains out)
    ++ ((fun k => nth k (flt_reorder ks_introsort_mem_flt chains) chain0)
          <$> flt_freed out)
    ≡ₚ chains
  /\ NoDup (flt_freed out)
  /\ (flt_n out + length (flt_freed out) = length chains)%nat.
Proof.
  intros Hperm Hpos out.
  destruct (mem_chain_flt_returned _ fc opt chains Hperm Hpos) as (Hret & Hfreed & Hn).
  fold out in Hret, Hfreed, Hn.
  set (acc := accepted fc opt (flt_sorted_aux ks_introsort_mem_flt chains)) in *.
  assert (Hall : take (flt_n out) (flt_chains out)
                   ++ ((fun k => nth k (flt_reorder ks_introsort_mem_flt chains) chain0)
                         <$> flt_freed out)
                 ≡ₚ chains).
  { rewrite Hret, Hfreed, <- (flt_reorder_length _ chains Hperm).
    pose proof (pick_indices (is_kept acc) chain0 []
                  (flt_reorder ks_introsort_mem_flt chains)) as Hidx.
    cbn [length app] in Hidx. rewrite Hidx.
    rewrite pick_partition. apply flt_reorder_Permutation, Hperm. }
  split; [ exact Hall | split ].
  - rewrite Hfreed. apply NoDup_filter, NoDup_seq.
  - apply Permutation_length in Hall.
    rewrite length_app, length_fmap, length_take in Hall.
    rewrite Hn in Hall |- *. rewrite <- Hret in Hall |- *.
    rewrite length_take in Hall |- *. rewrite Hn, <- Hret, length_take in Hall. lia.
Qed.

Lemma mem_chain_flt_partition_witness :
  let out := mem_chain_flt sort_mem_flt exact_float mem_opt_init chains_dominated_3 in
  take (flt_n out) (flt_chains out)
    ++ ((fun k => nth k (flt_reorder sort_mem_flt chains_dominated_3) chain0)
          <$> flt_freed out)
    ≡ₚ chains_dominated_3
  /\ NoDup (flt_freed out)
  /\ (flt_n out + length (flt_freed out) = length chains_dominated_3)%nat.
Proof.
  apply (mem_chain_flt_partition sort_mem_flt exact_float mem_opt_init
           chains_dominated_3).
  - intros l. apply merge_sort_Permutation.
  - repeat constructor.
Defined.

Lemma flt_le_iff x y : flt_le x y <-> f_w y <= f_w x.
Proof.
  unfold flt_le, flt_lt. rewrite Z.gtb_ltb. split.
  - intros H. apply Z.ltb_ge in H. exact H.
  - intros H. apply Z.ltb_ge. exact H.
Qed.

Lemma flt_le_trans : Transitive flt_le.
Proof. intros x y z. rewrite !flt_le_iff. lia. Qed.

Lemma flt_le_total : Total flt_le.
Proof. intros x y. rewrite !flt_le_iff. lia. Qed.

(** The scan of the accepted list writes [f_p2] only. *)
Lemma accept_scan_f_p fc opt ai acc :
  f_p <$> fst (accept_scan fc opt ai acc) = f_p <$> acc.
Proof.
  induction acc as [|aj acc IH]; [ reflexivity | ].
  cbn [accept_scan].
  destruct (accept_scan fc opt ai acc) as [r rej]. cbn [fst] in IH.
  destruct (_ && _); [ destruct (flt_drop fc opt aj ai) | ];
    cbn [fst]; rewrite !fmap_cons, ?IH; reflexivity.
Qed.

(** The first entry is accepted and stays the first accepted entry. *)
Lemma accepted_head fc opt a0 rest :
  exists e tl, accepted fc opt (a0 :: rest) = e :: tl /\ f_p e = f_p a0.
Proof.
  unfold accepted.
  assert (H : forall acc e tl, acc = e :: tl ->
            exists e' tl', foldl (accept_step fc opt) acc rest = e' :: tl'
                           /\ f_p e' = f_p e).
  { induction rest as [|ai rest IH]; intros acc e tl Hacc.
    - exists e, tl. split; [ exact Hacc | reflexivity ].
    - cbn [foldl].
      assert (Hstep : exists e1 tl1, accept_step fc opt acc ai = e1 :: tl1
                                     /\ f_p e1 = f_p e).
      { unfold accept_step.
        pose proof (accept_scan_f_p fc opt ai acc) as Hp.
        destruct (accept_scan fc opt ai acc) as [acc' rej]. cbn [fst] in Hp.
        subst acc. destruct acc' as [|e1 tl1]; [ discriminate | ].
        simpl in Hp. injection Hp as Hp _.
        destruct rej; [ exists e1, tl1 | exists e1, (tl1 ++ [ai]) ];
          split; [ reflexivity | exact Hp | reflexivity | exact Hp ]. }
      destruct Hstep as (e1 & tl1 & Hs & Hp).
      destruct (IH _ e1 tl1 Hs) as (e' & tl' & Hf & Hp').
      exists e', tl'. split; [ exact Hf | congruence ]. }
  exact (H [a0] a0 [] eq_refl).
Qed.

(** X17: [mem_chain_flt] always returns a chain of the greatest weight,
    and returns it first.  [ks_introsort] permutes its argument and
    sorts it by [flt_lt]; every chain has at least one seed. *)
Theorem mem_chain_flt_best
    (ks_introsort_mem_flt : list flt_aux_t -> list flt_aux_t)
    (fc : float_cmp) (opt : mem_opt_t) (chains : list mem_chain_t) :
  (forall l, ks_introsort_mem_flt l ≡ₚ l) ->
  (forall l, Sorted flt_le (ks_introsort_mem_flt l)) ->
  Forall (fun c => 0 < chn_n c) chains ->
  chains <> [] ->
  let out := mem_chain_flt ks_introsort_mem_flt fc opt chains in
  exists c, take (flt_n out) (flt_chains out) !! 0%nat = Some c
    /\ c ∈ chains
    /\ forall c', c' ∈ chains -> flt_weight c' <= flt_weight c.
Proof.
  intros Hperm Hsort Hpos Hne out.
  destruct (mem_chain_flt_returned _ fc opt chains Hperm Hpos) as (Hret & _ & _).
  fold out in Hret. rewrite Hret. clear Hret out.
  unfold flt_reorder, flt_sorted_aux.
  pose proof (Hperm (imap flt_aux_init chains)) as Hp.
  pose proof (@Sorted_StronglySorted _ flt_le flt_le_trans _
                (Hsort (imap flt_aux_init chains))) as Hs.
  destruct (ks_introsort_mem_flt (imap flt_aux_init chains)) as [|e0 es] eqn:He.
  { apply Permutation_nil_l in Hp. destruct chains; [ congruence | discriminate ]. }
  rewrite imap_cons.
  match goal with
  | |- context [accepted fc opt (?a0 :: ?rest)] =>
      destruct (accepted_head fc opt a0 rest) as (e & tl & -> & Hfp)
  end.
  simpl in Hfp. cbn [map pick].
  assert (Hk : is_kept (e :: tl) 0 = true).
  { unfold is_kept, is_accepted. cbn [existsb]. rewrite Hfp. reflexivity. }
  rewrite Hk. cbn [lookup list_lookup].
  assert (Hin : forall e', e' ∈ e0 :: es ->
            exists i c, chains !! i = Some c /\ e' = flt_aux_init i c).
  { intros e' He'. rewrite Hp in He'.
    apply list_elem_of_lookup in He' as [i Hi]. rewrite list_lookup_imap in Hi.
    destruct (chains !! i) as [c|] eqn:Hc; [ | discriminate ].
    simpl in Hi. injection Hi as <-. exists i, c. split; [ exact Hc | reflexivity ]. }
  destruct (Hin e0 ltac:(left)) as (i0 & c0 & Hc0 & ->).
  exists c0. simpl f_p. rewrite (nth_lookup_Some _ _ chain0 _ Hc0).
  split; [ reflexivity | split; [ eapply list_elem_of_lookup_2; exact Hc0 | ] ].
  intros c' Hc'. apply list_elem_of_lookup in Hc' as [i' Hi'].
  assert (He' : flt_aux_init i' c' ∈ flt_aux_init i0 c0 :: es).
  { rewrite Hp. apply list_elem_of_lookup. exists i'.
    rewrite list_lookup_imap, Hi'. reflexivity. }
  apply elem_of_cons in He' as [Heq|He'].
  - apply (f_equal f_w) in Heq. simpl in Heq. lia.
  - apply StronglySorted_inv in Hs as [_ Hall].
    rewrite Forall_forall in Hall. specialize (Hall _ He').
    apply flt_le_iff in Hall. simpl in Hall. exact Hall.
Qed.

Lemma mem_chain_flt_best_witness :
  let out := mem_chain_flt sort_mem_flt exact_float mem_opt_init chains_dominated_3 in
  exists c, take (flt_n out) (flt_chains out) !! 0%nat = Some c
    /\ c ∈ chains_dominated_3
    /\ forall c', c' ∈ chains_dominated_3 -> flt_weight c' <= flt_weight c.
Proof.
  apply (mem_chain_flt_best sort_mem_flt exact_float mem_opt_init chains_dominated_3).
  - intros l. apply merge_sort_Permutation.
  - intros l. apply (@Sorted_merge_sort _ flt_le _ flt_le_total).
  - repeat constructor.
  - discriminate.
Defined.

(** ** The weight of a chain, further *)

Lemma covered_count_ext (f g : Z -> bool) (lo n : Z) :
  (forall x, lo <= x < lo + n -> f x = g x) ->
  List.filter f (seqZ lo n) = List.filter g (seqZ lo n).
Proof.
  intros H. apply List.filter_ext_in. intros x Hx. apply H.
  apply elem_of_seqZ, list_elem_of_In. exact Hx.
Qed.

Lemma covered_count_true (f : Z -> bool) (lo n : Z) :
  0 <= n -> (forall x, lo <= x < lo + n -> f x = true) ->
  Z.of_nat (length (List.filter f (seqZ lo n))) = n.
Proof.
  intros Hn H. rewrite (covered_count_ext f (fun _ => true) lo n H).
  replace (List.filter (fun _ => true) (seqZ lo n)) with (seqZ lo n).
  - rewrite length_seqZ. lia.
  - generalize (seqZ lo n). intros l. induction l as [|x l IH]; simpl; congruence.
Qed.

Lemma covered_count_false (f : Z -> bool) (lo n : Z) :
  (forall x, lo <= x < lo + n -> f x = false) ->
  List.filter f (seqZ lo n) = [].
Proof.
  intros H. rewrite (covered_count_ext f (fun _ => false) lo n H).
  generalize (seqZ lo n). intros l. induction l as [|x l IH]; simpl; congruence.
Qed.

Lemma covered_app ivs ivs' x : covered (ivs ++ ivs') x = covered ivs x || covered ivs' x.
Proof. unfold covered. apply existsb_app. Qed.

Lemma foldr_max_app (l : list Z) (e : Z) :
  foldr Z.max 0 (l ++ [e]) = Z.max (foldr Z.max 0 l) e.
Proof. induction l as [|x l IH]; simpl; [ lia | rewrite IH; lia ]. Qed.

Lemma foldr_max_nonneg (l : list Z) : 0 <= foldr Z.max 0 l.
Proof. induction l as [|x l IH]; simpl; lia. Qed.

Lemma foldr_min_zero (l : list Z) : Forall (fun x => 0 <= x) l -> foldr Z.min 0 l = 0.
Proof. induction 1 as [|x l Hx _ IH]; simpl; [ reflexivity | rewrite IH; lia ]. Qed.

(** Beyond the furthest end nothing is covered. *)
Lemma covered_beyond (seeds : list mem_seed_t) (x : Z) :
  foldr Z.max 0 (map (fun s => qbeg s + len s) seeds) <= x ->
  covered (map (fun s => (qbeg s, len s)) seeds) x = false.
Proof.
  induction seeds as [|s seeds IH]; simpl; [ reflexivity | ].
  intros Hx. rewrite IH by lia.
  destruct (Z.ltb_spec x (qbeg s + len s)); [ lia | ].
  rewrite andb_false_r. reflexivity.
Qed.

(** Between a position that no seed starts behind and the furthest end
    everything is covered. *)
Lemma covered_between (seeds : list mem_seed_t) (q x : Z) :
  Forall (fun s => qbeg s <= q) seeds ->
  q <= x < foldr Z.max 0 (map (fun s => qbeg s + len s) seeds) -> 0 <= x ->
  covered (map (fun s => (qbeg s, len s)) seeds) x = true.
Proof.
  intros Hq. induction Hq as [|s seeds Hs _ IH]; simpl; intros Hx H0; [ lia | ].
  destruct (Z.ltb_spec x (qbeg s + len s)) as [Hlt|Hge].
  - destruct (Z.leb_spec (qbeg s) x); [ reflexivity | lia ].
  - rewrite IH by lia. apply orb_true_r.
Qed.

(** The first coverage loop keeps in [end] the furthest end of the seeds
    seen and in [w] the number of query positions that they cover. *)
Lemma flt_cover_sweep (seeds : list mem_seed_t) :
  Forall (fun s => 0 <= qbeg s /\ 0 <= len s) seeds ->
  StronglySorted by_qbeg seeds ->
  let ivs := map (fun s => (qbeg s, len s)) seeds in
  let hi := foldr Z.max 0 (map (fun s => qbeg s + len s) seeds) in
  foldl (flt_cover_step qbeg) (0, 0) seeds
  = (Z.of_nat (length (List.filter (covered ivs) (seqZ 0 hi))), hi).
Proof.
  induction seeds as [|s seeds IH] using rev_ind; intros Hpos Hsort; cbv zeta.
  - reflexivity.
  - apply Forall_app in Hpos as [Hpos Hs]. apply Forall_inv in Hs as [Hq Hl].
    apply StronglySorted_app in Hsort as (Hle & Hsort & _).
    assert (Hbefore : Forall (fun t => qbeg t <= qbeg s) seeds).
    { apply Forall_forall. intros t Ht. apply (Hle t s Ht). left. }
    rewrite foldl_app, (IH Hpos Hsort). cbn [foldl]. clear IH.
    rewrite !map_app. cbn [map]. rewrite foldr_max_app.
    set (ivs := map (fun s => (qbeg s, len s)) seeds).
    set (e := foldr Z.max 0 (map (fun s => qbeg s + len s) seeds)).
    assert (He : 0 <= e) by apply foldr_max_nonneg.
    assert (Hin : forall x, covered (ivs ++ [(qbeg s, len s)]) x
                            = covered ivs x
                              || ((qbeg s <=? x) && (x <? qbeg s + len s))).
    { intros x. rewrite covered_app. simpl. rewrite orb_false_r. reflexivity. }
    assert (Hlow : List.filter (covered (ivs ++ [(qbeg s, len s)])) (seqZ 0 e)
                   = List.filter (covered ivs) (seqZ 0 e)).
    { apply covered_count_ext. intros x Hx. rewrite Hin.
      destruct (Z.leb_spec (qbeg s) x) as [Hqx|Hqx]; [ | apply orb_false_r ].
      unfold ivs. rewrite (covered_between seeds (qbeg s) x Hbefore) by (fold e; lia).
      reflexivity. }
    unfold flt_cover_step. rewrite Z.geb_leb, !Z.gtb_ltb.
    destruct (Z.leb_spec e (qbeg s)) as [Hge|Hlt].
    + destruct (Z.ltb_spec (qbeg s + len s) e) as [?|_]; [ lia | ].
      replace (Z.max e (qbeg s + len s)) with (e + ((qbeg s - e) + len s)) by lia.
      rewrite seqZ_app by lia. rewrite seqZ_app by lia.
      rewrite !List.filter_app, !length_app, !Nat2Z.inj_add, Hlow.
      assert (Hgap : List.filter (covered (ivs ++ [(qbeg s, len s)]))
                       (seqZ (0 + e) (qbeg s - e)) = []).
      { apply covered_count_false. intros x Hx. rewrite Hin. unfold ivs.
        rewrite (covered_beyond seeds x) by (fold e; lia).
        destruct (Z.leb_spec (qbeg s) x); [ lia | reflexivity ]. }
      assert (Hnew : Z.of_nat (length (List.filter (covered (ivs ++ [(qbeg s, len s)]))
                       (seqZ (0 + e + (qbeg s - e)) (len s)))) = len s).
      { apply covered_count_true; [ exact Hl | ]. intros x Hx. rewrite Hin.
        destruct (Z.leb_spec (qbeg s) x); [ | lia ].
        destruct (Z.ltb_spec x (qbeg s + len s)); [ | lia ].
        apply orb_true_r. }
      rewrite Hgap, Hnew. simpl length. f_equal. lia.
    + assert (Hmax : (if qbeg s + len s <? e then e else qbeg s + len s)
                     = Z.max e (qbeg s + len s)).
      { destruct (Z.ltb_spec (qbeg s + len s) e); lia. }
      rewrite Hmax.
      destruct (Z.ltb_spec e (qbeg s + len s)) as [Hext|Hin'].
      * replace (Z.max e (qbeg s + len s)) with (e + (qbeg s + len s - e)) by lia.
        rewrite seqZ_app by lia.
        rewrite List.filter_app, length_app, Nat2Z.inj_add, Hlow.
        assert (Hnew : Z.of_nat (length (List.filter (covered (ivs ++ [(qbeg s, len s)]))
                         (seqZ (0 + e) (qbeg s + len s - e))))
                       = qbeg s + len s - e).
        { apply covered_count_true; [ lia | ]. intros x Hx. rewrite Hin.
          destruct (Z.leb_spec (qbeg s) x); [ | lia ].
          destruct (Z.ltb_spec x (qbeg s + len s)); [ | lia ].
          apply orb_true_r. }
        rewrite Hnew. reflexivity.
      * replace (Z.max e (qbeg s + len s)) with e by lia. rewrite Hlow. reflexivity.
Qed.

(** X18: the weight that [mem_chain_flt] gives a chain is the number of
    query positions that its seeds cover, when the seeds stand in the
    order of their query start, start at a position of the query
    ([0 <= qbeg]) and have no negative length; [chn_n] counts the
    seeds. *)
Theorem flt_weight_query_coverage (c : mem_chain_t) :
  chn_n c = Z.of_nat (length (chn_seeds c)) ->
  Forall (fun s => 0 <= qbeg s /\ 0 <= len s) (chn_seeds c) ->
  StronglySorted by_qbeg (chn_seeds c) ->
  flt_weight c = union_size (map (fun s => (qbeg s, len s)) (chn_seeds c)).
Proof.
  intros Hn Hpos Hsort.
  rewrite flt_weight_query_axis
    by (eapply Forall_impl; [ exact Hpos | intros s [_ H]; exact H ]).
  unfold flt_cover. rewrite Hn, Nat2Z.id, firstn_all.
  rewrite (flt_cover_sweep _ Hpos Hsort). cbn [fst].
  unfold union_size. cbv zeta.
  rewrite foldr_min_zero.
  - rewrite Z.sub_0_r. rewrite map_map. reflexivity.
  - rewrite map_map. simpl. apply Forall_map. 
    eapply Forall_impl; [ exact Hpos | intros s [H _]; exact H ].
Qed.

Lemma flt_weight_query_coverage_witness :
  flt_weight chain_ref_overlap
  = union_size (map (fun s => (qbeg s, len s)) (chn_seeds chain_ref_overlap)).
Proof.
  apply (flt_weight_query_coverage chain_ref_overlap).
  - reflexivity.
  - repeat constructor; simpl; lia.
  - repeat constructor; unfold by_qbeg; simpl; lia.
Defined.

(** ** [mem_chain2aln] *)

Lemma cal_max_gap_pos opt qlen : 1 <= cal_max_gap opt qlen.
Proof. unfold cal_max_gap. cbv zeta. zcases; lia. Qed.

Lemma chain2aln_span_fold opt l_query seeds lo hi :
  let r := foldl (chain2aln_span_step opt l_query) (lo, hi) seeds in
  fst r <= lo /\ hi <= snd r
  /\ forall t, t ∈ seeds ->
       fst r + qbeg t < rbeg t /\ rbeg t + (l_query - qbeg t) < snd r.
Proof.
  revert lo hi. induction seeds as [|s seeds IH]; intros lo hi; cbv zeta.
  - simpl. split; [ lia | split; [ lia | ] ]. intros t Ht. inversion Ht.
  - cbn [foldl].
    pose proof (cal_max_gap_pos opt (qbeg s)) as Hg1.
    pose proof (cal_max_gap_pos opt (l_query - qbeg s - len s)) as Hg2.
    assert (Hst : fst (chain2aln_span_step opt l_query (lo, hi) s) <= lo
                  /\ fst (chain2aln_span_step opt l_query (lo, hi) s) + qbeg s < rbeg s
                  /\ hi <= snd (chain2aln_span_step opt l_query (lo, hi) s)
                  /\ rbeg s + (l_query - qbeg s)
                     < snd (chain2aln_span_step opt l_query (lo, hi) s)).
    { unfold chain2aln_span_step. cbv zeta. cbn [fst snd]. zcases; lia. }
    destruct (chain2aln_span_step opt l_query (lo, hi) s) as [lo' hi'].
    cbn [fst snd] in Hst.
    destruct (IH lo' hi') as (H1 & H2 & H3).
    split; [ lia | split; [ lia | ] ].
    intros t Ht. apply elem_of_cons in Ht as [->|Ht]; [ lia | apply H3, Ht ].
Qed.

(** X19: the window of the reference that [mem_chain2aln] retrieves has
    room for every seed of the chain extended to the whole read along
    its diagonal, with at least one base to spare at either side. *)
Theorem chain2aln_span_room (opt : mem_opt_t) (l_pac l_query : Z) (c : mem_chain_t)
    (t : mem_seed_t) :
  t ∈ take (Z.to_nat (chn_n c)) (chn_seeds c) ->
  let rmax := chain2aln_span opt l_pac l_query c in
  fst rmax + qbeg t < rbeg t /\ rbeg t + (l_query - qbeg t) < snd rmax.
Proof.
  intros Ht. cbv zeta. unfold chain2aln_span.
  apply (chain2aln_span_fold opt l_query _ _ _), Ht.
Qed.

Lemma chain2aln_span_room_witness :
  let rmax := chain2aln_span mem_opt_init 100000 60 chain_two_seeds in
  fst rmax + 35 < 1030 /\ 1030 + (60 - 35) < snd rmax.
Proof.
  apply (chain2aln_span_room mem_opt_init 100000 60 chain_two_seeds
           {| rbeg := 1030; qbeg := 35; len := 20 |}).
  right. left.
Defined.

(** X20: when [bns_get_seq] returns a slice that is not as long as the
    window, [mem_chain2aln] leaves [av] empty. *)
Theorem mem_chain2aln_truncated
    (bns_get_seq : Z -> list Z -> Z -> Z -> list Z * Z)
    (ksw_extend : Z -> list Z -> Z -> list Z -> Z -> list Z -> Z -> Z -> Z -> Z
                  -> Z * Z * Z)
    (opt : mem_opt_t) (l_pac : Z) (pac : list Z) (l_query : Z) (query : list Z)
    (c : mem_chain_t) :
  let rmax := chain2aln_span opt l_pac l_query c in
  snd (bns_get_seq l_pac pac (fst rmax) (snd rmax)) <> snd rmax - fst rmax ->
  mem_chain2aln bns_get_seq ksw_extend opt l_pac pac l_query query c = [].
Proof.
  cbv zeta. intros H. unfold mem_chain2aln. cbv zeta.
  destruct (bns_get_seq _ _ _ _) as [rseq rlen]. simpl in H.
  destruct (Z.eqb_spec rlen (snd (chain2aln_span opt l_pac l_query c)
                             - fst (chain2aln_span opt l_pac l_query c)));
    [ congruence | reflexivity ].
Qed.

Lemma mem_chain2aln_truncated_witness :
  mem_chain2aln (fun _ _ _ _ => ([], 0)) extend_diagonal mem_opt_init 100000 []
                60 (replicate 60 0) chain_two_seeds = [].
Proof.
  apply (mem_chain2aln_truncated (fun _ _ _ _ => ([], 0)) extend_diagonal
           mem_opt_init 100000 [] 60 (replicate 60 0) chain_two_seeds).
  vm_compute. discriminate.
Defined.

(** The loop that looks for the next seed to extend moves forward and
    stays within the chain. *)
Lemma chain2aln_next_bounds c a fuel i :
  (i <= chain2aln_next c a fuel i <= i + fuel)%nat.
Proof.
  revert i. induction fuel as [|fuel IH]; intros i; simpl; [ lia | ].
  destruct (chn_seeds c !! i); [ | lia ].
  destruct (chn_seeds c !! (i - 1)%nat); [ | lia ].
  destruct (_ || _); [ lia | ].
  destruct (_ || _); [ lia | ].
  specialize (IH (S i)). lia.
Qed.

(** The loop over the seeds runs to the end of the chain, and every turn
    adds one region. *)
Lemma chain2aln_regions_end bns_ksw opt l_query query rmax0 rmax1 rseq c fuel k av :
  (Z.to_nat (chn_n c) <= length (chn_seeds c))%nat ->
  (k <= Z.to_nat (chn_n c))%nat -> (Z.to_nat (chn_n c) - k <= fuel)%nat ->
  let r := chain2aln_regions bns_ksw opt l_query query rmax0 rmax1 rseq c fuel k av in
  snd r = Z.to_nat (chn_n c)
  /\ (length av <= length (fst r) <= length av + (Z.to_nat (chn_n c) - k))%nat
  /\ ((k < Z.to_nat (chn_n c))%nat -> (length av < length (fst r))%nat).
Proof.
  intros Hn. revert k av. induction fuel as [|fuel IH]; intros k av Hk Hfuel; cbv zeta.
  - simpl. split; [ lia | split; lia ].
  - cbn [chain2aln_regions].
    destruct (Nat.ltb_spec k (Z.to_nat (chn_n c))) as [Hlt|Hge];
      [ | simpl; split; [ lia | split; lia ] ].
    destruct (lookup_lt_is_Some_2 (chn_seeds c) k ltac:(lia)) as [s Hs].
    rewrite Hs. cbv zeta.
    match goal with
    | |- context [chain2aln_next c ?a ?f ?i] =>
        pose proof (chain2aln_next_bounds c a f i) as Hnext;
        set (k' := chain2aln_next c a f i) in *;
        set (a' := a)
    end.
    destruct (IH k' (av ++ [a']) ltac:(lia) ltac:(lia)) as (H1 & H2 & _).
    rewrite length_app in H2. simpl in H2.
    split; [ exact H1 | split; lia ].
Qed.

(** X21: with a slice of the reference as long as the window,
    [mem_chain2aln] gives at least one region and at most one region for
    each seed of the chain, and the loop over the seeds is left at the
    end of the chain.  [c->n] seeds are in the chain. *)
Theorem mem_chain2aln_count
    (bns_get_seq : Z -> list Z -> Z -> Z -> list Z * Z)
    (ksw_extend : Z -> list Z -> Z -> list Z -> Z -> list Z -> Z -> Z -> Z -> Z
                  -> Z * Z * Z)
    (opt : mem_opt_t) (l_pac : Z) (pac : list Z) (l_query : Z) (query : list Z)
    (c : mem_chain_t) :
  0 < chn_n c <= Z.of_nat (length (chn_seeds c)) ->
  let rmax := chain2aln_span opt l_pac l_query c in
  let rseq := bns_get_seq l_pac pac (fst rmax) (snd rmax) in
  snd rseq = snd rmax - fst rmax ->
  let av := mem_chain2aln bns_get_seq ksw_extend opt l_pac pac l_query query c in
  1 <= Z.of_nat (length av) <= chn_n c
  /\ snd (chain2aln_regions ksw_extend opt l_query query (fst rmax) (snd rmax)
            (fst rseq) c (Z.to_nat (chn_n c)) 0 []) = Z.to_nat (chn_n c).
Proof.
  intros Hn rmax rseq Hlen av. unfold av, mem_chain2aln. cbv zeta.
  fold rmax. unfold rseq in Hlen |- *.
  destruct (bns_get_seq l_pac pac (fst rmax) (snd rmax)) as [rs rlen].
  cbn [fst snd] in Hlen |- *. rewrite Hlen, Z.eqb_refl. cbn [negb].
  destruct (chain2aln_regions_end ksw_extend opt l_query query (fst rmax) (snd rmax)
              rs c (Z.to_nat (chn_n c)) 0 [] ltac:(lia) ltac:(lia) ltac:(lia))
    as (H1 & H2 & H3).
  specialize (H3 ltac:(lia)). simpl in H2, H3.
  split; [ lia | exact H1 ].
Qed.

Lemma mem_chain2aln_count_witness :
  let rmax := chain2aln_span mem_opt_init 100000 60 chain_two_seeds in
  let rseq := zero_seq 100000 [] (fst rmax) (snd rmax) in
  let av := mem_chain2aln zero_seq extend_diagonal mem_opt_init 100000 []
                          60 (replicate 60 0) chain_two_seeds in
  1 <= Z.of_nat (length av) <= chn_n chain_two_seeds
  /\ snd (chain2aln_regions extend_diagonal mem_opt_init 60 (replicate 60 0)
            (fst rmax) (snd rmax) (fst rseq) chain_two_seeds
            (Z.to_nat (chn_n chain_two_seeds)) 0 [])
     = Z.to_nat (chn_n chain_two_seeds).
Proof.
  apply (mem_chain2aln_count zero_seq extend_diagonal mem_opt_init 100000 []
           60 (replicate 60 0) chain_two_seeds).
  - simpl. lia.
  - reflexivity.
Defined.



(** With end points inside the sequences that [ksw_extend] is given, the
    extension of a seed gives a region around the seed, inside the query
    and the window. *)
Lemma chain2aln_extend_around ksw_extend opt l_query query rmax0 rmax1 rseq s :
  ksw_extend_bounds ksw_extend -> seed_in_query l_query s ->
  rmax0 + qbeg s < rbeg s -> rbeg s + (l_query - qbeg s) < rmax1 ->
  let a := chain2aln_extend ksw_extend opt l_query query rmax0 rmax1 rseq s in
  region_around l_query rmax0 rmax1 s a
  /\ sub a = 0 /\ csub a = 0 /\ sub_n a = 0 /\ secondary a = 0.
Proof.
  intros Hksw (Hq & Hl & Hend) Hlo Hhi. cbv zeta.
  split; [ | repeat split; reflexivity ].
  unfold region_around, chain2aln_extend. cbv zeta. cbn [rb re qb qe].
  assert (Hleft : forall lft,
            lft = (if negb (qbeg s =? 0)
                   then
                     (fst (fst (ksw_extend (qbeg s) (reversed_prefix (qbeg s) query)
                                   (rbeg s - rmax0)
                                   (reversed_prefix (rbeg s - rmax0) rseq) 5
                                   (o_mat opt) (o_q opt) (o_r opt) (o_w opt)
                                   (len s * o_a opt))),
                      qbeg s - snd (fst (ksw_extend (qbeg s)
                                   (reversed_prefix (qbeg s) query)
                                   (rbeg s - rmax0)
                                   (reversed_prefix (rbeg s - rmax0) rseq) 5
                                   (o_mat opt) (o_q opt) (o_r opt) (o_w opt)
                                   (len s * o_a opt))),
                      rbeg s - snd (ksw_extend (qbeg s)
                                   (reversed_prefix (qbeg s) query)
                                   (rbeg s - rmax0)
                                   (reversed_prefix (rbeg s - rmax0) rseq) 5
                                   (o_mat opt) (o_q opt) (o_r opt) (o_w opt)
                                   (len s * o_a opt)))
                   else (len s * o_a opt, 0, rbeg s)) ->
            0 <= snd (fst lft) <= qbeg s /\ rmax0 <= snd lft <= rbeg s).
  { intros lft ->. destruct (Z.eqb_spec (qbeg s) 0) as [H0|H0]; cbn [negb fst snd].
    - lia.
    - pose proof (Hksw (qbeg s) (reversed_prefix (qbeg s) query) (rbeg s - rmax0)
                       (reversed_prefix (rbeg s - rmax0) rseq) 5 (o_mat opt)
                       (o_q opt) (o_r opt) (o_w opt) (len s * o_a opt)
                       ltac:(lia) ltac:(lia)) as Hb.
      cbv zeta in Hb. lia. }
  match goal with
  | |- context [snd (fst ?l) <= qbeg s] => specialize (Hleft l eq_refl); set (lft := l) in *
  end.
  destruct (Z.eqb_spec (qbeg s + len s) l_query) as [H1|H1]; cbn [negb fst snd].
  - lia.
  - match goal with
    | |- context [ksw_extend ?a1 ?a2 ?a3 ?a4 ?a5 ?a6 ?a7 ?a8 ?a9 (fst (fst lft))] =>
        pose proof (Hksw a1 a2 a3 a4 a5 a6 a7 a8 a9 (fst (fst lft))
                         ltac:(lia) ltac:(lia)) as Hb
    end.
    cbv zeta in Hb. lia.
Qed.

Lemma chain2aln_seedcov_seed c a s :
  Forall (fun t => 0 <= len t) (take (Z.to_nat (chn_n c)) (chn_seeds c)) ->
  s ∈ take (Z.to_nat (chn_n c)) (chn_seeds c) ->
  seed_contained a s = true ->
  len s <= chain2aln_seedcov c a.
Proof.
  unfold chain2aln_seedcov. generalize (take (Z.to_nat (chn_n c)) (chn_seeds c)).
  intros seeds Hpos Hin Hc.
  assert (Hmono : forall l cov, Forall (fun t => 0 <= len t) l ->
            cov <= foldl (fun cov t => if seed_contained a t then cov + len t else cov)
                         cov l).
  { induction l as [|t l IH]; intros cov Hl; simpl; [ lia | ].
    apply Forall_cons in Hl as [Ht Hl].
    etransitivity; [ | apply IH, Hl ]. destruct (seed_contained a t); lia. }
  assert (Hgen : forall cov, 0 <= cov ->
            len s <= foldl (fun cov t => if seed_contained a t then cov + len t else cov)
                           cov seeds).
  { induction seeds as [|t seeds IH]; intros cov Hcov; [ inversion Hin | ].
    apply Forall_cons in Hpos as [Ht Hpos]. cbn [foldl].
    apply elem_of_cons in Hin as [->|Hin].
    - rewrite Hc. etransitivity; [ | apply Hmono, Hpos ]. lia.
    - apply IH; [ exact Hpos | exact Hin | destruct (seed_contained a t); lia ]. }
  apply Hgen. lia.
Qed.

Lemma chain2aln_regions_around ksw_extend opt l_query query rmax0 rmax1 rseq c
    (P : mem_alnreg_t -> Prop) fuel k av :
  (forall s, s ∈ take (Z.to_nat (chn_n c)) (chn_seeds c) ->
     P (set_seedcov (chain2aln_extend ksw_extend opt l_query query rmax0 rmax1 rseq s)
          (chain2aln_seedcov c
             (chain2aln_extend ksw_extend opt l_query query rmax0 rmax1 rseq s)))) ->
  Forall P av ->
  Forall P (fst (chain2aln_regions ksw_extend opt l_query query rmax0 rmax1 rseq
                   c fuel k av)).
Proof.
  intros Hstep. revert k av. induction fuel as [|fuel IH]; intros k av Hav.
  - exact Hav.
  - cbn [chain2aln_regions].
    destruct (Nat.ltb_spec k (Z.to_nat (chn_n c))) as [Hlt|Hge]; [ | exact Hav ].
    destruct (chn_seeds c !! k) as [s|] eqn:Hs; [ | exact Hav ].
    cbv zeta. apply IH. apply Forall_app. split; [ exact Hav | ].
    apply Forall_singleton, Hstep.
    apply list_elem_of_lookup. exists k. rewrite lookup_take_lt by lia. exact Hs.
Qed.

(** X23: every region that [mem_chain2aln] gives comes from a seed of
    the chain: it contains the seed on the query and on the reference,
    lies inside the query and the window, its [seedcov] is at least the
    length of the seed, and [sub], [csub], [sub_n] and [secondary] are
    zero.  The seeds lie inside the query and [ksw_extend] reports end
    points inside the sequences that it is given. *)
Theorem mem_chain2aln_around
    (bns_get_seq : Z -> list Z -> Z -> Z -> list Z * Z)
    (ksw_extend : Z -> list Z -> Z -> list Z -> Z -> list Z -> Z -> Z -> Z -> Z
                  -> Z * Z * Z)
    (opt : mem_opt_t) (l_pac : Z) (pac : list Z) (l_query : Z) (query : list Z)
    (c : mem_chain_t) :
  ksw_extend_bounds ksw_extend ->
  Forall (seed_in_query l_query) (take (Z.to_nat (chn_n c)) (chn_seeds c)) ->
  let rmax := chain2aln_span opt l_pac l_query c in
  Forall (fun a =>
            exists s, s ∈ take (Z.to_nat (chn_n c)) (chn_seeds c)
              /\ region_around l_query (fst rmax) (snd rmax) s a
              /\ len s <= seedcov a
              /\ sub a = 0 /\ csub a = 0 /\ sub_n a = 0 /\ secondary a = 0)
         (mem_chain2aln bns_get_seq ksw_extend opt l_pac pac l_query query c).
Proof.
  intros Hksw Hseeds rmax. unfold mem_chain2aln. cbv zeta. fold rmax.
  destruct (bns_get_seq l_pac pac (fst rmax) (snd rmax)) as [rseq rlen].
  destruct (negb _); [ constructor | ].
  apply chain2aln_regions_around; [ | constructor ].
  intros s Hs. exists s.
  pose proof (chain2aln_span_fold opt l_query
                (take (Z.to_nat (chn_n c)) (chn_seeds c)) (Z.shiftl l_pac 1) 0)
    as (_ & _ & Hroom).
  destruct (Hroom s Hs) as [Hlo Hhi]. fold (chain2aln_span opt l_pac l_query c) in Hlo, Hhi.
  fold rmax in Hlo, Hhi.
  assert (Hin : seed_in_query l_query s).
  { rewrite Forall_forall in Hseeds. apply Hseeds, Hs. }
  destruct (chain2aln_extend_around ksw_extend opt l_query query (fst rmax) (snd rmax)
              rseq s Hksw Hin Hlo Hhi) as (Har & H1 & H2 & H3 & H4).
  split; [ exact Hs | split; [ exact Har | ] ].
  split; [ | repeat split; assumption ].
  cbn [seedcov set_seedcov]. apply chain2aln_seedcov_seed.
  - eapply Forall_impl; [ exact Hseeds | ]. intros t (_ & Ht & _). exact Ht.
  - exact Hs.
  - destruct Har as (Ha1 & Ha2 & Ha3 & Ha4). unfold seed_contained.
    rewrite !Z.geb_leb.
    destruct (Z.leb_spec (qb (chain2aln_extend ksw_extend opt l_query query
                                (fst rmax) (snd rmax) rseq s)) (qbeg s)); [ | lia ].
    destruct (Z.leb_spec (qbeg s + len s)
                (qe (chain2aln_extend ksw_extend opt l_query query
                       (fst rmax) (snd rmax) rseq s))); [ | lia ].
    destruct (Z.leb_spec (rb (chain2aln_extend ksw_extend opt l_query query
                                (fst rmax) (snd rmax) rseq s)) (rbeg s)); [ | lia ].
    destruct (Z.leb_spec (rbeg s + len s)
                (re (chain2aln_extend ksw_extend opt l_query query
                       (fst rmax) (snd rmax) rseq s))); [ | lia ].
    reflexivity.
Qed.

Lemma extend_diagonal_bounds : ksw_extend_bounds extend_diagonal.
Proof.
  intros qlen query tlen target m mat q r w h0 Hq Ht. unfold extend_diagonal.
  cbv zeta. cbn [fst snd]. lia.
Qed.

Lemma mem_chain2aln_around_witness :
  let rmax := chain2aln_span mem_opt_init 100000 60 chain_two_seeds in
  Forall (fun a =>
            exists s, s ∈ take (Z.to_nat (chn_n chain_two_seeds))
                                (chn_seeds chain_two_seeds)
              /\ region_around 60 (fst rmax) (snd rmax) s a
              /\ len s <= seedcov a
              /\ sub a = 0 /\ csub a = 0 /\ sub_n a = 0 /\ secondary a = 0)
         (mem_chain2aln zero_seq extend_diagonal mem_opt_init 100000 []
                        60 (replicate 60 0) chain_two_seeds).
Proof.
  apply (mem_chain2aln_around zero_seq extend_diagonal mem_opt_init 100000 []
           60 (replicate 60 0) chain_two_seeds).
  - exact extend_diagonal_bounds.
  - repeat constructor; simpl; lia.
Defined.

(** ** [bwa_hit2sam] *)

(** Without a hit and without a mate the hit that is printed is the
    unmapped one, with the flag 4. *)
Lemma hit2sam_hit_none l_pac l_seq :
  0 <= l_pac ->
  hit2sam_hit l_pac l_seq None None = (or_flag hit_unmapped 4, false).
Proof.
  intros Hl. unfold hit2sam_hit. cbv zeta. cbn [mate_test].
  assert (Hm : forall v, is_mapped l_pac (or_flag hit_unmapped v) = false)
    by reflexivity.
  rewrite Hm. cbn [negb h_rb or_flag hit_unmapped]. rewrite Z.geb_leb.
  destruct (Z.leb_spec l_pac (-1)); [ lia | reflexivity ].
Qed.

Lemma hit2sam_none bns_get_seq ksw_global bns_depos bns_cnt_ambi ann_name ann_offset
    mat q r w l_pac pac s is_hard :
  0 <= l_pac ->
  bwa_hit2sam bns_get_seq ksw_global bns_depos bns_cnt_ambi ann_name ann_offset
              mat q r w l_pac pac s None is_hard None
  = (sam_unmapped s, s_seq s).
Proof.
  intros Hl. unfold bwa_hit2sam. cbv zeta.
  rewrite (hit2sam_hit_none l_pac (s_l_seq s) Hl). reflexivity.
Qed.

(** X24: for a read without a hit and without a mate, [bwa_hit2sam]
    appends the record with the flag 4, no coordinate, no mate, the
    whole read on the forward strand and the tags [AS:i:0] and [XS:i:0];
    it calls neither [bwa_gen_cigar] nor [bntseq.h] and leaves the read
    alone.  [l_pac] is not negative. *)
Theorem bwa_hit2sam_unmapped
    (bns_get_seq : Z -> list Z -> Z -> Z -> list Z * Z)
    (ksw_global : Z -> list Z -> Z -> list Z -> Z -> list Z -> Z -> Z -> Z
                  -> Z * Z * list Z)
    (bns_depos : Z -> Z * Z) (bns_cnt_ambi : Z -> Z -> Z * Z)
    (ann_name : Z -> list ascii) (ann_offset : Z -> Z)
    (mat : list Z) (q r w l_pac : Z) (pac : list Z) (s : bseq1_t) (is_hard : Z) :
  0 <= l_pac ->
  bwa_hit2sam bns_get_seq ksw_global bns_depos bns_cnt_ambi ann_name ann_offset
              mat q r w l_pac pac s None is_hard None
  = (sam_unmapped s, s_seq s).
Proof.
  intros Hl. unfold bwa_hit2sam. cbv zeta.
  rewrite (hit2sam_hit_none l_pac (s_l_seq s) Hl).
  cbn [fst snd]. change (is_mapped l_pac (or_flag hit_unmapped 4)) with false.
  unfold sam_unmapped, hit2sam_mate, hit2sam_seq, hit2sam_tags.
  reflexivity.
Qed.

Lemma bwa_hit2sam_unmapped_witness :
  bwa_hit2sam zero_seq band_probe depos_1000 cnt_ambi_none ann_chr ann_zero
              (o_mat mem_opt_init) 6 1 100 1000 [] read_acgt None 0 None
  = (sam_unmapped read_acgt, s_seq read_acgt).
Proof.
  apply (bwa_hit2sam_unmapped zero_seq band_probe depos_1000 cnt_ambi_none ann_chr
           ann_zero (o_mat mem_opt_init) 6 1 100 1000 [] read_acgt 0).
  lia.
Defined.

Lemma sam_tabs_app ops ops' : sam_tabs (ops ++ ops') = (sam_tabs ops + sam_tabs ops')%nat.
Proof. induction ops as [|o ops IH]; simpl; [ reflexivity | rewrite IH; lia ]. Qed.

Lemma lit_at_no_tab (s : string) (i : Z) :
  Forall (fun c => c <> TAB) (lit s) -> count_tabs [lit_at s i] = 0%nat.
Proof.
  intros H. unfold lit_at, count_tabs.
  destruct (nth_lookup_or_length (lit s) (Z.to_nat i) zero) as [Hn|Hn].
  - rewrite Forall_forall in H.
    rewrite filter_cons_False; [ reflexivity | ].
    apply H. eapply list_elem_of_lookup_2. exact Hn.
  - rewrite nth_overflow by lia. reflexivity.
Qed.

Lemma hit2sam_clip_tabs is_hard clip : sam_tabs (hit2sam_clip is_hard clip) = 0%nat.
Proof.
  unfold hit2sam_clip. destruct (negb _); [ | reflexivity ].
  cbn [sam_tabs op_tabs]. rewrite lit_at_no_tab; [ reflexivity | ].
  repeat constructor; discriminate.
Qed.

Lemma hit2sam_cigar_tabs is_rev is_hard l_seq p n_cigar cigar :
  sam_tabs (hit2sam_cigar is_rev is_hard l_seq p n_cigar cigar) = 0%nat.
Proof.
  unfold hit2sam_cigar. destruct (negb _); [ | reflexivity ]. cbv zeta.
  rewrite !sam_tabs_app, !hit2sam_clip_tabs.
  generalize (take (Z.to_nat n_cigar) cigar). intros l.
  induction l as [|c l IH]; [ reflexivity | ].
  cbn [map concat app sam_tabs op_tabs] in IH |- *.
  rewrite lit_at_no_tab by (repeat constructor; discriminate). lia.
Qed.

Lemma sam_tabs_bases (alphabet : string) seq idx :
  Forall (fun c => c <> TAB) (lit alphabet) ->
  sam_tabs (map (fun i => Store (lit_at alphabet (nth (Z.to_nat i) seq 0))) idx) = 0%nat.
Proof.
  intros H. induction idx as [|i idx IH]; [ reflexivity | ].
  cbn [map sam_tabs op_tabs]. rewrite lit_at_no_tab by exact H. exact IH.
Qed.

Lemma sam_tabs_qual ql idx :
  Forall (fun c => c <> TAB) ql ->
  sam_tabs (map (fun i => Store (nth (Z.to_nat i) ql zero)) idx) = 0%nat.
Proof.
  intros H. induction idx as [|i idx IH]; [ reflexivity | ].
  cbn [map sam_tabs op_tabs]. rewrite IH. unfold count_tabs.
  destruct (nth_lookup_or_length ql (Z.to_nat i) zero) as [Hn|Hn].
  - rewrite Forall_forall in H. rewrite filter_cons_False; [ reflexivity | ].
    apply H. eapply list_elem_of_lookup_2. exact Hn.
  - rewrite nth_overflow by lia. reflexivity.
Qed.

Lemma hit2sam_seq_tabs p is_hard l_seq seq qual :
  no_tab_qual qual -> sam_tabs (hit2sam_seq p is_hard l_seq seq qual) = 1%nat.
Proof.
  intros Hq. unfold hit2sam_seq. cbv zeta.
  destruct (Z.land (h_flag p) 16 =? 0);
    [ unfold hit2sam_seq_forward | unfold hit2sam_seq_reverse ];
    rewrite !sam_tabs_app, sam_tabs_bases by (repeat constructor; discriminate);
    (destruct qual as [ql|];
     [ rewrite !sam_tabs_app, sam_tabs_qual by exact Hq; reflexivity
     | reflexivity ]).
Qed.

Lemma hit2sam_tags_tabs p :
  sam_tabs (hit2sam_tags p)
  = ((if h_score p >=? 0 then 1 else 0) + (if h_sub p >=? 0 then 1 else 0))%nat.
Proof.
  unfold hit2sam_tags.
  destruct (h_score p >=? 0), (h_sub p >=? 0); reflexivity.
Qed.

Lemma hit2sam_mate_tabs bns_depos bns_cnt_ambi ann_name l_pac ann_offset p rid m :
  (forall rid, no_tab (ann_name rid)) ->
  sam_tabs (hit2sam_mate bns_depos bns_cnt_ambi ann_name ann_offset l_pac p rid m)
  = 4%nat.
Proof.
  intros Hn. unfold hit2sam_mate.
  destruct m as [m'|]; [ | reflexivity ].
  destruct (is_mapped l_pac m'); [ | reflexivity ]. cbv zeta.
  rewrite !sam_tabs_app.
  destruct (_ =? rid); cbn [sam_tabs op_tabs]; rewrite ?Hn; reflexivity.
Qed.

Lemma hit2sam_coordinate_tabs bns_depos bns_cnt_ambi ann_name ann_offset
    l_pac is_hard l_seq p n_cigar cigar :
  (forall rid, no_tab (ann_name rid)) ->
  sam_tabs (fst (hit2sam_coordinate bns_depos bns_cnt_ambi ann_name ann_offset
                   l_pac is_hard l_seq p n_cigar cigar)) = 4%nat.
Proof.
  intros Hn. unfold hit2sam_coordinate. cbv zeta. cbn [fst].
  rewrite sam_tabs_app, hit2sam_cigar_tabs. cbn [sam_tabs op_tabs].
  rewrite Hn. reflexivity.
Qed.

(** The lines before the first [kputs] and the call of [bwa_gen_cigar]
    leave [score] and [sub] of the hit alone. *)
Lemma hit2sam_hit_score l_pac l_seq p_ m :
  h_score (fst (hit2sam_hit l_pac l_seq p_ m)) = hit_score p_
  /\ h_sub (fst (hit2sam_hit l_pac l_seq p_ m)) = hit_sub p_.
Proof.
  unfold hit2sam_hit. cbv zeta. cbn [fst].
  destruct m as [m'|]; cbn [mate_test];
    [ destruct (negb _ && _) | ]; destruct p_; split; reflexivity.
Qed.

Lemma hit2sam_align_score bns_get_seq ksw_global mat q r w l_pac pac seq p copy_mate :
  let al := hit2sam_align bns_get_seq ksw_global mat q r w l_pac pac seq p copy_mate in
  h_score (fst (fst (fst al))) = h_score p /\ h_sub (fst (fst (fst al))) = h_sub p.
Proof.
  unfold hit2sam_align. cbv zeta. destruct copy_mate; split; reflexivity.
Qed.

(** X25: on every path [bwa_hit2sam] appends the eleven columns of a
    record, that is ten tabulators, and one more for each of the tags
    [AS] and [XS], which are there when [score] and [sub] are not
    negative.  The names of the read and of the reference sequences and
    the base qualities hold no tabulator. *)
Theorem bwa_hit2sam_columns
    (bns_get_seq : Z -> list Z -> Z -> Z -> list Z * Z)
    (ksw_global : Z -> list Z -> Z -> list Z -> Z -> list Z -> Z -> Z -> Z
                  -> Z * Z * list Z)
    (bns_depos : Z -> Z * Z) (bns_cnt_ambi : Z -> Z -> Z * Z)
    (ann_name : Z -> list ascii) (ann_offset : Z -> Z)
    (mat : list Z) (q r w l_pac : Z) (pac : list Z) (s : bseq1_t)
    (p_ : option bwahit_t) (is_hard : Z) (m : option bwahit_t) :
  no_tab (s_name s) -> (forall rid, no_tab (ann_name rid)) -> no_tab_qual (s_qual s) ->
  sam_tabs (fst (bwa_hit2sam bns_get_seq ksw_global bns_depos bns_cnt_ambi ann_name
                   ann_offset mat q r w l_pac pac s p_ is_hard m))
  = (10 + (if hit_score p_ >=? 0 then 1 else 0)
        + (if hit_sub p_ >=? 0 then 1 else 0))%nat.
Proof.
  intros Hname Hann Hqual. unfold bwa_hit2sam. cbv zeta.
  destruct (hit2sam_hit_score l_pac (s_l_seq s) p_ m) as [Hsc Hsb].
  destruct (is_mapped l_pac (fst (hit2sam_hit l_pac (s_l_seq s) p_ m))); cbn [fst].
  - destruct (hit2sam_align_score bns_get_seq ksw_global mat q r w l_pac pac (s_seq s)
                (fst (hit2sam_hit l_pac (s_l_seq s) p_ m))
                (snd (hit2sam_hit l_pac (s_l_seq s) p_ m))) as [Hsc' Hsb'].
    rewrite !sam_tabs_app, hit2sam_coordinate_tabs, hit2sam_mate_tabs,
      hit2sam_seq_tabs, hit2sam_tags_tabs by assumption.
    rewrite Hsc', Hsb', Hsc, Hsb. cbn [sam_tabs op_tabs]. rewrite Hname.
    change (count_tabs [TAB]) with 1%nat.
    destruct (hit_score p_ >=? 0), (hit_sub p_ >=? 0); reflexivity.
  - rewrite !sam_tabs_app, hit2sam_mate_tabs, hit2sam_seq_tabs, hit2sam_tags_tabs
      by assumption.
    rewrite Hsc, Hsb. cbn [sam_tabs op_tabs]. rewrite Hname.
    change (count_tabs sam_no_coordinate) with 4%nat.
    change (count_tabs [TAB]) with 1%nat.
    destruct (hit_score p_ >=? 0), (hit_sub p_ >=? 0); reflexivity.
Qed.

Lemma bwa_hit2sam_columns_witness :
  sam_tabs (fst (bwa_hit2sam zero_seq band_probe depos_1000 cnt_ambi_none ann_chr
                   ann_zero (o_mat mem_opt_init) 6 1 100 1000 [] read_acgt
                   (Some hit_reverse) 0 (Some hit_forward)))
  = (10 + (if hit_score (Some hit_reverse) >=? 0 then 1 else 0)
        + (if hit_sub (Some hit_reverse) >=? 0 then 1 else 0))%nat.
Proof.
  apply (bwa_hit2sam_columns zero_seq band_probe depos_1000 cnt_ambi_none ann_chr
           ann_zero (o_mat mem_opt_init) 6 1 100 1000 [] read_acgt
           (Some hit_reverse) 0 (Some hit_forward)).
  - reflexivity.
  - intros rid. reflexivity.
  - repeat constructor; discriminate.
Defined.

Lemma stores_map_store (f : Z -> ascii) (idx : list Z) :
  stores (map (fun i => Store (f i)) idx) = f <$> idx.
Proof.
  induction idx as [|i idx IH]; [ reflexivity | ].
  unfold stores in *. simpl. f_equal. exact IH.
Qed.

Lemma lit_at_complement (c : Z) :
  lit_at "TGCAN" c = complement (lit_at "ACGTN" c).
Proof.
  unfold lit_at. generalize (Z.to_nat c). intros n.
  do 6 (destruct n as [|n]; [ reflexivity | ]). reflexivity.
Qed.

(** X26: the column SEQ of a hit on the reverse strand is the reverse
    complement of the column on the forward strand, and the column QUAL
    is the reverse of the one on the forward strand. *)
Theorem hit2sam_seq_reverse_complement (qb qe : Z) (seq : list Z) :
  stores (hit2sam_seq_reverse qb qe seq None)
  = reverse (complement <$> stores (hit2sam_seq_forward qb qe seq None))
  /\ forall ql,
       stores (hit2sam_seq_reverse qb qe seq (Some ql))
       = reverse (complement <$> stores (hit2sam_seq_forward qb qe seq None))
         ++ reverse (drop (Z.to_nat (qe - qb))
                          (stores (hit2sam_seq_forward qb qe seq (Some ql)))).
Proof.
  assert (Hseq : (fun i => lit_at "TGCAN" (nth (Z.to_nat i) seq 0))
                   <$> reverse (seqZ qb (qe - qb))
                 = reverse (complement
                     <$> ((fun i => lit_at "ACGTN" (nth (Z.to_nat i) seq 0))
                            <$> seqZ qb (qe - qb)))).
  { rewrite fmap_reverse. f_equal. rewrite <- list_fmap_compose.
    apply list_fmap_ext. intros _ i _. simpl. apply lit_at_complement. }
  unfold hit2sam_seq_reverse, hit2sam_seq_forward, stores.
  split.
  - rewrite !omap_app. fold (stores (map (fun i => Store (lit_at "TGCAN" (nth (Z.to_nat i) seq 0)))
                                         (reverse (seqZ qb (qe - qb))))).
    fold (stores (map (fun i => Store (lit_at "ACGTN" (nth (Z.to_nat i) seq 0)))
                      (seqZ qb (qe - qb)))).
    rewrite !stores_map_store. cbn [omap list_omap app]. rewrite !app_nil_r. exact Hseq.
  - intros ql. rewrite !omap_app.
    fold (stores (map (fun i => Store (lit_at "TGCAN" (nth (Z.to_nat i) seq 0)))
                      (reverse (seqZ qb (qe - qb))))).
    fold (stores (map (fun i => Store (lit_at "ACGTN" (nth (Z.to_nat i) seq 0)))
                      (seqZ qb (qe - qb)))).
    fold (stores (map (fun i => Store (nth (Z.to_nat i) ql zero))
                      (reverse (seqZ qb (qe - qb))))).
    fold (stores (map (fun i => Store (nth (Z.to_nat i) ql zero))
                      (seqZ qb (qe - qb)))).
    rewrite !stores_map_store. cbn [omap list_omap app]. rewrite !app_nil_r.
    rewrite Hseq. f_equal.
    rewrite drop_app_length'
      by (rewrite length_fmap, length_seqZ; reflexivity).
    rewrite fmap_reverse. reflexivity.
Qed.

(** The lines before the first [kputs] change the coordinates of the hit
    only when they copy the ones of the mate. *)
Lemma hit2sam_hit_coordinates l_pac l_seq p_ m :
  snd (hit2sam_hit l_pac l_seq p_ m) = false ->
  let p0 := match p_ with Some p => p | None => hit_unmapped end in
  let p := fst (hit2sam_hit l_pac l_seq p_ m) in
  h_rb p = h_rb p0 /\ h_re p = h_re p0 /\ h_qb p = h_qb p0 /\ h_qe p = h_qe p0.
Proof.
  unfold hit2sam_hit. cbv zeta. cbn [fst snd].
  destruct m as [m'|]; cbn [mate_test].
  - intros ->. repeat split; reflexivity.
  - intros _. repeat split; reflexivity.
Qed.

(** X27: [bwa_hit2sam] leaves the bases of the read as they were; the
    hit lies inside the read. *)
Theorem bwa_hit2sam_read_restored
    (bns_get_seq : Z -> list Z -> Z -> Z -> list Z * Z)
    (ksw_global : Z -> list Z -> Z -> list Z -> Z -> list Z -> Z -> Z -> Z
                  -> Z * Z * list Z)
    (bns_depos : Z -> Z * Z) (bns_cnt_ambi : Z -> Z -> Z * Z)
    (ann_name : Z -> list ascii) (ann_offset : Z -> Z)
    (mat : list Z) (q r w l_pac : Z) (pac : list Z) (s : bseq1_t)
    (p_ : option bwahit_t) (is_hard : Z) (m : option bwahit_t) :
  (forall p, p_ = Some p -> 0 <= h_qb p /\ h_qe p <= Z.of_nat (length (s_seq s))) ->
  snd (bwa_hit2sam bns_get_seq ksw_global bns_depos bns_cnt_ambi ann_name
         ann_offset mat q r w l_pac pac s p_ is_hard m) = s_seq s.
Proof.
  intros Hin. unfold bwa_hit2sam. cbv zeta.
  destruct (is_mapped l_pac (fst (hit2sam_hit l_pac (s_l_seq s) p_ m))) eqn:Hmap;
    [ | reflexivity ].
  cbn [snd]. unfold hit2sam_align.
  destruct (snd (hit2sam_hit l_pac (s_l_seq s) p_ m)) eqn:Hcopy; [ reflexivity | ].
  cbn [negb snd].
  destruct (hit2sam_hit_coordinates l_pac (s_l_seq s) p_ m Hcopy) as (Hrb & _ & Hqb & Hqe).
  destruct p_ as [p|].
  - destruct (Hin p eq_refl) as [H0 H1].
    rewrite gc_query_restored.
    + apply take_drop.
    + rewrite length_drop, Hqb, Hqe. lia.
  - unfold is_mapped in Hmap. rewrite Hrb in Hmap. discriminate Hmap.
Qed.

Lemma bwa_hit2sam_read_restored_witness :
  snd (bwa_hit2sam zero_seq band_probe depos_1000 cnt_ambi_none ann_chr ann_zero
         (o_mat mem_opt_init) 6 1 100 1000 [] read_acgt (Some hit_reverse) 0 None)
  = s_seq read_acgt.
Proof.
  apply (bwa_hit2sam_read_restored zero_seq band_probe depos_1000 cnt_ambi_none
           ann_chr ann_zero (o_mat mem_opt_init) 6 1 100 1000 [] read_acgt
           (Some hit_reverse) 0 None).
  intros p [= <-]. simpl. lia.
Defined.

(** ** [mem_sam_se] and the single-end loop of [worker2] *)

Lemma sam_records_app ops ops' :
  sam_records (ops ++ ops') = (sam_records ops + sam_records ops')%nat.
Proof. unfold sam_records. rewrite list.filter_app, length_app. reflexivity. Qed.

Lemma lit_at_not_eol (s : string) (i : Z) :
  Forall (fun c => c <> NL) (lit s) -> is_eol (Kputc (lit_at s i)) = false.
Proof.
  intros H. unfold lit_at, is_eol.
  destruct (Ascii.eqb_spec (nth (Z.to_nat i) (lit s) zero) NL) as [Heq|]; [ | reflexivity ].
  destruct (nth_lookup_or_length (lit s) (Z.to_nat i) zero) as [Hn|Hn].
  - rewrite Forall_forall in H. exfalso. apply (H _ (list_elem_of_lookup_2 _ _ _ Hn)), Heq.
  - rewrite nth_overflow in Heq by lia. discriminate Heq.
Qed.

Lemma sam_records_no_eol ops :
  Forall (fun o => is_eol o = false) ops -> sam_records ops = 0%nat.
Proof.
  intros H. unfold sam_records. induction H as [|o ops Ho _ IH]; [ reflexivity | ].
  rewrite filter_cons_False by (rewrite Ho; discriminate). exact IH.
Qed.

Lemma hit2sam_clip_no_eol is_hard clip :
  Forall (fun o => is_eol o = false) (hit2sam_clip is_hard clip).
Proof.
  unfold hit2sam_clip. destruct (negb _); [ | constructor ].
  repeat constructor. apply lit_at_not_eol. repeat constructor; discriminate.
Qed.

Lemma hit2sam_cigar_no_eol is_rev is_hard l_seq p n_cigar cigar :
  Forall (fun o => is_eol o = false) (hit2sam_cigar is_rev is_hard l_seq p n_cigar cigar).
Proof.
  unfold hit2sam_cigar. destruct (negb _); [ | repeat constructor ]. cbv zeta.
  rewrite !Forall_app. split; [ apply hit2sam_clip_no_eol | ].
  split; [ | apply hit2sam_clip_no_eol ].
  generalize (take (Z.to_nat n_cigar) cigar). intros l.
  induction l as [|c l IH]; [ constructor | ].
  cbn [map concat app]. repeat constructor; [ | exact IH ].
  apply lit_at_not_eol. repeat constructor; discriminate.
Qed.

Lemma hit2sam_seq_no_eol p is_hard l_seq seq qual :
  Forall (fun o => is_eol o = false) (hit2sam_seq p is_hard l_seq seq qual).
Proof.
  unfold hit2sam_seq. cbv zeta.
  destruct (Z.land (h_flag p) 16 =? 0);
    [ unfold hit2sam_seq_forward | unfold hit2sam_seq_reverse ];
    rewrite !Forall_app;
    (split; [ repeat constructor | ]);
    (split; [ apply Forall_forall; intros o Ho;
              apply list_elem_of_In, in_map_iff in Ho as (i & <- & _); reflexivity | ]);
    (split; [ repeat constructor | ]);
    (destruct qual as [ql|]; [ | repeat constructor ]);
    rewrite !Forall_app;
    (split; [ repeat constructor | ]);
    (split; [ apply Forall_forall; intros o Ho;
              apply list_elem_of_In, in_map_iff in Ho as (i & <- & _); reflexivity
            | repeat constructor ]).
Qed.

Lemma hit2sam_mate_no_eol bns_depos bns_cnt_ambi ann_name ann_offset l_pac p rid m :
  Forall (fun o => is_eol o = false)
         (hit2sam_mate bns_depos bns_cnt_ambi ann_name ann_offset l_pac p rid m).
Proof.
  unfold hit2sam_mate. destruct m as [m'|]; [ | repeat constructor ].
  destruct (is_mapped l_pac m'); [ | repeat constructor ]. cbv zeta.
  destruct (_ =? rid); repeat constructor.
Qed.

Lemma hit2sam_coordinate_no_eol bns_depos bns_cnt_ambi ann_name ann_offset
    l_pac is_hard l_seq p n_cigar cigar :
  Forall (fun o => is_eol o = false)
         (fst (hit2sam_coordinate bns_depos bns_cnt_ambi ann_name ann_offset
                 l_pac is_hard l_seq p n_cigar cigar)).
Proof.
  unfold hit2sam_coordinate. cbv zeta. cbn [fst].
  rewrite Forall_app. split; [ repeat constructor | apply hit2sam_cigar_no_eol ].
Qed.

Lemma hit2sam_tags_records p : sam_records (hit2sam_tags p) = 1%nat.
Proof.
  unfold hit2sam_tags. destruct (h_score p >=? 0), (h_sub p >=? 0); reflexivity.
Qed.

(** Every call of [bwa_hit2sam] ends one line. *)
Lemma bwa_hit2sam_one_record bns_get_seq ksw_global bns_depos bns_cnt_ambi ann_name
    ann_offset mat q r w l_pac pac s p_ is_hard m :
  sam_records (fst (bwa_hit2sam bns_get_seq ksw_global bns_depos bns_cnt_ambi
                      ann_name ann_offset mat q r w l_pac pac s p_ is_hard m))
  = 1%nat.
Proof.
  unfold bwa_hit2sam. cbv zeta.
  destruct (is_mapped l_pac (fst (hit2sam_hit l_pac (s_l_seq s) p_ m))); cbn [fst];
    rewrite !sam_records_app, hit2sam_tags_records.
  - rewrite (sam_records_no_eol (fst _)) by apply hit2sam_coordinate_no_eol.
    rewrite (sam_records_no_eol (hit2sam_mate _ _ _ _ _ _ _ _))
      by apply hit2sam_mate_no_eol.
    rewrite (sam_records_no_eol (hit2sam_seq _ _ _ _ _)) by apply hit2sam_seq_no_eol.
    reflexivity.
  - rewrite (sam_records_no_eol (hit2sam_mate _ _ _ _ _ _ _ _))
      by apply hit2sam_mate_no_eol.
    rewrite (sam_records_no_eol (hit2sam_seq _ _ _ _ _)) by apply hit2sam_seq_no_eol.
    reflexivity.
Qed.

(** The loop of [mem_sam_se] ends one line for every region that is not
    marked secondary. *)
Lemma sam_se_loop_records bns_get_seq ksw_global bns_depos bns_cnt_ambi ann_name
    ann_offset mapq_margin identity_low mapq_identity mapq_ties MEM_F_HARDCLIP
    opt l_pac pac s extra_flag m a st :
  sam_records (fst (foldl (sam_se_step bns_get_seq ksw_global bns_depos bns_cnt_ambi
                             ann_name ann_offset mapq_margin identity_low
                             mapq_identity mapq_ties MEM_F_HARDCLIP
                             opt l_pac pac s extra_flag m) st a))
  = (sam_records (fst st) + length (filter (fun x => (secondary x < 0)%Z) a))%nat.
Proof.
  revert st. induction a as [|ak a IH]; intros st; [ simpl; lia | ].
  cbn [foldl]. rewrite IH. unfold sam_se_step. rewrite Z.geb_leb.
  destruct (Z.leb_spec 0 (secondary ak)) as [Hsec|Hsec].
  - rewrite filter_cons_False by lia. reflexivity.
  - rewrite filter_cons_True by lia. cbv zeta. cbn [fst length].
    rewrite sam_records_app, bwa_hit2sam_one_record. lia.
Qed.

(** X28: [mem_sam_se] writes one record for every region that is not
    marked secondary ([secondary < 0]), and one record, the unmapped
    one, when there is no region. *)
Theorem mem_sam_se_records
    (bns_get_seq : Z -> list Z -> Z -> Z -> list Z * Z)
    (ksw_global : Z -> list Z -> Z -> list Z -> Z -> list Z -> Z -> Z -> Z
                  -> Z * Z * list Z)
    (bns_depos : Z -> Z * Z) (bns_cnt_ambi : Z -> Z -> Z * Z)
    (ann_name : Z -> list ascii) (ann_offset : Z -> Z)
    (mapq_margin : Z -> Z -> Z -> Z) (identity_low : mem_opt_t -> Z -> Z -> bool)
    (mapq_identity : mem_opt_t -> Z -> Z -> Z -> Z) (mapq_ties : Z -> Z)
    (MEM_F_HARDCLIP : Z)
    (opt : mem_opt_t) (l_pac : Z) (pac : list Z)
    (s : bseq1_t) (a : list mem_alnreg_t) (extra_flag : Z) (m : option bwahit_t) :
  sam_records (fst (mem_sam_se bns_get_seq ksw_global bns_depos bns_cnt_ambi
                      ann_name ann_offset mapq_margin identity_low mapq_identity
                      mapq_ties MEM_F_HARDCLIP opt l_pac pac s a extra_flag m))
  = match a with
    | [] => 1%nat
    | _ :: _ => length (filter (fun x => (secondary x < 0)%Z) a)
    end.
Proof.
  unfold mem_sam_se. destruct a as [|a0 a].
  - cbn [length Nat.ltb Nat.leb]. apply bwa_hit2sam_one_record.
  - cbn [length Nat.ltb Nat.leb]. rewrite sam_se_loop_records. reflexivity.
Qed.

(** After [mem_mark_primary_se] the first region is not secondary. *)
Lemma mem_mark_primary_se_head fc opt a :
  a <> [] ->
  exists x, mem_mark_primary_se fc opt a !! 0%nat = Some x /\ secondary x = -1.
Proof.
  intros Hne. unfold mem_mark_primary_se.
  destruct (Nat.eqb_spec (length a) 0) as [H0|H0];
    [ destruct a; [ congruence | discriminate ] | ].
  cbv zeta.
  set (tmp := if o_a opt + o_b opt >? o_q opt + o_r opt
              then o_a opt + o_b opt else o_q opt + o_r opt).
  set (a0 := map (fun x => set_secondary (set_sub x 0) (-1)) a).
  assert (Hlen0 : length a0 = length a) by apply length_map.
  assert (Hall : forall k, (k < length a)%nat -> (secondary <$> a0) !! k = Some (-1)).
  { intros k Hk. destruct (lookup_lt_is_Some_2 a k Hk) as [x Hx].
    unfold a0. change (map ?f a) with (f <$> a).
    rewrite !list_lookup_fmap, Hx. reflexivity. }
  assert (Hinv0 : primary_inv (secondary <$> a0) [0%nat] 1).
  { split; [ | split; [ | split ] ].
    - intros j Hj. apply list_elem_of_singleton in Hj. subst j. split; [ lia | ].
      apply Hall. lia.
    - intros k v Hv. left.
      assert (Hk : (k < length a)%nat).
      { apply lookup_lt_Some in Hv. rewrite length_fmap, Hlen0 in Hv. exact Hv. }
      rewrite Hall in Hv by exact Hk. congruence.
    - intros k _ Hk. rewrite length_fmap, Hlen0 in Hk. apply Hall, Hk.
    - left. }
  rewrite Hlen0.
  destruct (primary_loop_inv fc opt tmp (length a - 1) 1 a0 [0%nat] ltac:(lia) Hinv0)
    as [(I1 & _ & _ & I4) _].
  destruct (I1 0%nat I4) as [_ Hsec].
  apply list_lookup_fmap_Some in Hsec as (x & Hx & Hl).
  exists x. split; [ exact Hl | symmetry; exact Hx ].
Qed.

(** X29: one turn of the single-end loop of [worker2], that is
    [mem_mark_primary_se] and then [mem_sam_se] on the regions of one
    read, writes something to the string, at least one record and at
    most one for each region (one when there is no region).  Which reads
    the loop takes a turn on is another matter (X2). *)
Theorem worker2_se_read_records
    (bns_get_seq : Z -> list Z -> Z -> Z -> list Z * Z)
    (ksw_global : Z -> list Z -> Z -> list Z -> Z -> list Z -> Z -> Z -> Z
                  -> Z * Z * list Z)
    (bns_depos : Z -> Z * Z) (bns_cnt_ambi : Z -> Z -> Z * Z)
    (ann_name : Z -> list ascii) (ann_offset : Z -> Z)
    (mapq_margin : Z -> Z -> Z -> Z) (identity_low : mem_opt_t -> Z -> Z -> bool)
    (mapq_identity : mem_opt_t -> Z -> Z -> Z -> Z) (mapq_ties : Z -> Z)
    (MEM_F_HARDCLIP : Z)
    (fc : float_cmp) (opt : mem_opt_t) (l_pac : Z) (pac : list Z)
    (s : bseq1_t) (regs : list mem_alnreg_t) :
  let r := worker2_se_read bns_get_seq ksw_global bns_depos bns_cnt_ambi ann_name
             ann_offset mapq_margin identity_low mapq_identity mapq_ties
             MEM_F_HARDCLIP fc opt l_pac pac s regs in
  fst r <> []
  /\ (1 <= sam_records (fst r) <= Nat.max 1 (length regs))%nat.
Proof.
  cbv zeta. unfold worker2_se_read.
  assert (Hcount : (1 <= sam_records (fst (mem_sam_se bns_get_seq ksw_global bns_depos
                      bns_cnt_ambi ann_name ann_offset mapq_margin identity_low
                      mapq_identity mapq_ties MEM_F_HARDCLIP opt l_pac pac s
                      (mem_mark_primary_se fc opt regs) 0 None))
                    <= Nat.max 1 (length regs))%nat).
  { pose proof (mem_mark_primary_se_length fc opt regs) as Hlen.
    unfold mem_sam_se.
    destruct (mem_mark_primary_se fc opt regs) as [|x0 a'] eqn:Ha.
    - cbn [length Nat.ltb Nat.leb]. rewrite bwa_hit2sam_one_record. lia.
    - cbn [length Nat.ltb Nat.leb]. rewrite sam_se_loop_records. cbn [fst].
      change (sam_records []) with 0%nat.
      assert (Hne : regs <> []) by (intros ->; discriminate Ha).
      destruct (mem_mark_primary_se_head fc opt regs Hne) as (x & Hx & Hsec).
      rewrite Ha in Hx. cbn in Hx. injection Hx as ->.
      rewrite filter_cons_True by lia. cbn [length].
      pose proof (length_filter (fun x => (secondary x < 0)%Z) a') as Hf.
      simpl in Hlen. lia. }
  split; [ | exact Hcount ].
  intros Hnil. rewrite Hnil in Hcount. unfold sam_records in Hcount. simpl in Hcount. lia.
Qed.

(** ** [find_alnreg] and the two passes *)

(** X30: a read shorter than [min_seed_len] goes through the two passes
    without a query to the index, a sort, a call of [bns_get_seq] or an
    alignment: [find_alnreg] encodes its bases and returns no region,
    and the single-end loop of [worker2] then writes the unmapped
    record for it.  [l_pac] is not negative. *)
Theorem find_alnreg_short
    (bwt_smem1 : Z -> list Z -> Z -> Z -> Z -> Z * list bwtintv_t)
    (bwt_sa : Z -> Z)
    (ks_introsort_mem_flt : list flt_aux_t -> list flt_aux_t)
    (ks_introsort_mem_ars : list mem_alnreg_t -> list mem_alnreg_t)
    (bns_get_seq : Z -> list Z -> Z -> Z -> list Z * Z)
    (ksw_extend : Z -> list Z -> Z -> list Z -> Z -> list Z -> Z -> Z -> Z -> Z
                  -> Z * Z * Z)
    (nst_nt4_table : Z -> Z)
    (ksw_global : Z -> list Z -> Z -> list Z -> Z -> list Z -> Z -> Z -> Z
                  -> Z * Z * list Z)
    (bns_depos : Z -> Z * Z) (bns_cnt_ambi : Z -> Z -> Z * Z)
    (ann_name : Z -> list ascii) (ann_offset : Z -> Z)
    (mapq_margin : Z -> Z -> Z -> Z) (identity_low : mem_opt_t -> Z -> Z -> bool)
    (mapq_identity : mem_opt_t -> Z -> Z -> Z -> Z) (mapq_ties : Z -> Z)
    (MEM_F_HARDCLIP : Z)
    (fuel : nat) (fc : float_cmp) (opt : mem_opt_t) (l_pac : Z) (pac : list Z)
    (s : bseq1_t) :
  s_l_seq s < o_min_seed_len opt -> 0 <= l_pac ->
  let seq := nt4_encode nst_nt4_table (s_l_seq s) (s_seq s) in
  find_alnreg bwt_smem1 bwt_sa ks_introsort_mem_flt ks_introsort_mem_ars bns_get_seq
              ksw_extend nst_nt4_table fuel fc opt l_pac pac s
  = Some ([], seq)
  /\ worker2_se_read bns_get_seq ksw_global bns_depos bns_cnt_ambi ann_name ann_offset
                     mapq_margin identity_low mapq_identity mapq_ties MEM_F_HARDCLIP
                     fc opt l_pac pac (with_seq s seq) []
     = (sam_unmapped (with_seq s seq), seq).
Proof.
  intros Hshort Hl seq. split.
  - unfold find_alnreg. cbv zeta. fold seq. unfold mem_chain.
    destruct (Z.ltb_spec (s_l_seq s) (o_min_seed_len opt)); [ reflexivity | lia ].
  - unfold worker2_se_read, mem_sam_se.
    change (mem_mark_primary_se fc opt []) with (@nil mem_alnreg_t).
    cbn [length Nat.ltb Nat.leb]. rewrite hit2sam_none by exact Hl. reflexivity.
Qed.

Lemma find_alnreg_short_witness :
  let seq := nt4_encode nt4_acgt (s_l_seq read_raw) (s_seq read_raw) in
  find_alnreg toy_smem1 toy_sa sort_mem_flt sort_mem_ars zero_seq extend_diagonal
              nt4_acgt 0 exact_float mem_opt_init 1000 [] read_raw
  = Some ([], seq)
  /\ worker2_se_read zero_seq band_probe depos_1000 cnt_ambi_none ann_chr ann_zero
                     (fun _ _ _ => 77) (fun _ _ _ => false) (fun _ _ _ m => m)
                     (fun _ => 3) 2 exact_float mem_opt_init 1000 []
                     (with_seq read_raw seq) []
     = (sam_unmapped (with_seq read_raw seq), seq).
Proof.
  apply (find_alnreg_short toy_smem1 toy_sa sort_mem_flt sort_mem_ars zero_seq
           extend_diagonal nt4_acgt band_probe depos_1000 cnt_ambi_none ann_chr
           ann_zero (fun _ _ _ => 77) (fun _ _ _ => false) (fun _ _ _ m => m)
           (fun _ => 3) 2 0 exact_float mem_opt_init 1000 [] read_raw).
  - reflexivity.
  - lia.
Defined.
